(** * Kiwi.js transform / rendering core: a shallow embedding

    The TypeScript sources modelled here are the geometry classes
    [Kiwi.Geom.Matrix] and [Kiwi.Geom.Transform], the [Kiwi.Transformable]
    base class, both versions of [Kiwi.Camera], the hit-box component
    [Kiwi.Components.Box2], the tile layer
    [TileMapLayerDynamicOrthogonal] and the batching part of
    [Kiwi.Renderers.TextureAtlasRenderer].

    Conventions.
    - A JavaScript [number] is modelled as a real number ([R]); the
      arithmetic operators are the exact ones.  Rounding and overflow
      are outside the model, so an equation between computed numbers
      is one of exact arithmetic.  A division by zero gives an Infinity
      or a NaN in the program and is no number of the model: where the
      sources reach one on numbers they can be given (the inverse of a
      matrix with determinant 0 in [Box2], a layer width of 0 in the
      tile layer's constructor) the outcome is written out case by
      case; elsewhere the inverse is [Matrix.invert] as it stands, and
      a statement that depends on its result carries the hypothesis
      that the determinant is not 0.
    - Objects that are shared and mutated ([Transform] nodes with their
      parent pointer and children array) live in a store indexed by
      object identity; a method of such an object is a function from
      stores to stores.  Small value-like objects ([Point], [Matrix])
      are records, and a mutating method returns the new state of its
      receiver.
    - JavaScript recursion that need not terminate (the dirty cascade
      over children, the walk up the parent chain) takes a fuel
      argument; running out of fuel is the model of a call-stack
      overflow and yields [None], as does a [TypeError]. *)

From Stdlib Require Import Reals Lra Lia ZArith List Bool.
From Stdlib Require Import String Sorted.
From stdpp Require Import base option list gmap.

Abbreviation number := R (only parsing).

(** ** Kiwi.Geom.Point (only the part the sources above use) *)
Module Point.

Record t : Type := mk { x : number; y : number }.

Definition setTo (_this : t) (x0 y0 : number) : t := mk x0 y0.

End Point.

(** ** Kiwi.Geom.Matrix *)
Module Matrix.
Local Open Scope R_scope.

(** The six scalars of
<<
    a c tx
    b d ty
    0 0 1
>> *)
Record t : Type := mk {
  a : number; b : number; c : number; d : number;
  tx : number; ty : number
}.

Definition setTo (_this : t) (a0 b0 c0 d0 tx0 ty0 : number) : t :=
  mk a0 b0 c0 d0 tx0 ty0.

(** [new Matrix()] with all its default arguments. *)
Definition new : t := mk 1 0 0 1 0 0.

Definition setToMatrix (_this m : t) : t :=
  mk (a m) (b m) (c m) (d m) (tx m) (ty m).

Definition clone (this : t) : t :=
  mk (a this) (b this) (c this) (d this) (tx this) (ty this).

(** [multiplyMatrix] allocates [ret] and leaves the receiver alone; the
    function is the returned matrix. *)
Definition multiplyMatrix (this b0 : t) : t :=
  mk (a this * a b0 + c this * b b0)
     (b this * a b0 + d this * b b0)
     (a this * c b0 + c this * d b0)
     (b this * c b0 + d this * d b0)
     (a this * tx b0 + c this * ty b0 + tx this)
     (b this * tx b0 + d this * ty b0 + ty this).

(** [this.setToMatrix(b.clone().multiplyMatrix(this))]: the new state of
    the receiver. *)
Definition preMultiplyMatrix (this b0 : t) : t :=
  setToMatrix this (multiplyMatrix (clone b0) this).

(** [postMultiply] evaluates [this.multiplyMatrix(b)] as an expression
    statement: the product is computed and dropped.  The function is the
    state of the receiver after the call. *)
Definition postMultiply (this b0 : t) : t :=
  let _ := multiplyMatrix this b0 in this.

Definition identity : t := new.

Definition setIdentity (_this : t) : t := mk 1 0 0 1 0 0.

Definition transformPoint (this : t) (pt : Point.t) : Point.t :=
  Point.mk (a this * Point.x pt + c this * Point.y pt + tx this)
           (b this * Point.x pt + d this * Point.y pt + ty this).

(** The new state of [pt]. *)
Definition transformPointInPlace (this : t) (pt : Point.t) : Point.t :=
  let x := Point.x pt in
  let y := Point.y pt in
  Point.mk (a this * x + c this * y + tx this)
           (b this * x + d this * y + ty this).

(** [invert] works in place; [this.ty] is still the old value in both of
    the last two assignments, because it is assigned last. *)
Definition invert (this : t) : t :=
  let a1 := a this in
  let b1 := b this in
  let c1 := c this in
  let d1 := d this in
  let tx1 := tx this in
  let n := a1 * d1 - b1 * c1 in
  mk (d1 / n) (- b1 / n) (- c1 / n) (a1 / n)
     ((c1 * ty this - d1 * tx1) / n)
     (- (a1 * ty this - b1 * tx1) / n).

Definition invertCopy (this : t) : t := invert (clone this).

Definition Reqb (u v : number) : bool :=
  if Req_dec_T u v then true else false.

Definition equals (this m : t) : bool :=
  Reqb (a this) (a m) && Reqb (b this) (b m) && Reqb (c this) (c m) &&
  Reqb (d this) (d m) && Reqb (tx this) (tx m) && Reqb (ty this) (ty m).

Definition det (m : t) : number := a m * d m - b m * c m.

End Matrix.

(** ** Kiwi.Geom.Transform

    Transform objects refer to each other ([_parent], [_children]) and
    are mutated through those references, so they live in a store.  A
    reference is the index of the object in the store; [new] appends.
    The [Point] fields are modelled by value: no Point is shared
    between two transforms in the sources modelled here. *)
Module Transform.
Local Open Scope R_scope.

Abbreviation ref := nat.

Record t : Type := mk {
  _dirty : bool;
  _origin : Point.t;
  _pivotPoint : Point.t;
  _scale : Point.t;
  _xy : Point.t;
  _rotation : number;
  _matrix : Matrix.t;
  _cachedConcatenatedMatrix : Matrix.t;
  _children : list ref;
  _parent : option ref
}.

Abbreviation store := (list t).

(** Field assignments. *)
Definition with_dirty (v : bool) (T : t) : t :=
  mk v (_origin T) (_pivotPoint T) (_scale T) (_xy T) (_rotation T)
     (_matrix T) (_cachedConcatenatedMatrix T) (_children T) (_parent T).
Definition with_origin (v : Point.t) (T : t) : t :=
  mk (_dirty T) v (_pivotPoint T) (_scale T) (_xy T) (_rotation T)
     (_matrix T) (_cachedConcatenatedMatrix T) (_children T) (_parent T).
Definition with_pivotPoint (v : Point.t) (T : t) : t :=
  mk (_dirty T) (_origin T) v (_scale T) (_xy T) (_rotation T)
     (_matrix T) (_cachedConcatenatedMatrix T) (_children T) (_parent T).
Definition with_scale (v : Point.t) (T : t) : t :=
  mk (_dirty T) (_origin T) (_pivotPoint T) v (_xy T) (_rotation T)
     (_matrix T) (_cachedConcatenatedMatrix T) (_children T) (_parent T).
Definition with_xy (v : Point.t) (T : t) : t :=
  mk (_dirty T) (_origin T) (_pivotPoint T) (_scale T) v (_rotation T)
     (_matrix T) (_cachedConcatenatedMatrix T) (_children T) (_parent T).
Definition with_rotation (v : number) (T : t) : t :=
  mk (_dirty T) (_origin T) (_pivotPoint T) (_scale T) (_xy T) v
     (_matrix T) (_cachedConcatenatedMatrix T) (_children T) (_parent T).
Definition with_matrix (v : Matrix.t) (T : t) : t :=
  mk (_dirty T) (_origin T) (_pivotPoint T) (_scale T) (_xy T) (_rotation T)
     v (_cachedConcatenatedMatrix T) (_children T) (_parent T).
Definition with_cachedConcatenatedMatrix (v : Matrix.t) (T : t) : t :=
  mk (_dirty T) (_origin T) (_pivotPoint T) (_scale T) (_xy T) (_rotation T)
     (_matrix T) v (_children T) (_parent T).
Definition with_children (v : list ref) (T : t) : t :=
  mk (_dirty T) (_origin T) (_pivotPoint T) (_scale T) (_xy T) (_rotation T)
     (_matrix T) (_cachedConcatenatedMatrix T) v (_parent T).
Definition with_parent (v : option ref) (T : t) : t :=
  mk (_dirty T) (_origin T) (_pivotPoint T) (_scale T) (_xy T) (_rotation T)
     (_matrix T) (_cachedConcatenatedMatrix T) (_children T) v.

(** [this.f = ...] on the object behind [this]. *)
Definition upd (s : store) (this : ref) (f : t -> t) : option store :=
  match s !! this with
  | Some T => Some (<[this := f T]> s)
  | None => None
  end.

(** The [dirty] setter with [val = true]: mark this node, then invoke
    the same setter on every entry of [_children] other than the node
    itself.  The recursion is not bounded by the code. *)
Fixpoint dirty_set_true (fuel : nat) (s : store) (this : ref) : option store :=
  match fuel with
  | O => None
  | S fuel' =>
      match upd s this (with_dirty true) with
      | None => None
      | Some s1 =>
          match s1 !! this with
          | None => None
          | Some T =>
              fold_left
                (fun acc e =>
                   match acc with
                   | None => None
                   | Some s' =>
                       if Nat.eqb e this then Some s'
                       else dirty_set_true fuel' s' e
                   end)
                (_children T) (Some s1)
          end
      end
  end.

(** The [dirty] setter. *)
Definition set_dirty (fuel : nat) (s : store) (this : ref) (val : bool)
  : option store :=
  if val then dirty_set_true fuel s this
  else upd s this (with_dirty false).

Definition set_origin (fuel : nat) (s : store) (this : ref) (val : Point.t)
  : option store :=
  match upd s this (with_origin val) with
  | Some s1 => set_dirty fuel s1 this true
  | None => None
  end.

Definition setOrigin (fuel : nat) (s : store) (this : ref) (x y : number)
  : option store :=
  match upd s this (with_origin (Point.mk x y)) with
  | Some s1 => set_dirty fuel s1 this true
  | None => None
  end.

Definition set_pivotPoint (fuel : nat) (s : store) (this : ref)
  (val : Point.t) : option store :=
  match upd s this (with_pivotPoint val) with
  | Some s1 => set_dirty fuel s1 this true
  | None => None
  end.

Definition set_scaleX (fuel : nat) (s : store) (this : ref) (value : number)
  : option store :=
  match upd s this
          (fun T => with_scale (Point.mk value (Point.y (_scale T))) T) with
  | Some s1 => set_dirty fuel s1 this true
  | None => None
  end.

Definition set_scaleY (fuel : nat) (s : store) (this : ref) (value : number)
  : option store :=
  match upd s this
          (fun T => with_scale (Point.mk (Point.x (_scale T)) value) T) with
  | Some s1 => set_dirty fuel s1 this true
  | None => None
  end.

Definition set_xy (fuel : nat) (s : store) (this : ref) (val : Point.t)
  : option store :=
  match upd s this (with_xy val) with
  | Some s1 => set_dirty fuel s1 this true
  | None => None
  end.

Definition set_x (fuel : nat) (s : store) (this : ref) (value : number)
  : option store :=
  match upd s this (fun T => with_xy (Point.mk value (Point.y (_xy T))) T) with
  | Some s1 => set_dirty fuel s1 this true
  | None => None
  end.

Definition set_y (fuel : nat) (s : store) (this : ref) (value : number)
  : option store :=
  match upd s this (fun T => with_xy (Point.mk (Point.x (_xy T)) value) T) with
  | Some s1 => set_dirty fuel s1 this true
  | None => None
  end.

Definition setXY (fuel : nat) (s : store) (this : ref) (x y : number)
  : option store :=
  match upd s this (fun T => with_xy (Point.setTo (_xy T) x y) T) with
  | Some s1 => set_dirty fuel s1 this true
  | None => None
  end.

(** Modelled from the spec: [Kiwi.Utils.GameMath.degreesToRadians] is
    called by the [rotation] setter and is not among the sources; the
    spec describes the setter as degrees in, radians stored. *)
Definition degreesToRadians (degrees : number) : number := degrees * PI / 180.

Definition set_rotation (fuel : nat) (s : store) (this : ref)
  (value : number) : option store :=
  match upd s this (with_rotation (degreesToRadians value)) with
  | Some s1 => set_dirty fuel s1 this true
  | None => None
  end.

Definition set_rotationRad (fuel : nat) (s : store) (this : ref)
  (value : number) : option store :=
  match upd s this (with_rotation value) with
  | Some s1 => set_dirty fuel s1 this true
  | None => None
  end.


Definition setTransform (fuel : nat) (s : store) (this : ref)
  (x y scaleX scaleY rotation originX originY : number) : option store :=
  match upd s this
          (fun T =>
             with_origin (Point.mk originX originY)
               (with_rotation rotation
                  (with_scale (Point.mk scaleX scaleY)
                     (with_xy (Point.mk x y) T)))) with
  | Some s1 => set_dirty fuel s1 this true
  | None => None
  end.

(** [Camera] and [Transformable] call [transform.setPivotPoint(x, y)]
    and [transform.setScale(x, y)].  The class defines neither method:
    the property read gives [undefined] and the call is a TypeError,
    whatever the arguments and the state. *)
Definition setPivotPoint (fuel : nat) (s : store) (this : ref)
  (x y : number) : option store := None.

Definition setScale (fuel : nat) (s : store) (this : ref) (x y : number)
  : option store := None.


(** The constructor: the field initialisers, then
    [setTransform(0, 0, 1, 1, 0, 0, 0)] and the two fresh matrices.  The
    new object has no children, so its dirty cascade is one call deep. *)
Definition initial : t :=
  mk true (Point.mk 0 0) (Point.mk 0 0) (Point.mk 1 1) (Point.mk 0 0) 0
     Matrix.new Matrix.new [] None.

Definition new (s : store) : option (ref * store) :=
  let this := length s in
  match setTransform 1 (s ++ [initial]) this 0 0 1 1 0 0 0 with
  | None => None
  | Some s1 =>
      match upd s1 this
              (fun T => with_cachedConcatenatedMatrix Matrix.new
                          (with_matrix Matrix.new T)) with
      | None => None
      | Some s2 => Some (this, s2)
      end
  end.

(** The matrix [_performTransformation] stores into [_matrix]. *)
Definition localMatrix (T : t) : Matrix.t :=
  let cos := Rtrigo_def.cos (_rotation T) in
  let sin := Rtrigo_def.sin (_rotation T) in
  Matrix.setTo (_matrix T)
    (cos * Point.x (_scale T))
    ((- sin) * Point.y (_scale T))
    (sin * Point.x (_scale T))
    (cos * Point.y (_scale T))
    (((((- Point.x (_pivotPoint T)) * cos + (- Point.y (_pivotPoint T)) * sin
        + Point.x (_pivotPoint T)) * Point.x (_scale T))
      + ((- Point.x (_origin T)) * Point.x (_scale T) + Point.x (_origin T)))
     + Point.x (_xy T))
    (((((- Point.x (_pivotPoint T)) * (- sin) + (- Point.y (_pivotPoint T)) * cos
        + Point.y (_pivotPoint T)) * Point.y (_scale T))
      + ((- Point.y (_origin T)) * Point.y (_scale T) + Point.y (_origin T)))
     + Point.y (_xy T)).

Definition _performTransformation (T : t) : t :=
  with_matrix (localMatrix T) T.

(** [getConcatenatedMatrix]: the returned matrix and the store after the
    call.  The parent is asked first; the receiver's cache is read again
    after that call returns. *)
Fixpoint getConcatenatedMatrix (fuel : nat) (s : store) (this : ref)
  : option (Matrix.t * store) :=
  match fuel with
  | O => None
  | S fuel' =>
      match s !! this with
      | None => None
      | Some T =>
          if _dirty T then
            let T1 := _performTransformation T in
            let T2 :=
              with_cachedConcatenatedMatrix
                (Matrix.setToMatrix (_cachedConcatenatedMatrix T1) (_matrix T1))
                T1 in
            let s2 := <[this := T2]> s in
            let r3 :=
              match _parent T2 with
              | Some p =>
                  match getConcatenatedMatrix fuel' s2 p with
                  | None => None
                  | Some (pm, s') =>
                      upd s' this
                        (fun T' =>
                           with_cachedConcatenatedMatrix
                             (Matrix.multiplyMatrix pm
                                (_cachedConcatenatedMatrix T')) T')
                  end
              | None => Some s2
              end in
            match r3 with
            | None => None
            | Some s3 =>
                match set_dirty 1 s3 this false with
                | None => None
                | Some s4 =>
                    match s4 !! this with
                    | None => None
                    | Some T4 => Some (_cachedConcatenatedMatrix T4, s4)
                    end
                end
            end
          else Some (_cachedConcatenatedMatrix T, s)
      end
  end.

(** [checkAncestor]: the body is commented out in the source; what is
    left is [return false]. *)
Definition checkAncestor (s : store) (this : ref) (transform : option ref)
  : bool := false.

(** The [parent] setter, with the method it calls as [this.checkAncestor]
    as a parameter. *)
Definition set_parent_with (check : store -> ref -> option ref -> bool)
  (fuel : nat) (s : store) (this : ref) (value : option ref) : option store :=
  let r1 :=
    match value with
    | Some p => upd s p (fun P => with_children (_children P ++ [this]) P)
    | None => Some s
    end in
  match r1 with
  | None => None
  | Some s1 =>
      if negb (check s1 this value) then
        match upd s1 this (with_parent value) with
        | None => None
        | Some s2 => set_dirty fuel s2 this true
        end
      else Some s1
  end.

Definition set_parent : nat -> store -> ref -> option ref -> option store :=
  set_parent_with checkAncestor.

(** The [parent] and [dirty] getters. *)
Definition parent (s : store) (this : ref) : option (option ref) :=
  match s !! this with Some T => Some (_parent T) | None => None end.

Definition dirty (s : store) (this : ref) : option bool :=
  match s !! this with Some T => Some (_dirty T) | None => None end.

Definition children (s : store) (this : ref) : option (list ref) :=
  match s !! this with Some T => Some (_children T) | None => None end.

(** The dirty cascade again, this time returning the receivers of the
    setter calls in call order next to the store. *)
Fixpoint dirty_set_true_calls (fuel : nat) (s : store) (this : ref)
  : option (store * list ref) :=
  match fuel with
  | O => None
  | S fuel' =>
      match upd s this (with_dirty true) with
      | None => None
      | Some s1 =>
          match s1 !! this with
          | None => None
          | Some T =>
              fold_left
                (fun acc e =>
                   match acc with
                   | None => None
                   | Some (s', log) =>
                       if Nat.eqb e this then Some (s', log)
                       else
                         match dirty_set_true_calls fuel' s' e with
                         | None => None
                         | Some (s'', log') => Some (s'', log ++ log')
                         end
                   end)
                (_children T) (Some (s1, [this]))
          end
      end
  end.

End Transform.

(** ** The parts of the JavaScript [Math] object the sources use *)
Module JSMath.
Local Open Scope R_scope.

Definition Rltb (u v : number) : bool := if Rlt_dec u v then true else false.
Definition Rleb (u v : number) : bool := if Rle_dec u v then true else false.

Definition floor (v : number) : number := IZR (Zfloor v).
Definition ceil (v : number) : number := IZR (Zceil v).
Definition min4 (p q r s : number) : number := Rmin (Rmin (Rmin p q) r) s.
Definition max4 (p q r s : number) : number := Rmax (Rmax (Rmax p q) r) s.

(** Modelled from the spec: [Kiwi.Utils.GameMath.clamp(input, max, min)]
    is called by [_calculateBoundaries] and is not among the sources; the
    spec has the bounds clamped to the layer's valid coordinate range. *)
Definition clamp (input max min : number) : number :=
  Rmax min (Rmin max input).

End JSMath.

(** ** Kiwi.Transformable and Kiwi.Camera (the version that extends
       Transformable)

    A Transformable owns one Transform and has a [_dirty] flag of its
    own; its setters forward to the Transform and touch nothing else. *)
Module Camera.
Local Open Scope R_scope.

Record t : Type := mk {
  _dirty : bool;                      (* Transformable._dirty *)
  transform : Transform.ref;          (* Transformable.transform *)
  width : number;
  height : number;
  fitToStage : bool;
  inverted : Matrix.t;                (* _scratchMatrices.inverted *)
  normal : Matrix.t                   (* _scratchMatrices.normal *)
}.

Definition with_dirty (v : bool) (c : t) : t :=
  mk v (transform c) (width c) (height c) (fitToStage c) (inverted c)
     (normal c).
Definition with_size (w h : number) (c : t) : t :=
  mk (_dirty c) (transform c) w h (fitToStage c) (inverted c) (normal c).
Definition with_normal (m : Matrix.t) (c : t) : t :=
  mk (_dirty c) (transform c) (width c) (height c) (fitToStage c)
     (inverted c) m.
Definition with_inverted (m : Matrix.t) (c : t) : t :=
  mk (_dirty c) (transform c) (width c) (height c) (fitToStage c) m
     (normal c).

(** Transformable's [dirty] accessors. *)
Definition dirty (this : t) : bool := _dirty this.
Definition set_dirty (this : t) (val : bool) : t := with_dirty val this.

(** Transformable's setters: each one is a single call on
    [this.transform].  The camera object itself is not assigned to, so
    only the store is returned. *)
Definition set_x (fuel : nat) (s : Transform.store) (this : t) (x : number) :=
  Transform.set_x fuel s (transform this) x.
Definition set_y (fuel : nat) (s : Transform.store) (this : t) (y : number) :=
  Transform.set_y fuel s (transform this) y.
Definition set_xy (fuel : nat) (s : Transform.store) (this : t)
  (pt : Point.t) := Transform.set_xy fuel s (transform this) pt.
Definition setXY (fuel : nat) (s : Transform.store) (this : t)
  (x y : number) := Transform.setXY fuel s (transform this) x y.
Definition set_scaleX (fuel : nat) (s : Transform.store) (this : t)
  (x : number) := Transform.set_scaleX fuel s (transform this) x.
Definition set_scaleY (fuel : nat) (s : Transform.store) (this : t)
  (y : number) := Transform.set_scaleY fuel s (transform this) y.
Definition setScale (fuel : nat) (s : Transform.store) (this : t)
  (w h : number) := Transform.setScale fuel s (transform this) w h.
Definition set_rotation (fuel : nat) (s : Transform.store) (this : t)
  (angle : number) := Transform.set_rotation fuel s (transform this) angle.
Definition set_rotationRad (fuel : nat) (s : Transform.store) (this : t)
  (angle : number) := Transform.set_rotationRad fuel s (transform this) angle.
Definition set_pivotPoint (fuel : nat) (s : Transform.store) (this : t)
  (pt : Point.t) := Transform.set_pivotPoint fuel s (transform this) pt.
Definition setPivotPoint (fuel : nat) (s : Transform.store) (this : t)
  (x y : number) := Transform.setPivotPoint fuel s (transform this) x y.

(** How a call of one of the methods below ends.  [TypeError] and
    [RangeError] are the exceptions; [TypeError] comes with the camera
    and the store as the statements before the throw left them. *)
Inductive completion : Type :=
| Returns (this : t) (s : Transform.store)
| TypeError (this : t) (s : Transform.store)
| RangeError.
Definition set_origin (fuel : nat) (s : Transform.store) (this : t)
  (pt : Point.t) := Transform.set_origin fuel s (transform this) pt.
Definition setOrigin (fuel : nat) (s : Transform.store) (this : t)
  (x y : number) := Transform.setOrigin fuel s (transform this) x y.

(** [_updatedStageSize], also the handler of the stage's resize event:
    width and height are assigned, [setOrigin] runs, and the call of
    [setPivotPoint] throws. *)
Definition _updatedStageSize (fuel : nat) (s : Transform.store) (this : t)
  (width height : number) : completion :=
  let this1 := with_size width height this in
  match Transform.setOrigin fuel s (transform this1)
          ((- width) / 2) ((- height) / 2) with
  | None => RangeError
  | Some s1 =>
      match Transform.setPivotPoint fuel s1 (transform this1)
              ((- width) / 2) ((- height) / 2) with
      | None => TypeError this1 s1
      | Some s2 => Returns this1 s2
      end
  end.

(** The constructor; [game], [id] and [name] play no part in what
    follows and are left out.  The exception of [_updatedStageSize]
    leaves the constructor before the handler is registered with
    [stage.onResize]; the camera of a [TypeError] is the object under
    construction, which the caller of [new] does not get. *)
Definition new (fuel : nat) (s : Transform.store) (x y width height : number)
  : completion :=
  match Transform.new s with
  | None => RangeError
  | Some (tr, s1) =>
      match Transform.setXY fuel s1 tr x y with
      | None => RangeError
      | Some s2 =>
          _updatedStageSize fuel s2
            (mk true tr width height true Matrix.new Matrix.new)
            width height
      end
  end.

Definition clean (fuel : nat) (s : Transform.store) (this : t)
  : option (t * Transform.store) :=
  match Transform.getConcatenatedMatrix fuel s (transform this) with
  | None => None
  | Some (m, s1) =>
      let this1 := with_normal (Matrix.setToMatrix (normal this) m) this in
      let this2 :=
        with_inverted
          (Matrix.invert (Matrix.setToMatrix (inverted this1) (normal this1)))
          this1 in
      Some (set_dirty this2 false, s1)
  end.

(** [transformStageToWorld(pt, copy)]: the returned point (with
    [copy = false] it is [pt] itself after its in-place update), the
    camera and the store after the call. *)
Definition transformStageToWorld (fuel : nat) (s : Transform.store)
  (this : t) (pt : Point.t) (copy : bool)
  : option (Point.t * t * Transform.store) :=
  match (if dirty this then clean fuel s this else Some (this, s)) with
  | None => None
  | Some (this1, s1) =>
      if copy then Some (Matrix.transformPoint (inverted this1) pt, this1, s1)
      else Some (Matrix.transformPointInPlace (inverted this1) pt, this1, s1)
  end.

Definition transformWorldToStage (fuel : nat) (s : Transform.store)
  (this : t) (pt : Point.t) (copy : bool)
  : option (Point.t * t * Transform.store) :=
  match (if dirty this then clean fuel s this else Some (this, s)) with
  | None => None
  | Some (this1, s1) =>
      if copy then Some (Matrix.transformPoint (normal this1) pt, this1, s1)
      else Some (Matrix.transformPointInPlace (normal this1) pt, this1, s1)
  end.

(** [zero()]: the call of [setScale] throws after position and
    rotation have been reset. *)
Definition zero (fuel : nat) (s : Transform.store) (this : t)
  : completion :=
  match Transform.set_x fuel s (transform this) 0 with
  | None => RangeError
  | Some s1 =>
      match Transform.set_y fuel s1 (transform this) 0 with
      | None => RangeError
      | Some s2 =>
          match Transform.set_rotation fuel s2 (transform this) 0 with
          | None => RangeError
          | Some s3 =>
              match Transform.setScale fuel s3 (transform this) 1 1 with
              | None => TypeError this s3
              | Some s4 =>
                  _updatedStageSize fuel s4 this (width this) (height this)
              end
          end
      end
  end.

End Camera.

(** ** Kiwi.Camera as in src/core/Camera.ts

    This version holds its Transform directly, has no dirty flag of its
    own, and writes to the Point objects behind [transform.origin] and
    [transform.pivotPoint] with [Point.setTo], which is an assignment to
    two fields of the Point and no call of a Transform setter. *)
Module CoreCamera.
Local Open Scope R_scope.

Record t : Type := mk {
  transform : Transform.ref;
  width : number;
  height : number;
  _scratchMatrix : option Matrix.t     (* declared, never assigned *)
}.

Definition _updatedStageSize (s : Transform.store) (this : t)
  (width height : number) : option (t * Transform.store) :=
  let this1 := mk (transform this) width height (_scratchMatrix this) in
  match Transform.upd s (transform this1)
          (fun T => Transform.with_origin
                      (Point.setTo (Transform._origin T)
                         (width / 2) (height / 2)) T) with
  | None => None
  | Some s1 =>
      match Transform.upd s1 (transform this1)
              (fun T => Transform.with_pivotPoint
                          (Point.setTo (Transform._pivotPoint T)
                             (width / 2) (height / 2)) T) with
      | None => None
      | Some s2 => Some (this1, s2)
      end
  end.

End CoreCamera.

(** ** Kiwi.Components.Box2 *)
Module Box2.
Local Open Scope R_scope.

(** What [clean] stores.  [invertCopy] divides by the determinant: for
    a matrix with determinant 0 every entry of its result is a quotient
    by zero, an Infinity or a NaN, and [NotFinite] stands for such a
    matrix. *)
Inductive inverse : Type :=
| Finite (m : Matrix.t)
| NotFinite.

Record t : Type := mk {
  owner_transform : Transform.ref;     (* this.owner.transform *)
  _dirty : bool;
  _offset : Point.t;
  _dimensions : Point.t;
  _invertedTransformMatrix : option inverse   (* [None]: not assigned yet *)
}.

Definition new (owner_transform : Transform.ref)
  (offsetX offsetY width height : number) : t :=
  mk owner_transform true (Point.mk offsetX offsetY) (Point.mk width height)
     None.

(** [clean] stores the inverse; it does not reset [_dirty]. *)
Definition clean (fuel : nat) (s : Transform.store) (this : t)
  : option (t * Transform.store) :=
  match Transform.getConcatenatedMatrix fuel s (owner_transform this) with
  | None => None
  | Some (m, s1) =>
      Some (mk (owner_transform this) (_dirty this) (_offset this)
               (_dimensions this)
               (Some (if Matrix.Reqb (Matrix.det m) 0 then NotFinite
                      else Finite (Matrix.invertCopy m))), s1)
  end.

Definition check (fuel : nat) (s : Transform.store) (this : t) (pt : Point.t)
  : option (bool * t * Transform.store) :=
  match (if _dirty this then clean fuel s this else Some (this, s)) with
  | None => None
  | Some (this1, s1) =>
      match _invertedTransformMatrix this1 with
      | None => None
      | Some NotFinite =>
          (* each coordinate of [localPt] is a sum with a term that is an
             Infinity or a NaN, so it is one itself, and such a value is
             not both greater than the offset and less than the
             dimension *)
          Some (false, this1, s1)
      | Some (Finite inv) =>
          let localPt := Matrix.transformPoint inv pt in
          Some (JSMath.Rltb (Point.x (_offset this1)) (Point.x localPt)
                && JSMath.Rltb (Point.x localPt) (Point.x (_dimensions this1))
                && JSMath.Rltb (Point.y (_offset this1)) (Point.y localPt)
                && JSMath.Rltb (Point.y localPt) (Point.y (_dimensions this1)),
                this1, s1)
      end
  end.

End Box2.

(** ** Texture atlas cells and entities (the fields the renderer reads) *)
Module Cell.

(** An entry of [atlas.cells]: a rectangle in atlas pixel space. *)
Record t : Type := mk { x : number; y : number; w : number; h : number }.

(** [cells[i]] for a JavaScript array: [undefined] (here [None]) below
    zero and past the end. *)
Definition at_index {A : Type} (cells : list A) (i : Z) : option A :=
  if (i <? 0)%Z then None else cells !! Z.to_nat i.

End Cell.

Module Entity.

Record t : Type := mk {
  transform : Transform.ref;
  _alpha : number;
  atlas : option (list Cell.t);        (* null until a texture is set *)
  _cellIndex : Z
}.

Definition alpha (this : t) : number := _alpha this.
Definition cellIndex (this : t) : Z := _cellIndex this.

End Entity.

(** ** Kiwi.Renderers.TextureAtlasRenderer: the vertex batch

    [_vertexBuffer.items] is the list of numbers, five per vertex
    (x, y, u, v, alpha). *)
Module TextureAtlasRenderer.
Local Open Scope R_scope.

Definition addToBatch (fuel : nat) (s : Transform.store)
  (items : list number) (entity : Entity.t)
  : option (list number * Transform.store) :=
  if JSMath.Rleb (Entity.alpha entity) 0 then Some (items, s)
  else
    match Transform.getConcatenatedMatrix fuel s (Entity.transform entity) with
    | None => None
    | Some (m, s1) =>
        match Entity.atlas entity with
        | None => None
        | Some cells =>
            match Cell.at_index cells (Entity.cellIndex entity) with
            | None => None
            | Some cell =>
                let _pt1 := Point.mk 0 0 in
                let _pt2 := Point.mk (Cell.w cell) 0 in
                let _pt3 := Point.mk (Cell.w cell) (Cell.h cell) in
                let _pt4 := Point.mk 0 (Cell.h cell) in
                let _pt1 := Matrix.transformPointInPlace m _pt1 in
                let _pt2 := Matrix.transformPointInPlace m _pt2 in
                let _pt3 := Matrix.transformPointInPlace m _pt3 in
                let _pt4 := Matrix.transformPointInPlace m _pt4 in
                Some (items ++
                      [ Point.x _pt1; Point.y _pt1; Cell.x cell; Cell.y cell;
                        Entity.alpha entity;
                        Point.x _pt2; Point.y _pt2; Cell.x cell + Cell.w cell;
                        Cell.y cell; Entity.alpha entity;
                        Point.x _pt3; Point.y _pt3; Cell.x cell + Cell.w cell;
                        Cell.y cell + Cell.h cell; Entity.alpha entity;
                        Point.x _pt4; Point.y _pt4; Cell.x cell;
                        Cell.y cell + Cell.h cell; Entity.alpha entity ],
                      s1)
            end
        end
    end.

Definition concatBatch (items vertexItems : list number) : list number :=
  items ++ vertexItems.

End TextureAtlasRenderer.

(** ** TileMapLayerDynamicOrthogonal

    The base class [TileMapLayer] and the class [TileType] are not among
    the sources; the record has the fields of them that the two methods
    below read or write, with the names the methods use. *)
Module TileType.

Record t : Type := mk { cellIndex : Z; offset : Point.t }.

End TileType.

Module TileMapLayerDynamicOrthogonal.
Local Open Scope R_scope.

(** One half of a key of [_data2].  The constructor computes the halves
    with a division by the layer width, which is 0 by default, and the
    key is the text of the two values: a number, [Infinity] or [NaN]. *)
Inductive coord : Type :=
| Num (v : number)
| Infinity
| NaN.

(** Equality of the texts. *)
Definition coord_eqb (c1 c2 : coord) : bool :=
  match c1, c2 with
  | Num u, Num v => Matrix.Reqb u v
  | Infinity, Infinity => true
  | NaN, NaN => true
  | _, _ => false
  end.

Record t : Type := mk {
  transform : Transform.ref;
  alpha : number;
  tileWidth : number;
  tileHeight : number;
  width : number;                      (* in tiles *)
  height : number;                     (* in tiles *)
  offset : Point.t;
  _data2 : list (coord * coord * Z);   (* key "x|y" -> tile type index;
                                          the first match is the value *)
  tileTypes : list TileType.t;         (* tilemap.tileTypes *)
  cells : list Cell.t;                 (* atlas.cells *)
  _corner1 : Point.t;
  _corner2 : Point.t;
  _corner3 : Point.t;
  _corner4 : Point.t;
  _startX : number;
  _startY : number;
  _maxX : number;
  _maxY : number;
  _temptype : option TileType.t
}.

Definition with_corners (c1 c2 c3 c4 : Point.t) (l : t) : t :=
  mk (transform l) (alpha l) (tileWidth l) (tileHeight l) (width l)
     (height l) (offset l) (_data2 l) (tileTypes l) (cells l)
     c1 c2 c3 c4 (_startX l) (_startY l) (_maxX l) (_maxY l) (_temptype l).
Definition with_bounds (sx sy mx my : number) (l : t) : t :=
  mk (transform l) (alpha l) (tileWidth l) (tileHeight l) (width l)
     (height l) (offset l) (_data2 l) (tileTypes l) (cells l)
     (_corner1 l) (_corner2 l) (_corner3 l) (_corner4 l) sx sy mx my
     (_temptype l).
Definition with_temptype (v : option TileType.t) (l : t) : t :=
  mk (transform l) (alpha l) (tileWidth l) (tileHeight l) (width l)
     (height l) (offset l) (_data2 l) (tileTypes l) (cells l)
     (_corner1 l) (_corner2 l) (_corner3 l) (_corner4 l)
     (_startX l) (_startY l) (_maxX l) (_maxY l) v.

(** The constructor's [forEach]: entry [i] of [data] goes to the key made
    of [xM = i - floor(i / w) * w + x] and [yM = floor(i / w) + y].
    With [w = 0] the quotient [i / w] is [NaN] for [i = 0] and
    [Infinity] for the other indexes, its product with 0 is [NaN], and
    so is [xM]; adding a number to [yM] leaves it what it is.  An
    assignment to a key that is there already replaces the value: here
    the new entry goes in front and hides the old one. *)
Definition data2_of (data : list Z) (w x y : number)
  : list (coord * coord * Z) :=
  fold_left
    (fun acc ie =>
       let i := INR (fst ie) in
       if Matrix.Reqb w 0 then
         (NaN, if Nat.eqb (fst ie) 0 then NaN else Infinity, snd ie) :: acc
       else
         let yM := JSMath.floor (i / w) in
         let xM := i - yM * w in
         let yM := yM + y in
         let xM := xM + x in
         (Num xM, Num yM, snd ie) :: acc)
    (combine (seq 0 (length data)) data) [].

(** [this._data2[`${x}|${y}`]] for numbers [x] and [y]. *)
Definition data2_get (d : list (coord * coord * Z)) (x y : number)
  : option Z :=
  match
    find (fun e => coord_eqb (fst (fst e)) (Num x)
                   && coord_eqb (snd (fst e)) (Num y))
         d
  with
  | Some e => Some (snd e)
  | None => None
  end.

(** [tilemap.tileTypes[this._data2[key]]]: [undefined] ([None]) when the
    key is absent or the index has no tile type. *)
Definition getTileFromXY (this : t) (x y : number) : option TileType.t :=
  match data2_get (_data2 this) x y with
  | Some e => Cell.at_index (tileTypes this) e
  | None => None
  end.

(** [_calculateBoundaries(camera, matrix)], with [game.stage.width] and
    [game.stage.height] as arguments. *)
Definition _calculateBoundaries (fuel : nat) (s : Transform.store)
  (this : t) (stage_width stage_height : number)
  (camera : Camera.t) (matrix : Matrix.t)
  : option (t * Camera.t * Transform.store) :=
  let c1 := Point.setTo (_corner1 this) 0 0 in
  let c2 := Point.setTo (_corner2 this) stage_width 0 in
  let c3 := Point.setTo (_corner3 this) stage_width stage_height in
  let c4 := Point.setTo (_corner4 this) 0 stage_height in
  match Camera.transformStageToWorld fuel s camera c1 false with
  | None => None
  | Some (c1, camera, s) =>
  match Camera.transformStageToWorld fuel s camera c2 false with
  | None => None
  | Some (c2, camera, s) =>
  match Camera.transformStageToWorld fuel s camera c3 false with
  | None => None
  | Some (c3, camera, s) =>
  match Camera.transformStageToWorld fuel s camera c4 false with
  | None => None
  | Some (c4, camera, s) =>
      let m := Matrix.clone matrix in
      let m := Matrix.invert m in
      let c1 := Matrix.transformPointInPlace m c1 in
      let c2 := Matrix.transformPointInPlace m c2 in
      let c3 := Matrix.transformPointInPlace m c3 in
      let c4 := Matrix.transformPointInPlace m c4 in
      let startX :=
        JSMath.min4 (Point.x c1) (Point.x c2) (Point.x c3) (Point.x c4) in
      let startY :=
        JSMath.min4 (Point.y c1) (Point.y c2) (Point.y c3) (Point.y c4) in
      let maxX :=
        JSMath.max4 (Point.x c1) (Point.x c2) (Point.x c3) (Point.x c4) in
      let maxY :=
        JSMath.max4 (Point.y c1) (Point.y c2) (Point.y c3) (Point.y c4) in
      let startX := startX / tileWidth this in
      let startY := startY / tileHeight this in
      let maxX := maxX / tileWidth this in
      let maxY := maxY / tileHeight this in
      let startX := JSMath.floor startX in
      let startY := JSMath.floor startY in
      let maxX := JSMath.ceil maxX in
      let maxY := JSMath.ceil maxY in
      let startX :=
        JSMath.clamp startX (width this + Point.x (offset this))
          (Point.x (offset this)) in
      let startY :=
        JSMath.clamp startY (height this + Point.y (offset this))
          (Point.y (offset this)) in
      let maxX :=
        JSMath.clamp maxX (width this + Point.x (offset this))
          (Point.x (offset this)) in
      let maxY :=
        JSMath.clamp maxY (height this + Point.y (offset this))
          (Point.y (offset this)) in
      Some (with_bounds startX startY maxX maxY (with_corners c1 c2 c3 c4 this),
            camera, s)
  end end end end.

(** The twenty numbers [renderGL] pushes for one tile. *)
Definition tileVertices (c1 c2 c3 c4 : Point.t) (cell : Cell.t)
  (alpha : number) : list number :=
  [ Point.x c1; Point.y c1; Cell.x cell; Cell.y cell; alpha;
    Point.x c2; Point.y c2; Cell.x cell + Cell.w cell - 1; Cell.y cell; alpha;
    Point.x c3; Point.y c3; Cell.x cell + Cell.w cell - 1;
    Cell.y cell + Cell.h cell - 1; alpha;
    Point.x c4; Point.y c4; Cell.x cell; Cell.y cell + Cell.h cell - 1; alpha ].

(** The body of the inner loop of [renderGL] at tile coordinate
    [(x, y)]: the layer and [vertexItems] after it.  Reading [cellIndex]
    of an absent tile type, or a field of an absent cell, is a TypeError. *)
Definition renderTile (this : t) (m : Matrix.t) (x y : number)
  (vertexItems : list number) : option (t * list number) :=
  let this := with_temptype (getTileFromXY this x y) this in
  match _temptype this with
  | None => None
  | Some temptype =>
      if (TileType.cellIndex temptype =? -1)%Z then Some (this, vertexItems)
      else
        match Cell.at_index (cells this) (TileType.cellIndex temptype) with
        | None => None
        | Some cell =>
            let tx := x * tileWidth this + Point.x (TileType.offset temptype) in
            let ty := y * tileHeight this + Point.y (TileType.offset temptype) in
            let c1 := Point.setTo (_corner1 this) tx ty in
            let c2 := Point.setTo (_corner2 this) (tx + Cell.w cell) ty in
            let c3 :=
              Point.setTo (_corner3 this) (tx + Cell.w cell) (ty + Cell.h cell) in
            let c4 := Point.setTo (_corner4 this) tx (ty + Cell.h cell) in
            let c1 := Matrix.transformPointInPlace m c1 in
            let c2 := Matrix.transformPointInPlace m c2 in
            let c3 := Matrix.transformPointInPlace m c3 in
            let c4 := Matrix.transformPointInPlace m c4 in
            Some (with_corners c1 c2 c3 c4 this,
                  vertexItems ++ tileVertices c1 c2 c3 c4 cell (alpha this))
        end
  end.

(** [for (var x = ...; x < this._maxX; x++)]; the loop counter is a
    number, so the loop carries fuel. *)
Fixpoint renderRow (fuel : nat) (this : t) (m : Matrix.t) (x y : number)
  (vertexItems : list number) : option (t * list number) :=
  match fuel with
  | O => None
  | S fuel' =>
      if JSMath.Rltb x (_maxX this) then
        match renderTile this m x y vertexItems with
        | None => None
        | Some (this1, vertexItems1) =>
            renderRow fuel' this1 m (x + 1) y vertexItems1
        end
      else Some (this, vertexItems)
  end.

(** [for (var y = ...; y < this._maxY; y++)] *)
Fixpoint renderRows (fuel : nat) (this : t) (m : Matrix.t) (y : number)
  (vertexItems : list number) : option (t * list number) :=
  match fuel with
  | O => None
  | S fuel' =>
      if JSMath.Rltb y (_maxY this) then
        match renderRow fuel this m (_startX this) y vertexItems with
        | None => None
        | Some (this1, vertexItems1) =>
            renderRows fuel' this1 m (y + 1) vertexItems1
        end
      else Some (this, vertexItems)
  end.

(** [renderGL(gl, camera, params)]: [items] is the renderer's
    [_vertexBuffer.items]. *)
Definition renderGL (fuel : nat) (s : Transform.store) (this : t)
  (stage_width stage_height : number) (camera : Camera.t)
  (items : list number)
  : option (list number * t * Camera.t * Transform.store) :=
  let vertexItems := [] in
  match Transform.getConcatenatedMatrix fuel s (transform this) with
  | None => None
  | Some (m, s1) =>
      match _calculateBoundaries fuel s1 this stage_width stage_height
              camera m with
      | None => None
      | Some (this1, camera1, s2) =>
          match renderRows fuel this1 m (_startY this1) vertexItems with
          | None => None
          | Some (this2, vertexItems1) =>
              Some (TextureAtlasRenderer.concatBatch items vertexItems1,
                    this2, camera1, s2)
          end
      end
  end.

End TileMapLayerDynamicOrthogonal.

(** ** TextureAtlasRenderer: the index buffer and the draw call *)
Module TextureAtlasRendererBuffers.
Local Open Scope R_scope.

Definition _maxItems : nat := 1000.

(** [_generateIndices(numQuads)]: six indices are pushed per quad. *)
Definition _generateIndices (numQuads : nat) : list nat :=
  fold_left
    (fun quads i =>
       quads ++ [i * 4 + 0; i * 4 + 1; i * 4 + 2; i * 4 + 0; i * 4 + 2;
                 i * 4 + 3]%nat)
    (seq 0 numQuads) [].

(** The data the constructor hands to the index buffer:
    [this._generateIndices(this._maxItems * vertsPerQuad)] with
    [vertsPerQuad = 6]. *)
Definition constructorIndices : list nat := _generateIndices (_maxItems * 6).

(** The element count [draw] passes to [gl.drawElements]:
    [(this._vertexBuffer.items.length / 20) * 6]. *)
Definition drawElementCount (items : list number) : number :=
  INR (length items) / 20 * 6.

End TextureAtlasRendererBuffers.

(** ** Kiwi.Entity: alpha, cell index and tags

    The record extends the fields the renderer reads ([Entity.t]) with
    the ones the [cellIndex] setter and the tag methods write. *)
Module EntityObject.
Local Open Scope R_scope.

Record t : Type := mk {
  base : Entity.t;
  width : number;
  height : number;
  _tags : list string
}.

(** The [alpha] setter. *)
Definition set_alpha (this : Entity.t) (value : number) : Entity.t :=
  let value := if JSMath.Rleb value 0 then 0 else value in
  let value := if JSMath.Rltb 1 value then 1 else value in
  Entity.mk (Entity.transform this) value (Entity.atlas this)
    (Entity._cellIndex this).

(** The [cellIndex] setter: the entity after the call and whether
    [Kiwi.Log.error] was called. *)
Definition set_cellIndex (this : t) (val : Z) : t * bool :=
  match Entity.atlas (base this) with
  | Some cells =>
      match Cell.at_index cells val with
      | Some cell =>
          (mk (Entity.mk (Entity.transform (base this))
                 (Entity._alpha (base this)) (Entity.atlas (base this)) val)
              (Cell.w cell) (Cell.h cell) (_tags this), false)
      | None => (this, true)
      end
  | None => (this, false)
  end.

(** [Array.prototype.indexOf] with strict equality: the first index, or
    -1. *)
Fixpoint indexOf (l : list string) (x : string) : Z :=
  match l with
  | [] => -1
  | y :: l' =>
      if String.eqb y x then 0
      else let r := indexOf l' x in if (r =? -1)%Z then -1 else (r + 1)%Z
  end.

(** [splice(index, 1)] for an index inside the array. *)
Fixpoint splice1 (l : list string) (index : nat) : list string :=
  match l, index with
  | [], _ => []
  | _ :: l', O => l'
  | y :: l', S n => y :: splice1 l' n
  end.

Definition addTag_tags (tags args : list string) : list string :=
  fold_left
    (fun tags arg => if (indexOf tags arg =? -1)%Z then tags ++ [arg] else tags)
    args tags.

Definition removeTag_tags (tags args : list string) : list string :=
  fold_left
    (fun tags arg =>
       let index := indexOf tags arg in
       if negb (index =? -1)%Z then splice1 tags (Z.to_nat index) else tags)
    args tags.

(** [hasTag]: [while (len--)] walks the array from its last entry to its
    first. *)
Fixpoint hasTag_loop (tags : list string) (len : nat) (tag : string) : bool :=
  match len with
  | O => false
  | S len' =>
      match tags !! len' with
      | Some y => if String.eqb y tag then true else hasTag_loop tags len' tag
      | None => hasTag_loop tags len' tag
      end
  end.

Definition addTag (this : t) (args : list string) : t :=
  mk (base this) (width this) (height this) (addTag_tags (_tags this) args).

Definition removeTag (this : t) (args : list string) : t :=
  mk (base this) (width this) (height this) (removeTag_tags (_tags this) args).

Definition hasTag (this : t) (tag : string) : bool :=
  hasTag_loop (_tags this) (length (_tags this)) tag.

End EntityObject.

(** ** TileObject and TileMapObjectLayerOrthogonal

    [_data] holds TileObjects here; [tileTypes] is [tilemap.tileTypes]. *)
Module TileObject.

Record t : Type := mk { _tileType : Z }.

Definition tileType (this : t) : Z := _tileType this.

End TileObject.

Module TileMapObjectLayerOrthogonal.

Record t : Type := mk {
  _data : list TileObject.t;
  tileTypes : list TileType.t
}.

(** The loop of [countTiles(type)]; [type = None] is a call without
    argument. *)
Fixpoint countTiles_loop (data : list TileObject.t) (type : option Z)
  (cnt : nat) : nat :=
  match data with
  | [] => cnt
  | o :: rest =>
      countTiles_loop rest type
        match type with
        | None =>
            if negb (TileObject.tileType o =? 0)%Z then S cnt else cnt
        | Some ty =>
            if (ty =? TileObject.tileType o)%Z then S cnt else cnt
        end
  end.

Definition countTiles (this : t) (type : option Z) : nat :=
  countTiles_loop (_data this) type 0.

(** The loop of [getIndexesByType(type)], from index [i] on. *)
Fixpoint getIndexesByType_loop (data : list TileObject.t) (type : Z)
  (i : nat) (tiles : list nat) : list nat :=
  match data with
  | [] => tiles
  | o :: rest =>
      getIndexesByType_loop rest type (S i)
        (if (TileObject.tileType o =? type)%Z then tiles ++ [i] else tiles)
  end.

Definition getIndexesByType (this : t) (type : Z) : list nat :=
  getIndexesByType_loop (_data this) type 0 [].

(** [getTileFromIndex(index)]: [None] is the TypeError of reading
    [tileType] of an absent entry; [Some None] is [null] or an absent
    tile type. *)
Definition getTileFromIndex (this : t) (index : Z)
  : option (option TileType.t) :=
  if negb (index =? -1)%Z then
    match Cell.at_index (_data this) index with
    | Some o => Some (Cell.at_index (tileTypes this) (TileObject.tileType o))
    | None => None
    end
  else Some None.

End TileMapObjectLayerOrthogonal.

(** ** Vocabulary for stating properties of a store of Transforms *)
Module TransformSpec.
Import Transform.

(** Two stores hold the same objects, related pointwise by [R]. *)
Definition rel_store (R : t -> t -> Prop) (s s' : store) : Prop :=
  length s = length s' /\
  forall r T T', s !! r = Some T -> s' !! r = Some T' -> R T T'.

(** Same position, scale, rotation, origin, pivot, children and parent;
    the dirty flag and the two matrices may differ. *)
Definition same_geom (T T' : t) : Prop :=
  _origin T = _origin T' /\ _pivotPoint T = _pivotPoint T' /\
  _scale T = _scale T' /\ _xy T = _xy T' /\ _rotation T = _rotation T' /\
  _children T = _children T' /\ _parent T = _parent T'.

Definition geom_store : store -> store -> Prop := rel_store same_geom.

(** Same children and parent. *)
Definition same_shape (T T' : t) : Prop :=
  _children T = _children T' /\ _parent T = _parent T'.

Definition shape_store : store -> store -> Prop := rel_store same_shape.

(** [Reach s r u]: [u] is [r] or is reached from [r] through entries of
    [_children] arrays; these are the nodes a dirty cascade from [r]
    calls the setter on. *)
Inductive Reach (s : store) : ref -> ref -> Prop :=
| Reach_refl r : Reach s r r
| Reach_step r T e u :
    s !! r = Some T -> e ∈ _children T -> Reach s e u -> Reach s r u.

(** [Anc s u k]: [k] is [u] or an ancestor of [u] along [_parent]; read
    the other way round, [u] is [k] or a descendant of [k]. *)
Inductive Anc (s : store) : ref -> ref -> Prop :=
| Anc_refl u : Anc s u u
| Anc_step u U p k :
    s !! u = Some U -> _parent U = Some p -> Anc s p k -> Anc s u k.

(** [World s r M]: [M] is the product of the local matrices, computed
    from the current field values, of the root-most ancestor of [r]
    down to [r]. None of the cached matrices is consulted. *)
Inductive World (s : store) : ref -> Matrix.t -> Prop :=
| World_root r T :
    s !! r = Some T -> _parent T = None -> World s r (localMatrix T)
| World_child r T p PM :
    s !! r = Some T -> _parent T = Some p -> World s p PM ->
    World s r (Matrix.multiplyMatrix PM (localMatrix T)).

(** Every parent has its child in [_children], and every entry of a
    [_children] array and every parent is an object of the store. *)
Definition closed (s : store) : Prop :=
  forall r T, s !! r = Some T ->
    (forall p, _parent T = Some p ->
               exists P, s !! p = Some P /\ r ∈ _children P) /\
    (forall e, e ∈ _children T -> is_Some (s !! e)).

(** No cycles: [rk] decreases along [_children] entries other than the
    node itself, [dp] decreases from a node to its parent. *)
Definition ranked (rk dp : ref -> nat) (s : store) : Prop :=
  (forall r T e, s !! r = Some T -> e ∈ _children T -> e <> r ->
                 rk e < rk r) /\
  (forall r T p, s !! r = Some T -> _parent T = Some p -> dp p < dp r).

(** A node that is not dirty has an up-to-date cache and a parent that
    is not dirty either. *)
Definition cache_ok (s : store) : Prop :=
  forall r T, s !! r = Some T -> _dirty T = false ->
    World s r (_cachedConcatenatedMatrix T) /\
    (forall p, _parent T = Some p ->
               exists P, s !! p = Some P /\ _dirty P = false).

(** The invariant of a store whose parent/child links form a forest of
    depth below [N]. *)
Definition coherent (N : nat) (s : store) : Prop :=
  exists rk dp : ref -> nat,
    (forall r, rk r < N /\ dp r < N) /\
    closed s /\ ranked rk dp s /\ cache_ok s.

(** [casc s r s']: [s'] is [s] with the dirty flag set on some of the
    nodes reached from [r], and nothing else changed. *)
Definition casc (s : store) (r : ref) (s' : store) : Prop :=
  length s = length s' /\
  forall u U, s !! u = Some U ->
    s' !! u = Some U \/ (s' !! u = Some (with_dirty true U) /\ Reach s r u).

Definition dirty_in (s : store) (u : ref) : Prop :=
  exists U, s !! u = Some U /\ _dirty U = true.

(** Nothing changed, or only the dirty flag, and that to [true]. *)
Definition flag_up (T T' : t) : Prop := T' = T \/ T' = with_dirty true T.





(** [r] is a leaf nobody refers to: no children, no parent, in nobody's
    children array. *)
Definition detached (s : store) (r : ref) : Prop :=
  exists T, s !! r = Some T /\ _children T = [] /\ _parent T = None /\
            forall u U, s !! u = Some U -> r ∉ _children U.

(** [chain n]: the store after constructing [n + 1] Transforms and
    assigning each one but the first the one before it as parent:
    [t0 <- t1 <- ... <- tn]. *)
Fixpoint chain (n : nat) : option store :=
  match n with
  | O => match new [] with Some (_, s) => Some s | None => None end
  | S n' =>
      match chain n' with
      | None => None
      | Some s =>
          match new s with
          | None => None
          | Some (r, s1) => set_parent 1 s1 r (Some (r - 1))
          end
      end
  end.


(** The chain of three, after a read of the concatenated matrix of its
    last node has filled all three caches. *)
Definition chain3 : store :=
  match chain 2 with Some s => s | None => [] end.

Definition chain3_read : store :=
  match getConcatenatedMatrix 3 chain3 2 with
  | Some (_, s) => s
  | None => []
  end.

End TransformSpec.

(** ** A camera scenario: an 800 x 600 camera at (0, 0)

    The objects are given by their fields: origin and pivot at minus
    half the size, as [_updatedStageSize] asks for them. *)
Module CameraScenario.
Local Open Scope R_scope.

Definition I : Matrix.t := Matrix.mk 1 0 0 1 0 0.

(** A camera that has not answered a conversion yet, and its
    Transform. *)
Definition cam0 : Camera.t :=
  Camera.mk true 0%nat 800 600 true Matrix.new Matrix.new.

Definition T0 : Transform.t :=
  Transform.mk true (Point.mk (-800 / 2) (-600 / 2))
    (Point.mk (-800 / 2) (-600 / 2)) (Point.mk 1 1) (Point.mk 0 0) 0
    Matrix.new Matrix.new [] None.

(** After the first stage/world conversion: both flags cleared, the
    matrices computed. *)
Definition cam1 : Camera.t := Camera.mk false 0%nat 800 600 true I I.

Definition T1 : Transform.t :=
  Transform.mk false (Point.mk (-800 / 2) (-600 / 2))
    (Point.mk (-800 / 2) (-600 / 2)) (Point.mk 1 1) (Point.mk 0 0) 0
    I I [] None.

(** After [camera.x = 10]: the Transform is dirty, the camera object is
    the same as before. *)
Definition T2 : Transform.t :=
  Transform.mk true (Point.mk (-800 / 2) (-600 / 2))
    (Point.mk (-800 / 2) (-600 / 2)) (Point.mk 1 1) (Point.mk 10 0) 0
    I I [] None.

End CameraScenario.

(** ** Vocabulary for the vertex batch *)
Module BatchSpec.
Local Open Scope R_scope.

(** [q] is one quad of the batch (four vertices of five numbers, in the
    order top left, top right, bottom right, bottom left) whose texture
    coordinates are [u0], [v0] on the near edges and [u1], [v1] on the
    far edges. *)
Definition quad_uv (q : list number) (u0 v0 u1 v1 : number) : Prop :=
  exists x1 y1 x2 y2 x3 y3 x4 y4 a : number,
    q = [ x1; y1; u0; v0; a;
          x2; y2; u1; v0; a;
          x3; y3; u1; v1; a;
          x4; y4; u0; v1; a ].

(** Far edges one unit inside the cell. *)
Definition inset_quad (cells : list Cell.t) (q : list number) : Prop :=
  exists cell, cell ∈ cells /\
    quad_uv q (Cell.x cell) (Cell.y cell)
      (Cell.x cell + Cell.w cell - 1) (Cell.y cell + Cell.h cell - 1).

(** Far edges on the cell's own far edges. *)
Definition full_quad (cells : list Cell.t) (q : list number) : Prop :=
  exists cell, cell ∈ cells /\
    quad_uv q (Cell.x cell) (Cell.y cell)
      (Cell.x cell + Cell.w cell) (Cell.y cell + Cell.h cell).

(** A one-tile layer on a 32 x 32 stage, with its camera: the store
    holds the camera's Transform at 0 and the layer's at 1. *)
Definition cell0 : Cell.t := Cell.mk 0 0 32 32.

Definition tinyCamera : Camera.t :=
  Camera.mk true 0%nat 32 32 true Matrix.new Matrix.new.

Definition tinyStore : Transform.store :=
  [Transform.with_pivotPoint (Point.mk (- 32 / 2) (- 32 / 2))
     (Transform.with_origin (Point.mk (- 32 / 2) (- 32 / 2)) Transform.initial);
   Transform.initial].

Definition tinyLayer : TileMapLayerDynamicOrthogonal.t :=
  TileMapLayerDynamicOrthogonal.mk 1%nat 1 32 32 1 1 (Point.mk 0 0)
    [(TileMapLayerDynamicOrthogonal.Num 0, TileMapLayerDynamicOrthogonal.Num 0,
      0%Z)]
    [TileType.mk 0 (Point.mk 0 0)] [cell0]
    (Point.mk 0 0) (Point.mk 0 0) (Point.mk 0 0) (Point.mk 0 0) 0 0 0 0 None.

(** The store after the layer's matrix has been read, and the camera
    and the store after the camera's first conversion. *)
Definition tinyStore1 : Transform.store :=
  [Transform.with_pivotPoint (Point.mk (- 32 / 2) (- 32 / 2))
     (Transform.with_origin (Point.mk (- 32 / 2) (- 32 / 2)) Transform.initial);
   Transform.with_dirty false
     (Transform.with_cachedConcatenatedMatrix (Matrix.mk 1 0 0 1 0 0)
        (Transform.with_matrix (Matrix.mk 1 0 0 1 0 0) Transform.initial))].

Definition tinyCamera1 : Camera.t :=
  Camera.mk false 0%nat 32 32 true (Matrix.mk 1 0 0 1 0 0)
    (Matrix.mk 1 0 0 1 0 0).

Definition tinyStore2 : Transform.store :=
  [Transform.with_dirty false
     (Transform.with_cachedConcatenatedMatrix (Matrix.mk 1 0 0 1 0 0)
        (Transform.with_matrix (Matrix.mk 1 0 0 1 0 0)
           (Transform.with_pivotPoint (Point.mk (- 32 / 2) (- 32 / 2))
              (Transform.with_origin (Point.mk (- 32 / 2) (- 32 / 2))
                 Transform.initial))));
   Transform.with_dirty false
     (Transform.with_cachedConcatenatedMatrix (Matrix.mk 1 0 0 1 0 0)
        (Transform.with_matrix (Matrix.mk 1 0 0 1 0 0) Transform.initial))].

(** An entity showing the same cell. *)
Definition sprite : Entity.t := Entity.mk 0%nat 1 (Some [cell0]) 0.

End BatchSpec.

(** ** Vocabulary for further properties of Transform *)
Module GeometrySpec.
Import Transform.
Local Open Scope R_scope.

(** Rotation about [pivot] by the angle the code's [cos]/[sin] entries
    stand for, scaling about [origin], translation. *)
Definition rotateAbout (pivot : Point.t) (angle : number) (p : Point.t)
  : Point.t :=
  Point.mk
    (Rtrigo_def.cos angle * (Point.x p - Point.x pivot)
     + Rtrigo_def.sin angle * (Point.y p - Point.y pivot) + Point.x pivot)
    (- Rtrigo_def.sin angle * (Point.x p - Point.x pivot)
     + Rtrigo_def.cos angle * (Point.y p - Point.y pivot) + Point.y pivot).

Definition scaleAbout (origin scale : Point.t) (p : Point.t) : Point.t :=
  Point.mk (Point.x scale * (Point.x p - Point.x origin) + Point.x origin)
           (Point.y scale * (Point.y p - Point.y origin) + Point.y origin).

Definition translateBy (d : Point.t) (p : Point.t) : Point.t :=
  Point.mk (Point.x p + Point.x d) (Point.y p + Point.y d).




(** Only the dirty flag and the two matrices of a node differ, and the
    flag is not raised. *)
Definition read_change (T T' : t) : Prop :=
  TransformSpec.same_geom T T' /\ (_dirty T' = true -> _dirty T = true).

(** Two nodes that have each other in their children arrays. *)
Definition twoCycle : store :=
  [with_children [1%nat] initial; with_children [0%nat] initial].

End GeometrySpec.

(** ** Vocabulary for entities, tile layers and the index buffer *)
Module ObjectSpec.
Local Open Scope R_scope.

(** The cell index of the entity names a cell of its atlas, and the
    entity has the width and height of that cell. *)
Definition sized_by_cell (e : EntityObject.t) : Prop :=
  exists cells cell,
    Entity.atlas (EntityObject.base e) = Some cells /\
    Cell.at_index cells (Entity._cellIndex (EntityObject.base e)) = Some cell /\
    EntityObject.width e = Cell.w cell /\
    EntityObject.height e = Cell.h cell.

(** The six indices of quad [k]: two triangles over the vertices
    [4k .. 4k + 3]. *)
Definition quadIndices (k : nat) : list nat :=
  [4 * k; 4 * k + 1; 4 * k + 2; 4 * k; 4 * k + 2; 4 * k + 3]%nat.

(** The key under which the constructor of the dynamic layer files
    entry [i] of its [data] argument. *)
Definition keyX (w x : number) (i : nat) : number :=
  INR i - JSMath.floor (INR i / w) * w + x.
Definition keyY (w y : number) (i : nat) : number :=
  JSMath.floor (INR i / w) + y.

(** An entity as the [Entity] constructor leaves its tags, and a small
    atlas for the examples. *)
Definition twoCells : list Cell.t :=
  [Cell.mk 0 0 32 32; Cell.mk 32 0 16 8].

Definition plainEntity : EntityObject.t :=
  EntityObject.mk (Entity.mk 0%nat 1 (Some twoCells) 0%Z) 32 32 [].

(** A layer two tiles wide, as its constructor leaves the tile table
    for the data [0, 1, 1, 0] at tile offset (0, 0). *)
Definition gridLayer : TileMapLayerDynamicOrthogonal.t :=
  TileMapLayerDynamicOrthogonal.mk 0%nat 1 32 32 2 2 (Point.mk 0 0)
    (TileMapLayerDynamicOrthogonal.data2_of [0; 1; 1; 0]%Z 2 0 0)
    [TileType.mk (-1) (Point.mk 0 0); TileType.mk 0 (Point.mk 0 0)]
    [Cell.mk 0 0 32 32]
    (Point.mk 0 0) (Point.mk 0 0) (Point.mk 0 0) (Point.mk 0 0) 0 0 0 0 None.

End ObjectSpec.

(** * Properties *)

(** ** Facts about Matrix *)
Module MatrixFacts.
Import Matrix.
Local Open Scope R_scope.

Lemma clone_id m : clone m = m.
Proof. now destruct m. Qed.

Lemma setToMatrix_eq this m : setToMatrix this m = m.
Proof. now destruct m. Qed.

Lemma mk_ext a1 b1 c1 d1 x1 y1 a2 b2 c2 d2 x2 y2 :
  a1 = a2 -> b1 = b2 -> c1 = c2 -> d1 = d2 -> x1 = x2 -> y1 = y2 ->
  mk a1 b1 c1 d1 x1 y1 = mk a2 b2 c2 d2 x2 y2.
Proof. now intros -> -> -> -> -> ->. Qed.

Lemma multiplyMatrix_new_l m : multiplyMatrix new m = m.
Proof. destruct m; unfold multiplyMatrix, new; simpl; apply mk_ext; lra. Qed.

Lemma multiplyMatrix_new_r m : multiplyMatrix m new = m.
Proof. destruct m; unfold multiplyMatrix, new; simpl; apply mk_ext; lra. Qed.

Lemma multiplyMatrix_assoc m1 m2 m3 :
  multiplyMatrix (multiplyMatrix m1 m2) m3 =
  multiplyMatrix m1 (multiplyMatrix m2 m3).
Proof.
  destruct m1, m2, m3; unfold multiplyMatrix; simpl; apply mk_ext; ring.
Qed.

(** In exact arithmetic [invert] is a two-sided inverse wherever the
    determinant is not zero. *)
Lemma multiplyMatrix_invertCopy_exact m :
  det m <> 0 -> multiplyMatrix m (invertCopy m) = identity.
Proof.
  destruct m as [a0 b0 c0 d0 x0 y0]; unfold det, invertCopy, invert, clone,
    multiplyMatrix, identity, new; simpl; intros Hn.
  apply mk_ext; field; exact Hn.
Qed.

Lemma invertCopy_multiplyMatrix_exact m :
  det m <> 0 -> multiplyMatrix (invertCopy m) m = identity.
Proof.
  destruct m as [a0 b0 c0 d0 x0 y0]; unfold det, invertCopy, invert, clone,
    multiplyMatrix, identity, new; simpl; intros Hn.
  apply mk_ext; field; exact Hn.
Qed.

Lemma invert_invert_exact m : det m <> 0 -> invert (invert m) = m.
Proof.
  destruct m as [a0 b0 c0 d0 x0 y0]; unfold det, invert; simpl; intros Hn.
  apply mk_ext; field; exact Hn.
Qed.

Lemma transformPointInPlace_eq m p :
  transformPointInPlace m p = transformPoint m p.
Proof. reflexivity. Qed.

Lemma transformPoint_multiplyMatrix m1 m2 p :
  transformPoint (multiplyMatrix m1 m2) p =
  transformPoint m1 (transformPoint m2 p).
Proof.
  destruct m1, m2, p; unfold transformPoint, multiplyMatrix; simpl.
  f_equal; ring.
Qed.

Lemma transformPoint_new p : transformPoint new p = p.
Proof. destruct p; unfold transformPoint, new; simpl; f_equal; lra. Qed.

(** C9. [postMultiply] leaves all six fields of its receiver as they
    were, whatever the argument: the product it computes is dropped.
    [preMultiplyMatrix] on the other hand stores the product [b * this]
    into the receiver, and there are arguments for which that changes
    it. *)
Theorem postMultiply_receiver_unchanged :
  (forall m b0 : Matrix.t,
      a (postMultiply m b0) = a m /\ b (postMultiply m b0) = b m /\
      c (postMultiply m b0) = c m /\ d (postMultiply m b0) = d m /\
      tx (postMultiply m b0) = tx m /\ ty (postMultiply m b0) = ty m) /\
  (forall m b0 : Matrix.t, preMultiplyMatrix m b0 = multiplyMatrix b0 m) /\
  (exists m b0 : Matrix.t,
      multiplyMatrix m b0 <> m /\ postMultiply m b0 = m /\
      preMultiplyMatrix m b0 <> m).
Proof.
  split; [|split].
  - intros m b0; unfold postMultiply; repeat split.
  - intros m b0; unfold preMultiplyMatrix.
    now rewrite setToMatrix_eq, clone_id.
  - exists new, (mk 2 0 0 2 0 0); repeat split.
    + unfold multiplyMatrix, new; simpl; intros H.
      apply (f_equal a) in H; simpl in H; lra.
    + unfold preMultiplyMatrix, setToMatrix, clone, multiplyMatrix, new;
        simpl; intros H.
      apply (f_equal a) in H; simpl in H; lra.
Qed.

End MatrixFacts.


(** ** Facts about Transform *)
Module TransformFacts.
Import Transform TransformSpec.

Ltac conjs := repeat match goal with |- _ /\ _ => split end.

(** *** Store updates *)

Lemma upd_Some s r f s' :
  upd s r f = Some s' ->
  exists T, s !! r = Some T /\ s' = <[r := f T]> s.
Proof.
  unfold upd; destruct (s !! r) as [T|] eqn:E; [|discriminate].
  intros [= <-]; eauto.
Qed.

Lemma upd_ok s r f T :
  s !! r = Some T -> upd s r f = Some (<[r := f T]> s).
Proof. unfold upd; now intros ->. Qed.

Lemma insert_eq (s : store) r T0 T :
  s !! r = Some T0 -> <[r := T]> s !! r = Some T.
Proof. intros H; apply list_lookup_insert_eq; eapply lookup_lt_Some; eauto. Qed.

Lemma insert_ne (s : store) r u T : u <> r -> <[r := T]> s !! u = s !! u.
Proof. intros H; apply list_lookup_insert_ne; congruence. Qed.

Lemma lookup_same_length (s s' : store) r T :
  length s = length s' -> s !! r = Some T -> exists T', s' !! r = Some T'.
Proof.
  intros Hl H; apply lookup_lt_Some in H.
  destruct (lookup_lt_is_Some_2 s' r) as [T' HT']; [lia|eauto].
Qed.

Lemma with_dirty_id T : with_dirty (_dirty T) T = T.
Proof. now destruct T. Qed.

Lemma with_dirty_true_id T : _dirty T = true -> with_dirty true T = T.
Proof. intros <-; apply with_dirty_id. Qed.

(** *** Pointwise relations between stores *)


Lemma rel_store_refl (R : t -> t -> Prop) s :
  (forall T, R T T) -> rel_store R s s.
Proof. intros HR; split; [reflexivity|]. intros r T T' -> [= <-]; apply HR. Qed.

Lemma rel_store_trans (R : t -> t -> Prop) s1 s2 s3 :
  (forall x y z, R x y -> R y z -> R x z) ->
  rel_store R s1 s2 -> rel_store R s2 s3 -> rel_store R s1 s3.
Proof.
  intros HR [L1 H1] [L2 H2]; split; [congruence|].
  intros r T T' HT HT'.
  destruct (lookup_same_length s1 s2 r T L1 HT) as [T2 HT2].
  apply (HR T T2 T'); [eapply H1|eapply H2]; eassumption.
Qed.

Lemma rel_store_sym (R : t -> t -> Prop) s1 s2 :
  (forall x y, R x y -> R y x) -> rel_store R s1 s2 -> rel_store R s2 s1.
Proof. intros HR [L H]; split; [congruence|]; eauto. Qed.

Lemma rel_store_insert (R : t -> t -> Prop) s r T T' :
  (forall x, R x x) -> s !! r = Some T -> R T T' ->
  rel_store R s (<[r := T']> s).
Proof.
  intros Hrefl HT HR; split; [now rewrite length_insert|].
  intros u U U' HU HU'.
  destruct (decide (u = r)) as [->|Hne].
  - rewrite (insert_eq s r T T' HT) in HU'. congruence.
  - rewrite insert_ne in HU' by assumption. replace U' with U by congruence.
    apply Hrefl.
Qed.

Lemma same_geom_refl T : same_geom T T.
Proof. repeat split. Qed.

Lemma same_geom_sym T T' : same_geom T T' -> same_geom T' T.
Proof. unfold same_geom; intuition congruence. Qed.

Lemma same_geom_trans T1 T2 T3 :
  same_geom T1 T2 -> same_geom T2 T3 -> same_geom T1 T3.
Proof. unfold same_geom; intuition congruence. Qed.

Lemma same_geom_with_dirty b T : same_geom T (with_dirty b T).
Proof. repeat split. Qed.

Lemma localMatrix_same_geom T T' :
  same_geom T T' -> localMatrix T = localMatrix T'.
Proof.
  intros (H1 & H2 & H3 & H4 & H5 & _).
  unfold localMatrix, Matrix.setTo. now rewrite H1, H2, H3, H4, H5.
Qed.


Lemma geom_store_refl s : geom_store s s.
Proof. apply rel_store_refl, same_geom_refl. Qed.

Lemma geom_store_sym s s' : geom_store s s' -> geom_store s' s.
Proof. apply rel_store_sym, same_geom_sym. Qed.

Lemma geom_store_trans s1 s2 s3 :
  geom_store s1 s2 -> geom_store s2 s3 -> geom_store s1 s3.
Proof. apply rel_store_trans, same_geom_trans. Qed.

Lemma geom_store_lookup s s' r T :
  geom_store s s' -> s !! r = Some T ->
  exists T', s' !! r = Some T' /\ same_geom T T'.
Proof.
  intros [L H] HT. destruct (lookup_same_length s s' r T L HT) as [T' HT'].
  eauto.
Qed.

Lemma same_shape_refl T : same_shape T T.
Proof. split; reflexivity. Qed.

Lemma same_shape_sym T T' : same_shape T T' -> same_shape T' T.
Proof. unfold same_shape; intuition congruence. Qed.

Lemma same_shape_trans T1 T2 T3 :
  same_shape T1 T2 -> same_shape T2 T3 -> same_shape T1 T3.
Proof. unfold same_shape; intuition congruence. Qed.

Lemma shape_store_refl s : shape_store s s.
Proof. apply rel_store_refl, same_shape_refl. Qed.

Lemma shape_store_sym s s' : shape_store s s' -> shape_store s' s.
Proof. apply rel_store_sym, same_shape_sym. Qed.

Lemma shape_store_trans s1 s2 s3 :
  shape_store s1 s2 -> shape_store s2 s3 -> shape_store s1 s3.
Proof. apply rel_store_trans, same_shape_trans. Qed.

Lemma geom_shape s s' : geom_store s s' -> shape_store s s'.
Proof.
  intros [L H]; split; [assumption|]. intros r T T' HT HT'.
  destruct (H r T T' HT HT') as (_ & _ & _ & _ & _ & Hc & Hp). now split.
Qed.

Lemma shape_store_lookup s s' r T :
  shape_store s s' -> s !! r = Some T ->
  exists T', s' !! r = Some T' /\ same_shape T T'.
Proof.
  intros [L H] HT. destruct (lookup_same_length s s' r T L HT) as [T' HT'].
  eauto.
Qed.

Lemma shape_store_insert s r T T' :
  s !! r = Some T -> same_shape T T' -> shape_store s (<[r := T']> s).
Proof. intros; eapply rel_store_insert; eauto using same_shape_refl. Qed.

Lemma Reach_shape s s' r u : shape_store s s' -> Reach s r u -> Reach s' r u.
Proof.
  intros G H; induction H as [r|r T e u HT He _ IH]; [constructor|].
  destruct (shape_store_lookup _ _ _ _ G HT) as (T' & HT' & Hc & _).
  eapply Reach_step; eauto. now rewrite <- Hc.
Qed.

Lemma Anc_shape s s' u k : shape_store s s' -> Anc s u k -> Anc s' u k.
Proof.
  intros G H; induction H as [u|u U p k HU Hp _ IH]; [constructor|].
  destruct (shape_store_lookup _ _ _ _ G HU) as (U' & HU' & _ & Hpp).
  eapply Anc_step; eauto. now rewrite <- Hpp.
Qed.

Lemma Reach_geom s s' r u : geom_store s s' -> Reach s r u -> Reach s' r u.
Proof. intros G; apply Reach_shape, geom_shape, G. Qed.

Lemma Anc_geom s s' u k : geom_store s s' -> Anc s u k -> Anc s' u k.
Proof. intros G; apply Anc_shape, geom_shape, G. Qed.

Lemma World_geom s s' r M : geom_store s s' -> World s r M -> World s' r M.
Proof.
  intros G H; induction H as [r T HT Hp|r T p PM HT Hp _ IH];
    destruct (geom_store_lookup _ _ _ _ G HT) as (T' & HT' & HG);
    rewrite (localMatrix_same_geom _ _ HG).
  - apply World_root; [assumption|].
    destruct HG as (_ & _ & _ & _ & _ & _ & <-); assumption.
  - eapply World_child; eauto.
    destruct HG as (_ & _ & _ & _ & _ & _ & <-); assumption.
Qed.


Lemma closed_shape s s' : shape_store s s' -> closed s -> closed s'.
Proof.
  intros G C r T' HT'.
  destruct (shape_store_lookup _ _ _ _ (shape_store_sym _ _ G) HT')
    as (T & HT & Hc & Hp).
  destruct (C r T HT) as [C1 C2]. split.
  - intros p Hpp. rewrite Hp in Hpp. destruct (C1 p Hpp) as (P & HP & Hin).
    destruct (shape_store_lookup _ _ _ _ G HP) as (P' & HP' & Hc' & _).
    exists P'; split; [assumption|]. now rewrite <- Hc'.
  - intros e He. rewrite Hc in He. destruct (C2 e He) as [E HE].
    destruct (shape_store_lookup _ _ _ _ G HE) as (E' & HE' & _). eauto.
Qed.

Lemma ranked_shape rk dp s s' :
  shape_store s s' -> ranked rk dp s -> ranked rk dp s'.
Proof.
  intros G [R1 R2]; split.
  - intros r T' e HT' He Hne.
    destruct (shape_store_lookup _ _ _ _ (shape_store_sym _ _ G) HT')
      as (T & HT & Hc & _).
    rewrite Hc in He. eauto.
  - intros r T' p HT' Hp.
    destruct (shape_store_lookup _ _ _ _ (shape_store_sym _ _ G) HT')
      as (T & HT & _ & Hpp).
    rewrite Hpp in Hp. eauto.
Qed.

Lemma closed_geom s s' : geom_store s s' -> closed s -> closed s'.
Proof. intros G; apply closed_shape, geom_shape, G. Qed.

Lemma ranked_geom rk dp s s' :
  geom_store s s' -> ranked rk dp s -> ranked rk dp s'.
Proof. intros G; apply ranked_shape, geom_shape, G. Qed.

(** *** The dirty cascade *)

Lemma Reach_trans s a b c : Reach s a b -> Reach s b c -> Reach s a c.
Proof.
  intros H; induction H as [r|r T e u HT He _ IH]; [trivial|].
  intros Hc; eapply Reach_step; eauto.
Qed.

Lemma casc_refl s r : casc s r s.
Proof. split; [reflexivity|]; auto. Qed.

Lemma casc_geom s r s' : casc s r s' -> geom_store s s'.
Proof.
  intros [L H]; split; [assumption|].
  intros u U U' HU HU'. destruct (H u U HU) as [E|[E _]].
  - replace U' with U by congruence. apply same_geom_refl.
  - replace U' with (with_dirty true U) by congruence.
    apply same_geom_with_dirty.
Qed.

Lemma casc_mono s r s' u : casc s r s' -> dirty_in s u -> dirty_in s' u.
Proof.
  intros [L H] (U & HU & Hd). destruct (H u U HU) as [E|[E _]].
  - exists U; auto.
  - exists (with_dirty true U); auto.
Qed.

Lemma casc_step s r s1 e s2 :
  casc s r s1 -> casc s1 e s2 -> Reach s r e -> casc s r s2.
Proof.
  intros C1 C2 Hre. pose proof (casc_geom _ _ _ C1) as G.
  destruct C1 as [L1 H1], C2 as [L2 H2]; split; [congruence|].
  intros u U HU. destruct (H1 u U HU) as [E|[E R]].
  - destruct (H2 u U E) as [E2|[E2 R2]]; [auto|right; split; [assumption|]].
    eapply Reach_trans; [eassumption|].
    eapply Reach_geom; [apply geom_store_sym; eassumption|assumption].
  - destruct (H2 u _ E) as [E2|[E2 R2]]; right; split; auto.
Qed.

Lemma dirty_set_true_fold_unfold fuel s this :
  dirty_set_true (S fuel) s this =
  match upd s this (with_dirty true) with
  | None => None
  | Some s1 =>
      match s1 !! this with
      | None => None
      | Some T =>
          fold_left
            (fun acc e =>
               match acc with
               | None => None
               | Some s' =>
                   if Nat.eqb e this then Some s'
                   else dirty_set_true fuel s' e
               end)
            (_children T) (Some s1)
      end
  end.
Proof. reflexivity. Qed.

(** On a store without cycles in the children arrays the cascade
    returns, changes nothing but dirty flags, and leaves every node
    reached from its start dirty. *)
Lemma dirty_set_true_ok rk dp fuel :
  forall s r,
    closed s -> ranked rk dp s -> is_Some (s !! r) -> rk r < fuel ->
    exists s', dirty_set_true fuel s r = Some s' /\ casc s r s' /\
               forall u, Reach s r u -> dirty_in s' u.
Proof.
  induction fuel as [|f IHf]; intros s r Hc Hr [T HT] Hlt; [lia|].
  rewrite dirty_set_true_fold_unfold, (upd_ok _ _ _ _ HT).
  set (s1 := <[r := with_dirty true T]> s).
  assert (H1 : s1 !! r = Some (with_dirty true T)) by (eapply insert_eq; eauto).
  rewrite H1. change (_children (with_dirty true T)) with (_children T).
  assert (C1 : casc s r s1).
  { split; [unfold s1; now rewrite length_insert|].
    intros u U HU. destruct (decide (u = r)) as [->|Hne].
    - right. replace U with T by congruence. split; [assumption|constructor].
    - left. unfold s1. now rewrite insert_ne. }
  assert (Hfold : forall l acc,
    casc s r acc -> (forall e, e ∈ l -> e ∈ _children T) ->
    exists s',
      fold_left
        (fun acc e =>
           match acc with
           | None => None
           | Some s' =>
               if Nat.eqb e r then Some s' else dirty_set_true f s' e
           end) l (Some acc) = Some s' /\
      casc s r s' /\ (forall u, dirty_in acc u -> dirty_in s' u) /\
      (forall e, e ∈ l -> e <> r -> forall u, Reach s e u -> dirty_in s' u)).
  { induction l as [|e l IHl]; intros acc Ca Hsub.
    - exists acc; conjs; auto. intros e He; inversion He.
    - simpl. assert (He : e ∈ _children T) by (apply Hsub; left).
      assert (Hl : forall e', e' ∈ l -> e' ∈ _children T)
        by (intros; apply Hsub; now right).
      destruct (Nat.eqb_spec e r) as [->|Hne].
      + destruct (IHl acc Ca Hl) as (s' & E & C' & M & P).
        exists s'; conjs; auto.
        intros e' He' Hne' u Hu. apply elem_of_cons in He' as [->|He'].
        * contradiction.
        * eapply P; eauto.
      + pose proof (casc_geom _ _ _ Ca) as G.
        destruct (proj2 (Hc r T HT) e He) as [E0 HE0].
        destruct (geom_store_lookup _ _ _ _ G HE0) as (E1 & HE1 & _).
        destruct (IHf acc e (closed_geom _ _ G Hc) (ranked_geom _ _ _ _ G Hr)
                    (ex_intro _ E1 HE1)) as (s2 & E2 & C2 & P2).
        { pose proof (proj1 Hr r T e HT He Hne). lia. }
        rewrite E2.
        assert (Ca2 : casc s r s2).
        { eapply casc_step; eauto. eapply Reach_step; eauto. constructor. }
        destruct (IHl s2 Ca2 Hl) as (s' & E & C' & M & P).
        exists s'; conjs; auto.
        * intros u Hu. apply M. exact (casc_mono _ _ _ _ C2 Hu).
        * intros e' He' Hne' u Hu. apply elem_of_cons in He' as [->|He'].
          -- apply M, P2. eapply Reach_geom; eauto.
          -- eapply P; eauto. }
  destruct (Hfold (_children T) s1 C1 (fun e H => H)) as (s' & E & C' & M & P).
  exists s'; conjs; auto.
  intros u Hu. remember r as r0 eqn:Er in Hu.
  induction Hu as [r0|r0 T0 e u HT0 He Hu IH]; subst r0.
  - apply M. exists (with_dirty true T); auto.
  - replace T0 with T in * by congruence.
    destruct (decide (e = r)) as [->|Hne]; [now apply IH|].
    eapply P; eauto.
Qed.

(** *** Reading the concatenated matrix *)

Lemma geom_store_insert s r T T' :
  s !! r = Some T -> same_geom T T' -> geom_store s (<[r := T']> s).
Proof. intros; eapply rel_store_insert; eauto using same_geom_refl. Qed.

Lemma cache_ok_insert_dirty s r T T2 :
  cache_ok s -> s !! r = Some T -> _dirty T = true -> same_geom T T2 ->
  _dirty T2 = true -> cache_ok (<[r := T2]> s).
Proof.
  intros Hk HT Hd HG Hd2 u U HU Hcl.
  pose proof (geom_store_insert s r T T2 HT HG) as G.
  destruct (decide (u = r)) as [->|Hne].
  { rewrite (insert_eq s r T T2 HT) in HU. congruence. }
  rewrite insert_ne in HU by assumption.
  destruct (Hk u U HU Hcl) as [W Pc]. split.
  - eapply World_geom; eauto.
  - intros p Hp. destruct (Pc p Hp) as (P & HP & HPd).
    destruct (decide (p = r)) as [->|Hnp]; [congruence|].
    exists P. now rewrite insert_ne.
Qed.

Lemma cache_ok_clean_node s r T :
  cache_ok s -> s !! r = Some T ->
  World s r (_cachedConcatenatedMatrix T) ->
  (forall p, _parent T = Some p -> exists P, s !! p = Some P /\ _dirty P = false) ->
  cache_ok (<[r := with_dirty false T]> s).
Proof.
  intros Hk HT W Pc u U HU Hcl.
  pose proof (geom_store_insert s r T _ HT (same_geom_with_dirty false T)) as G.
  assert (Par : forall p P, s !! p = Some P -> _dirty P = false ->
            exists P', <[r := with_dirty false T]> s !! p = Some P' /\
                       _dirty P' = false).
  { intros p P HP HPd. destruct (decide (p = r)) as [->|Hnp].
    - exists (with_dirty false T). split; [eapply insert_eq; eauto|reflexivity].
    - exists P. now rewrite insert_ne. }
  destruct (decide (u = r)) as [->|Hne].
  - rewrite (insert_eq s r T _ HT) in HU. injection HU as <-. split.
    + eapply World_geom; eauto.
    + intros p Hp. destruct (Pc p Hp) as (P & HP & HPd). eauto.
  - rewrite insert_ne in HU by assumption.
    destruct (Hk u U HU Hcl) as [W' Pc']. split.
    + eapply World_geom; eauto.
    + intros p Hp. destruct (Pc' p Hp) as (P & HP & HPd). eauto.
Qed.

Lemma getConcatenatedMatrix_unfold fuel s this :
  getConcatenatedMatrix (S fuel) s this =
  match s !! this with
  | None => None
  | Some T =>
      if _dirty T then
        let T2 :=
          with_cachedConcatenatedMatrix (localMatrix T)
            (with_matrix (localMatrix T) T) in
        let s2 := <[this := T2]> s in
        match
          match _parent T with
          | Some p =>
              match getConcatenatedMatrix fuel s2 p with
              | None => None
              | Some (pm, s') =>
                  upd s' this
                    (fun T' =>
                       with_cachedConcatenatedMatrix
                         (Matrix.multiplyMatrix pm
                            (_cachedConcatenatedMatrix T')) T')
              end
          | None => Some s2
          end
        with
        | None => None
        | Some s3 =>
            match upd s3 this (with_dirty false) with
            | None => None
            | Some s4 =>
                match s4 !! this with
                | None => None
                | Some T4 => Some (_cachedConcatenatedMatrix T4, s4)
                end
            end
        end
      else Some (_cachedConcatenatedMatrix T, s)
  end.
Proof. reflexivity. Qed.

(** On a coherent store, with the parent chain shorter than the fuel,
    [getConcatenatedMatrix] returns the product of the local matrices
    along the chain, keeps the store coherent and leaves the node
    clean. *)
Lemma getConcatenatedMatrix_ok rk dp fuel :
  forall s r,
    closed s -> ranked rk dp s -> cache_ok s -> is_Some (s !! r) ->
    dp r < fuel ->
    exists M s',
      getConcatenatedMatrix fuel s r = Some (M, s') /\ World s r M /\
      geom_store s s' /\ cache_ok s' /\
      (exists T', s' !! r = Some T' /\ _dirty T' = false /\
                  _cachedConcatenatedMatrix T' = M) /\
      (forall u, dp r < dp u -> s' !! u = s !! u).
Proof.
  induction fuel as [|f IHf]; intros s r Hc Hr Hk [T HT] Hlt; [lia|].
  rewrite getConcatenatedMatrix_unfold, HT.
  destruct (_dirty T) eqn:Hd.
  2:{ exists (_cachedConcatenatedMatrix T), s. conjs; auto.
      - apply (Hk r T HT Hd).
      - apply geom_store_refl.
      - eauto. }
  cbv zeta.
  set (T2 := with_cachedConcatenatedMatrix (localMatrix T)
               (with_matrix (localMatrix T) T)).
  set (s2 := <[r := T2]> s).
  assert (HG2 : same_geom T T2) by (repeat split).
  assert (H2 : s2 !! r = Some T2) by (eapply insert_eq; eauto).
  assert (G2 : geom_store s s2) by (eapply geom_store_insert; eauto).
  assert (K2 : cache_ok s2)
    by (eapply cache_ok_insert_dirty; eauto).
  destruct (_parent T) as [p|] eqn:Hp.
  - destruct (proj1 (Hc r T HT) p Hp) as (P & HP & _).
    pose proof (proj2 Hr r T p HT Hp) as Hdp.
    destruct (geom_store_lookup _ _ _ _ G2 HP) as (P2 & HP2 & _).
    destruct (IHf s2 p (closed_geom _ _ G2 Hc) (ranked_geom _ _ _ _ G2 Hr) K2
                (ex_intro _ P2 HP2)) as (pm & s' & E & W & G' & K' & Cl & Fr);
      [lia|].
    rewrite E.
    assert (Hr' : s' !! r = Some T2) by (rewrite Fr; [assumption|lia]).
    rewrite (upd_ok _ _ _ _ Hr').
    set (T3 := with_cachedConcatenatedMatrix
                 (Matrix.multiplyMatrix pm (_cachedConcatenatedMatrix T2)) T2).
    set (s3 := <[r := T3]> s').
    assert (H3 : s3 !! r = Some T3) by (eapply insert_eq; eauto).
    assert (G3 : geom_store s' s3)
      by (eapply geom_store_insert; eauto; repeat split).
    assert (K3 : cache_ok s3)
      by (eapply cache_ok_insert_dirty; eauto; repeat split).
    rewrite (upd_ok _ _ _ _ H3).
    set (s4 := <[r := with_dirty false T3]> s3).
    assert (H4 : s4 !! r = Some (with_dirty false T3))
      by (eapply insert_eq; eauto).
    rewrite H4.
    assert (Hnp : p <> r) by (intros ->; lia).
    assert (Wr : World s r (Matrix.multiplyMatrix pm (localMatrix T))).
    { eapply World_child; eauto.
      eapply World_geom; [apply geom_store_sym; eassumption|assumption]. }
    assert (G4 : geom_store s s4).
    { apply (geom_store_trans _ _ _ G2), (geom_store_trans _ _ _ G'),
        (geom_store_trans _ _ _ G3).
      eapply geom_store_insert; eauto using same_geom_with_dirty. }
    eexists _, s4. conjs; [reflexivity| | | | |].
    + exact Wr.
    + exact G4.
    + eapply cache_ok_clean_node; eauto.
      * simpl. eapply World_geom; [|exact Wr].
        exact (geom_store_trans _ _ _ G2 (geom_store_trans _ _ _ G' G3)).
      * simpl. rewrite Hp. intros p0 [= <-].
        destruct Cl as (P' & HP' & HPd & _). exists P'.
        split; [|assumption]. unfold s3. now rewrite insert_ne.
    + eexists; conjs; [eassumption|reflexivity|reflexivity].
    + intros u Hu. assert (u <> r) by (intros ->; lia).
      unfold s4, s3. rewrite !insert_ne by assumption.
      rewrite Fr by lia. unfold s2. now rewrite insert_ne.
  - rewrite (upd_ok _ _ _ _ H2).
    set (s4 := <[r := with_dirty false T2]> s2).
    assert (H4 : s4 !! r = Some (with_dirty false T2))
      by (eapply insert_eq; eauto).
    rewrite H4.
    assert (Wr : World s r (localMatrix T)) by (apply World_root; auto).
    eexists _, s4. conjs; [reflexivity| | | | |].
    + exact Wr.
    + eapply geom_store_trans; [eassumption|].
      eapply geom_store_insert; eauto using same_geom_with_dirty.
    + eapply cache_ok_clean_node; eauto.
      * simpl. eapply World_geom; eauto.
      * simpl. rewrite Hp. discriminate.
    + eexists; conjs; [eassumption|reflexivity|reflexivity].
    + intros u Hu. assert (u <> r) by (intros ->; lia).
      unfold s4, s2. now rewrite !insert_ne.
Qed.

(** *** Changing the geometry of a node *)

Lemma Anc_Reach s u k : closed s -> Anc s u k -> Reach s k u.
Proof.
  intros Hc H; induction H as [u|u U p k HU Hp _ IH]; [constructor|].
  destruct (proj1 (Hc u U HU) p Hp) as (P & HP & Hin).
  eapply Reach_trans; [eassumption|].
  eapply Reach_step; eauto. constructor.
Qed.

Lemma Anc_in_store s u k : is_Some (s !! k) -> Anc s u k -> is_Some (s !! u).
Proof. intros Hk H; destruct H; eauto. Qed.

(** The product along the parent chain of [u] does not depend on a node
    that is not on that chain. *)
Lemma World_frame s k X u M :
  World s u M -> ~ Anc s u k -> World (<[k := X]> s) u M.
Proof.
  intros H; induction H as [r T HT Hp|r T p PM HT Hp _ IH]; intros Hn.
  - assert (r <> k) by (intros ->; apply Hn; constructor).
    apply World_root; [now rewrite insert_ne|assumption].
  - assert (r <> k) by (intros ->; apply Hn; constructor).
    eapply World_child; [now rewrite insert_ne|eassumption|].
    apply IH. intros Ha. apply Hn. eapply Anc_step; eauto.
Qed.

Lemma dirty_in_not_clean s u U :
  dirty_in s u -> s !! u = Some U -> _dirty U = false -> False.
Proof. intros (U' & HU' & Hd) HU Hcl. congruence. Qed.

(** Assigning to geometry fields of node [k] (anything that leaves
    [_children] and [_parent] alone) and then running the cascade from
    [k] keeps the store coherent and leaves [k] and all its descendants
    dirty. *)
Lemma mutate_then_cascade_ok rk dp fuel s k T (g : t -> t) :
  closed s -> ranked rk dp s -> cache_ok s -> s !! k = Some T ->
  rk k < fuel -> same_shape T (g T) ->
  exists s',
    dirty_set_true fuel (<[k := g T]> s) k = Some s' /\
    closed s' /\ ranked rk dp s' /\ cache_ok s' /\
    shape_store s s' /\
    s' !! k = Some (with_dirty true (g T)) /\
    (forall u, Anc s u k -> dirty_in s' u).
Proof.
  intros Hc Hr Hk HT Hlt Hsh.
  set (s1 := <[k := g T]> s).
  assert (S1 : shape_store s s1) by (eapply shape_store_insert; eauto).
  assert (H1 : s1 !! k = Some (g T)) by (eapply insert_eq; eauto).
  destruct (dirty_set_true_ok rk dp fuel s1 k (closed_shape _ _ S1 Hc)
              (ranked_shape _ _ _ _ S1 Hr) (ex_intro _ _ H1) Hlt)
    as (s' & E & C & D).
  pose proof (casc_geom _ _ _ C) as G.
  assert (S' : shape_store s s')
    by (eapply shape_store_trans; [eassumption|apply geom_shape, G]).
  assert (Dk : forall u, Anc s u k -> dirty_in s' u).
  { intros u Hu. apply D. eapply Reach_shape; [eassumption|].
    now apply Anc_Reach. }
  exists s'. conjs; auto.
  - eapply closed_shape; eauto.
  - eapply ranked_shape; eauto.
  - intros u U' HU' Hcl.
    assert (Hnk : ~ Anc s u k).
    { intros Ha. exact (dirty_in_not_clean s' u U' (Dk u Ha) HU' Hcl). }
    assert (u <> k) by (intros ->; apply Hnk; constructor).
    destruct (lookup_same_length s' s1 u U') as [U1 HU1];
      [symmetry; apply C|assumption|].
    assert (U1 = U').
    { destruct (proj2 C u U1 HU1) as [E1|[E1 R1]]; [congruence|].
      exfalso. exact (dirty_in_not_clean s' u U' (D u R1) HU' Hcl). }
    subst U1. assert (HU : s !! u = Some U')
      by (unfold s1 in HU1; now rewrite insert_ne in HU1).
    destruct (Hk u U' HU Hcl) as [W Pc]. split.
    + eapply World_geom; [eassumption|]. now apply World_frame.
    + intros p Hp. destruct (Pc p Hp) as (P & HP & HPd).
      assert (p <> k).
      { intros ->. apply Hnk. eapply Anc_step; eauto. constructor. }
      assert (HP1 : s1 !! p = Some P) by (unfold s1; now rewrite insert_ne).
      destruct (proj2 C p P HP1) as [E1|[E1 R1]]; [eauto|].
      exfalso. refine (dirty_in_not_clean s' u U' (D u _) HU' Hcl).
      eapply Reach_trans; [eassumption|].
      destruct (proj1 (Hc u U' HU) p Hp) as (P0 & HP0 & Hin).
      replace P0 with P in * by congruence.
      eapply Reach_step; eauto. constructor.
  - destruct (proj2 C k (g T) H1) as [E1|[E1 _]]; [|assumption].
    destruct (D k (Reach_refl _ _)) as (K' & HK' & Hd).
    replace K' with (g T) in * by congruence.
    now rewrite with_dirty_true_id.
Qed.




Lemma coherent_positive N s : coherent N s -> 0 < N.
Proof. intros (rk & dp & B & _). destruct (B 0). lia. Qed.

(** Reads keep a coherent store coherent. *)
Lemma coherent_read N fuel s r :
  coherent N s -> is_Some (s !! r) -> N <= fuel ->
  exists M s', getConcatenatedMatrix fuel s r = Some (M, s') /\
               World s r M /\ coherent N s' /\ geom_store s s'.
Proof.
  intros (rk & dp & B & Hc & Hr & Hk) Hin Hf.
  destruct (getConcatenatedMatrix_ok rk dp fuel s r Hc Hr Hk Hin)
    as (M & s' & E & W & G & K' & _); [destruct (B r); lia|].
  exists M, s'. conjs; auto.
  exists rk, dp. conjs; auto.
  - eapply closed_geom; eauto.
  - eapply ranked_geom; eauto.
Qed.


(** *** Building forests through the API *)

Lemma snoc_insert_last (s : store) X Y :
  <[length s := Y]> (s ++ [X]) = s ++ [Y].
Proof.
  rewrite (insert_app_r_alt s [X] (length s) Y) by lia.
  now rewrite Nat.sub_diag.
Qed.

Lemma snoc_lookup_last (s : store) X : (s ++ [X]) !! length s = Some X.
Proof. now apply list_lookup_middle. Qed.

Lemma new_eq s : new s = Some (length s, s ++ [initial]).
Proof.
  unfold new, setTransform, set_dirty.
  rewrite (upd_ok _ _ _ _ (snoc_lookup_last s initial)), snoc_insert_last.
  rewrite dirty_set_true_fold_unfold.
  rewrite (upd_ok _ _ _ _ (snoc_lookup_last s _)), snoc_insert_last.
  rewrite snoc_lookup_last. simpl.
  rewrite (upd_ok _ _ _ _ (snoc_lookup_last s _)), snoc_insert_last.
  reflexivity.
Qed.

Lemma World_agree s s' u M :
  World s u M ->
  (forall v V, Anc s u v -> s !! v = Some V ->
     exists V', s' !! v = Some V' /\ localMatrix V = localMatrix V' /\
                _parent V = _parent V') ->
  World s' u M.
Proof.
  intros H; induction H as [r T HT Hp|r T p PM HT Hp _ IH]; intros Hag;
    destruct (Hag r T (Anc_refl _ _) HT) as (T' & HT' & Hl & Hpp);
    rewrite Hl.
  - apply World_root; [exact HT'|now rewrite <- Hpp].
  - eapply World_child; [exact HT'|rewrite <- Hpp; exact Hp|].
    apply IH. intros v V Ha HV. apply Hag; [|assumption].
    eapply Anc_step; eauto.
Qed.

Lemma coherent_nil : coherent 1 [].
Proof.
  exists (fun _ => 0), (fun _ => 0). conjs; auto.
  - intros r T HT. rewrite lookup_nil in HT. discriminate.
  - split; intros r T e HT; rewrite lookup_nil in HT; discriminate.
  - intros r T HT. rewrite lookup_nil in HT. discriminate.
Qed.

Lemma coherent_weaken N N' s : coherent N s -> N <= N' -> coherent N' s.
Proof.
  intros (rk & dp & B & H) Hle. exists rk, dp. split; [|assumption].
  intros r. destruct (B r). lia.
Qed.

(** A freshly constructed Transform can be added to a coherent store. *)
Lemma coherent_new N s : coherent N s -> coherent N (s ++ [initial]).
Proof.
  intros (rk & dp & B & Hc & Hr & Hk). exists rk, dp.
  assert (Old : forall r T, (s ++ [initial]) !! r = Some T ->
            s !! r = Some T \/ (r = length s /\ T = initial)).
  { intros r T HT. apply lookup_snoc_Some in HT.
    destruct HT as [[_ HT]|[-> <-]]; auto. }
  conjs; auto.
  - intros r T HT. destruct (Old r T HT) as [HT0|[-> ->]].
    + destruct (Hc r T HT0) as [C1 C2]. split.
      * intros p Hp. destruct (C1 p Hp) as (P & HP & Hin).
        exists P. split; [now apply lookup_app_l_Some|assumption].
      * intros e He. destruct (C2 e He) as [E HE].
        exists E. now apply lookup_app_l_Some.
    + split; [discriminate|]. intros e He. inversion He.
  - split.
    + intros r T e HT He Hne. destruct (Old r T HT) as [HT0|[-> ->]].
      * eapply (proj1 Hr); eauto.
      * inversion He.
    + intros r T p HT Hp. destruct (Old r T HT) as [HT0|[-> ->]].
      * eapply (proj2 Hr); eauto.
      * discriminate.
  - intros r T HT Hcl. destruct (Old r T HT) as [HT0|[-> ->]];
      [|discriminate].
    destruct (Hk r T HT0 Hcl) as [W Pc]. split.
    + eapply World_agree; [eassumption|].
      intros v V _ HV. exists V. split; [now apply lookup_app_l_Some|auto].
    + intros p Hp. destruct (Pc p Hp) as (P & HP & HPd).
      exists P. split; [now apply lookup_app_l_Some|assumption].
Qed.

Lemma detached_new s : closed s -> detached (s ++ [initial]) (length s).
Proof.
  intros Hc. exists initial. conjs; auto.
  - now apply list_lookup_middle.
  - intros u U HU Hin. apply lookup_snoc_Some in HU.
    destruct HU as [[_ HU]|[-> <-]]; [|inversion Hin].
    destruct (proj2 (Hc u U HU) _ Hin) as [X HX].
    apply lookup_lt_Some in HX. lia.
Qed.

Lemma detached_app s r X :
  detached s r -> _children X = [] -> detached (s ++ [X]) r.
Proof.
  intros (T & HT & Hch & Hp & Hno) HX. exists T. conjs; auto.
  - now apply lookup_app_l_Some.
  - intros u U HU Hin. apply lookup_snoc_Some in HU.
    destruct HU as [[_ HU]|[-> <-]]; [eapply Hno; eauto|].
    rewrite HX in Hin. inversion Hin.
Qed.

(** Assigning a parent to a detached leaf: what the setter returns. *)
Lemma set_parent_leaf_eq fuel s r p T P :
  s !! r = Some T -> _children T = [] -> s !! p = Some P -> p <> r ->
  set_parent (S fuel) s r (Some p) =
  Some (<[r := with_dirty true (with_parent (Some p) T)]>
          (<[p := with_children (_children P ++ [r]) P]> s)).
Proof.
  intros HT Hch HP Hne. unfold set_parent, set_parent_with, checkAncestor.
  rewrite (upd_ok _ _ _ _ HP). simpl negb. cbv iota.
  set (s1 := <[p := _]> s).
  assert (H1 : s1 !! r = Some T) by (unfold s1; now rewrite insert_ne).
  rewrite (upd_ok _ _ _ _ H1). set (s2 := <[r := _]> s1).
  assert (H2 : s2 !! r = Some (with_parent (Some p) T))
    by (eapply insert_eq; eauto).
  unfold set_dirty. rewrite dirty_set_true_fold_unfold.
  rewrite (upd_ok _ _ _ _ H2).
  erewrite insert_eq by eassumption. simpl. rewrite Hch. simpl.
  unfold s2. now rewrite list_insert_insert_eq.
Qed.

Lemma Anc_not_parent s r u v :
  (forall w W, s !! w = Some W -> _parent W <> Some r) ->
  Anc s u v -> u <> r -> v <> r.
Proof.
  intros Hno H; induction H as [u|u U p k HU Hp _ IH]; [trivial|].
  intros Hne. apply IH. intros ->. eapply Hno; eauto.
Qed.

(** ... and the store stays coherent. *)
Lemma coherent_set_parent_leaf N fuel s r p :
  coherent N s -> detached s r -> is_Some (s !! p) -> p <> r ->
  exists s', set_parent (S fuel) s r (Some p) = Some s' /\
             coherent (S N) s' /\ length s' = length s.
Proof.
  intros (rk & dp & B & Hc & Hr & Hk) (T & HT & Hch & Hpar & Hno) [P HP] Hne.
  rewrite (set_parent_leaf_eq fuel s r p T P HT Hch HP Hne).
  set (P1 := with_children (_children P ++ [r]) P).
  set (T1 := with_dirty true (with_parent (Some p) T)).
  set (s' := <[r := T1]> (<[p := P1]> s)).
  assert (Lr : s' !! r = Some T1).
  { unfold s'. eapply insert_eq. rewrite insert_ne by congruence. eassumption. }
  assert (Lp : s' !! p = Some P1).
  { unfold s'. rewrite insert_ne by congruence. eapply insert_eq; eauto. }
  assert (Lo : forall u, u <> r -> u <> p -> s' !! u = s !! u).
  { intros u H1 H2. unfold s'. now rewrite !insert_ne. }
  assert (Inv : forall u U', s' !! u = Some U' ->
            (u = r /\ U' = T1) \/ (u = p /\ U' = P1) \/
            (u <> r /\ u <> p /\ s !! u = Some U')).
  { intros u U' HU'. destruct (decide (u = r)) as [->|H1]; [left; split; congruence|].
    destruct (decide (u = p)) as [->|H2]; [right; left; split; congruence|].
    right; right. rewrite Lo in HU' by assumption. auto. }
  assert (Fwd : forall u U, s !! u = Some U -> u <> r ->
            exists U', s' !! u = Some U' /\ _dirty U' = _dirty U /\
              localMatrix U' = localMatrix U /\ _parent U' = _parent U /\
              _cachedConcatenatedMatrix U' = _cachedConcatenatedMatrix U /\
              (forall e, e ∈ _children U -> e ∈ _children U')).
  { intros u U HU H1. destruct (decide (u = p)) as [->|H2].
    - replace U with P by congruence. exists P1. conjs; auto.
      intros e He. unfold P1; simpl. apply elem_of_app; auto.
    - exists U. rewrite Lo by assumption. conjs; auto. }
  assert (NoPar : forall w W, s !! w = Some W -> _parent W <> Some r).
  { intros w W HW Hp'. destruct (proj1 (Hc w W HW) r Hp') as (T0 & HT0 & Hin).
    replace T0 with T in * by congruence. rewrite Hch in Hin. inversion Hin. }
  assert (Len : length s' = length s)
    by (unfold s'; now rewrite !length_insert).
  exists s'. conjs; auto.
  exists (fun u => if Nat.eqb u r then 0 else S (rk u)),
         (fun u => if Nat.eqb u r then S (dp p) else dp u).
  conjs.
  - intros u. destruct (B u), (B p). destruct (Nat.eqb u r); lia.
  - (* closed *)
    intros u U' HU'. destruct (Inv u U' HU') as [[-> ->]|[[-> ->]|(H1 & H2 & HU)]].
    + split.
      * simpl. intros q [= <-]. exists P1. split; [assumption|].
        unfold P1; simpl. apply elem_of_app; right. now left.
      * simpl. rewrite Hch. intros e He; inversion He.
    + split.
      * simpl. intros q Hq. destruct (proj1 (Hc p P HP) q Hq) as (Q & HQ & Hin).
        assert (q <> r) by (intros ->; exact (NoPar p P HP Hq)).
        destruct (Fwd q Q HQ ltac:(assumption)) as (Q' & HQ' & _ & _ & _ & _ & Hsub).
        eauto.
      * simpl. intros e He. apply lookup_lt_is_Some. rewrite Len.
        apply elem_of_app in He as [He|He].
        -- apply lookup_lt_is_Some. eapply (proj2 (Hc p P HP)); eauto.
        -- apply list_elem_of_singleton in He as ->. eapply lookup_lt_Some; eauto.
    + split.
      * intros q Hq. destruct (proj1 (Hc u U' HU) q Hq) as (Q & HQ & Hin).
        assert (q <> r) by (intros ->; exact (NoPar u U' HU Hq)).
        destruct (Fwd q Q HQ ltac:(assumption)) as (Q' & HQ' & _ & _ & _ & _ & Hsub).
        eauto.
      * intros e He. apply lookup_lt_is_Some. rewrite Len.
        apply lookup_lt_is_Some. eapply (proj2 (Hc u U' HU)); eauto.
  - (* ranked *)
    split.
    + intros u U' e HU' He Hue.
      destruct (Inv u U' HU') as [[-> ->]|[[-> ->]|(H1 & H2 & HU)]].
      * simpl in He. rewrite Hch in He. inversion He.
      * simpl in He. apply elem_of_app in He as [He|He].
        -- assert (e <> r) by (intros ->; eapply Hno; eauto).
           pose proof (proj1 Hr p P e HP He Hue).
           destruct (Nat.eqb_spec e r), (Nat.eqb_spec p r); try congruence; lia.
        -- apply list_elem_of_singleton in He as ->.
           rewrite Nat.eqb_refl.
           destruct (Nat.eqb_spec p r); try congruence; lia.
      * assert (e <> r) by (intros ->; eapply Hno; eauto).
        pose proof (proj1 Hr u U' e HU He Hue).
        destruct (Nat.eqb_spec e r), (Nat.eqb_spec u r); try congruence; lia.
    + intros u U' q HU' Hq.
      destruct (Inv u U' HU') as [[-> ->]|[[-> ->]|(H1 & H2 & HU)]].
      * simpl in Hq. injection Hq as <-. rewrite Nat.eqb_refl.
        destruct (Nat.eqb_spec p r); try congruence; lia.
      * simpl in Hq. assert (q <> r) by (intros ->; exact (NoPar p P HP Hq)).
        pose proof (proj2 Hr p P q HP Hq).
        destruct (Nat.eqb_spec q r), (Nat.eqb_spec p r); try congruence; lia.
      * assert (q <> r) by (intros ->; exact (NoPar u U' HU Hq)).
        pose proof (proj2 Hr u U' q HU Hq).
        destruct (Nat.eqb_spec q r), (Nat.eqb_spec u r); try congruence; lia.
  - (* cache_ok *)
    intros u U' HU' Hcl.
    assert (exists U, s !! u = Some U /\ u <> r /\ _dirty U = false /\
              _cachedConcatenatedMatrix U' = _cachedConcatenatedMatrix U /\
              _parent U' = _parent U) as (U & HU & Hur & HUd & HUc & HUp).
    { destruct (Inv u U' HU') as [[-> ->]|[[-> ->]|(H1 & H2 & HU)]].
      - discriminate.
      - exists P. conjs; auto.
      - exists U'. conjs; auto. }
    destruct (Hk u U HU HUd) as [W Pc]. split.
    + rewrite HUc. eapply World_agree; [eassumption|].
      intros v V Ha HV.
      assert (v <> r) by (eapply Anc_not_parent; eauto).
      destruct (Fwd v V HV ltac:(assumption)) as (V' & HV' & _ & Hl & Hp' & _).
      exists V'. auto.
    + rewrite HUp. intros q Hq. destruct (Pc q Hq) as (Q & HQ & HQd).
      assert (q <> r) by (intros ->; exact (NoPar u U HU Hq)).
      destruct (Fwd q Q HQ ltac:(assumption)) as (Q' & HQ' & Hd & _).
      exists Q'. split; [assumption|congruence].
Qed.

(** Chains built by assigning parents are coherent, whatever their
    depth. *)
Lemma chain_coherent n :
  exists s, chain n = Some s /\ length s = S n /\ coherent (S n) s.
Proof.
  induction n as [|n (s & E & L & C)].
  - exists [initial]. conjs; [reflexivity|reflexivity|].
    apply (coherent_new 1 []), coherent_nil.
  - simpl. rewrite E, new_eq.
    assert (Hc : closed s) by (destruct C as (? & ? & ? & ? & _); assumption).
    destruct (coherent_set_parent_leaf (S n) 0 (s ++ [initial]) (length s)
                (length s - 1)) as (s' & E' & C' & L').
    + now apply coherent_new.
    + now apply detached_new.
    + apply lookup_lt_is_Some. rewrite length_app; simpl. lia.
    + lia.
    + exists s'. conjs; auto. rewrite L', length_app; simpl. lia.
Qed.

Lemma chain3_coherent : coherent 3 chain3.
Proof.
  destruct (chain_coherent 2) as (s & E & _ & C).
  unfold chain3. now rewrite E.
Qed.

Lemma chain3_lookup r : (r < 3) -> is_Some (chain3 !! r).
Proof.
  intros Hr. destruct (chain_coherent 2) as (s & E & L & _).
  unfold chain3. rewrite E. apply lookup_lt_is_Some. rewrite L. exact Hr.
Qed.

Lemma chain3_read_coherent : coherent 3 chain3_read /\ geom_store chain3 chain3_read.
Proof.
  destruct (coherent_read 3 3 chain3 2 chain3_coherent) as (M & s' & E & _ & C & G).
  - apply chain3_lookup. lia.
  - lia.
  - unfold chain3_read. rewrite E. auto.
Qed.

Lemma chain3_read_lookup r : (r < 3) -> is_Some (chain3_read !! r).
Proof.
  intros Hr. destruct (chain3_lookup r Hr) as [T HT].
  destruct chain3_read_coherent as [_ G].
  destruct (geom_store_lookup chain3 chain3_read r T G HT) as (K & HK & _).
  now exists K.
Qed.






(** *** The cascade without any assumption on the store *)

Lemma dirty_set_true_geom fuel :
  forall s r s', dirty_set_true fuel s r = Some s' -> geom_store s s'.
Proof.
  induction fuel as [|f IHf]; intros s r s' E; [discriminate|].
  rewrite dirty_set_true_fold_unfold in E.
  destruct (upd s r (with_dirty true)) as [s1|] eqn:E1; [|discriminate].
  apply upd_Some in E1 as (T & HT & ->).
  destruct (<[r := with_dirty true T]> s !! r) as [T1|]; [|discriminate].
  assert (G1 : geom_store s (<[r := with_dirty true T]> s))
    by (eapply geom_store_insert; eauto using same_geom_with_dirty).
  revert E G1. generalize (<[r := with_dirty true T]> s) as acc.
  induction (_children T1) as [|e l IHl]; intros acc E G.
  - simpl in E. now injection E as <-.
  - simpl in E. destruct (Nat.eqb e r); [eauto|].
    destruct (dirty_set_true f acc e) as [s2|] eqn:E2.
    + apply (IHl s2 E). eapply geom_store_trans; eauto.
    + exfalso. clear -E. induction l; simpl in E; [discriminate|auto].
Qed.

Lemma children_geom s s' r :
  geom_store s s' -> children s' r = children s r.
Proof.
  intros G. unfold children. destruct (s !! r) as [T|] eqn:HT.
  - destruct (geom_store_lookup _ _ _ _ G HT) as (T' & -> & HG).
    destruct HG as (_ & _ & _ & _ & _ & <- & _). reflexivity.
  - apply lookup_ge_None in HT. destruct G as [L _]. rewrite L in HT.
    apply lookup_ge_None in HT. now rewrite HT.
Qed.

Lemma parent_geom s s' r :
  geom_store s s' -> parent s' r = parent s r.
Proof.
  intros G. unfold parent. destruct (s !! r) as [T|] eqn:HT.
  - destruct (geom_store_lookup _ _ _ _ G HT) as (T' & -> & HG).
    destruct HG as (_ & _ & _ & _ & _ & _ & <-). reflexivity.
  - apply lookup_ge_None in HT. destruct G as [L _]. rewrite L in HT.
    apply lookup_ge_None in HT. now rewrite HT.
Qed.

(** The setter appends to the children array of its argument before it
    looks at [checkAncestor], whatever that method answers. *)
Lemma set_parent_with_children check fuel s this p cs s' :
  children s p = Some cs ->
  set_parent_with check fuel s this (Some p) = Some s' ->
  children s' p = Some (cs ++ [this]).
Proof.
  unfold children at 1, set_parent_with, upd.
  destruct (s !! p) as [P|] eqn:HP; [|discriminate]. intros [= <-].
  set (s1 := <[p := with_children (_children P ++ [this]) P]> s).
  assert (H1 : children s1 p = Some (_children P ++ [this])).
  { unfold children, s1. now erewrite insert_eq by eassumption. }
  destruct (negb (check s1 this (Some p))).
  - destruct (s1 !! this) as [T|] eqn:HT; [|discriminate].
    unfold set_dirty. intros E. apply dirty_set_true_geom in E.
    rewrite (children_geom _ _ _ E).
    destruct (decide (p = this)) as [->|Hne].
    + unfold children. erewrite insert_eq by eassumption. simpl.
      unfold children in H1. rewrite HT in H1. exact H1.
    + unfold children. rewrite insert_ne by assumption. exact H1.
  - now intros [= <-].
Qed.

Lemma fold_calls_None fuel this l :
  fold_left
    (fun acc e =>
       match acc with
       | None => None
       | Some (s', log) =>
           if Nat.eqb e this then Some (s', log)
           else
             match dirty_set_true_calls fuel s' e with
             | None => None
             | Some (s'', log') => Some (s'', log ++ log')
             end
       end) l None = None.
Proof. induction l; simpl; auto. Qed.

(** The log starts with the receiver of the call. *)
Lemma dirty_set_true_calls_head fuel s r s' log :
  dirty_set_true_calls fuel s r = Some (s', log) ->
  exists tl, log = r :: tl.
Proof.
  destruct fuel as [|f]; [discriminate|]. simpl.
  destruct (upd s r (with_dirty true)) as [s1|]; [|discriminate].
  destruct (s1 !! r) as [T|]; [|discriminate].
  assert (H : exists tl, [r] = r :: tl) by (now exists []).
  revert H. generalize [r] as log0. generalize s1 as acc.
  induction (_children T) as [|e l IHl]; intros acc log0 [tl ->] E; simpl in E.
  - injection E as <- <-. eauto.
  - destruct (Nat.eqb e r); [eapply IHl; eauto|].
    destruct (dirty_set_true_calls f acc e) as [[s2 log2]|].
    + eapply IHl; [|exact E]. now exists (tl ++ log2).
    + now rewrite fold_calls_None in E.
Qed.

(** Every occurrence of [e] in the children array of [p] is one more
    call of the setter on [e]. *)
Lemma dirty_set_true_calls_count fuel s p cs e s' log :
  children s p = Some cs -> e <> p ->
  dirty_set_true_calls fuel s p = Some (s', log) ->
  count_occ Nat.eq_dec cs e <= count_occ Nat.eq_dec log e.
Proof.
  unfold children. destruct (s !! p) as [P|] eqn:HP; [|discriminate].
  intros [= <-] Hne. destruct fuel as [|f]; [discriminate|]. simpl.
  rewrite (upd_ok _ _ _ _ HP). erewrite insert_eq by eassumption.
  change (_children (with_dirty true P)) with (_children P).
  assert (H : count_occ Nat.eq_dec [] e + 0 <= count_occ Nat.eq_dec [p] e)
    by (simpl; lia).
  revert H. generalize [p] as log0. generalize 0 as n.
  generalize (<[p := with_dirty true P]> s) as acc.
  change (@nil nat) with (@nil ref).
  assert (Hgen : forall l acc n log0,
            n <= count_occ Nat.eq_dec log0 e ->
            fold_left
              (fun acc e0 =>
                 match acc with
                 | None => None
                 | Some (s', log) =>
                     if Nat.eqb e0 p then Some (s', log)
                     else
                       match dirty_set_true_calls f s' e0 with
                       | None => None
                       | Some (s'', log') => Some (s'', log ++ log')
                       end
                 end) l (Some (acc, log0)) = Some (s', log) ->
            count_occ Nat.eq_dec l e + n <= count_occ Nat.eq_dec log e).
  { induction l as [|e0 l IHl]; intros acc n log0 Hn E; simpl in E.
    - injection E as <- <-. simpl. lia.
    - destruct (Nat.eqb_spec e0 p) as [->|Hne0].
      + simpl. destruct (Nat.eq_dec p e); [congruence|].
        eapply IHl; eauto.
      + destruct (dirty_set_true_calls f acc e0) as [[s2 log2]|] eqn:E2;
          [|now rewrite fold_calls_None in E].
        destruct (dirty_set_true_calls_head _ _ _ _ _ E2) as [tl ->].
        simpl. destruct (Nat.eq_dec e0 e) as [->|Hd].
        * specialize (IHl s2 (S n) (log0 ++ e :: tl)).
          rewrite count_occ_app in IHl. simpl in IHl.
          destruct (Nat.eq_dec e e); [|congruence].
          specialize (IHl ltac:(lia) E). lia.
        * eapply IHl; [|exact E]. rewrite count_occ_app. lia. }
  intros acc n log0 Hn E. specialize (Hgen (_children P) acc n log0).
  simpl in Hn. assert (n <= count_occ Nat.eq_dec log0 e) by lia.
  specialize (Hgen ltac:(assumption) E). lia.
Qed.

(** The logging cascade computes the same store as the cascade. *)
Lemma dirty_set_true_calls_store fuel :
  forall s r,
    dirty_set_true fuel s r =
    match dirty_set_true_calls fuel s r with
    | Some (s', _) => Some s'
    | None => None
    end.
Proof.
  induction fuel as [|f IHf]; intros s r; [reflexivity|]. simpl.
  destruct (upd s r (with_dirty true)) as [s1|]; [|reflexivity].
  destruct (s1 !! r) as [T|]; [|reflexivity].
  generalize [r] as log0. generalize s1 as acc.
  induction (_children T) as [|e l IHl]; intros acc log0; simpl;
    [reflexivity|].
  destruct (Nat.eqb e r); [apply IHl|].
  rewrite IHf. destruct (dirty_set_true_calls f acc e) as [[s2 log2]|].
  - apply IHl.
  - rewrite fold_calls_None. clear. induction l; simpl; auto.
Qed.

(** C10. The parent setter appends the receiver to the children array
    of a non-null argument [p] on every call, whatever [checkAncestor]
    answers; two assignments of the same parent leave two entries; and
    a dirty cascade from [p] calls the setter of an entry [e] (other
    than [p] itself) at least once for each of its occurrences in the
    array. *)
Theorem parent_setter_appends_child_on_every_call :
  (forall check fuel s this p cs s',
      children s p = Some cs ->
      set_parent_with check fuel s this (Some p) = Some s' ->
      children s' p = Some (cs ++ [this])) /\
  (forall f1 f2 s this p cs s1 s2,
      children s p = Some cs ->
      set_parent f1 s this (Some p) = Some s1 ->
      set_parent f2 s1 this (Some p) = Some s2 ->
      children s2 p = Some (cs ++ [this; this])) /\
  (forall fuel s p cs e s' log,
      children s p = Some cs -> e <> p ->
      dirty_set_true_calls fuel s p = Some (s', log) ->
      dirty_set_true fuel s p = Some s' /\
      count_occ Nat.eq_dec cs e <= count_occ Nat.eq_dec log e).
Proof.
  conjs.
  - apply set_parent_with_children.
  - intros f1 f2 s this p cs s1 s2 Hcs E1 E2.
    pose proof (set_parent_with_children _ _ _ _ _ _ _ Hcs E1) as H1.
    pose proof (set_parent_with_children _ _ _ _ _ _ _ H1 E2) as H2.
    now rewrite <- app_assoc in H2.
  - intros fuel s p cs e s' log Hcs Hne E. split.
    + now rewrite dirty_set_true_calls_store, E.
    + eapply dirty_set_true_calls_count; eauto.
Qed.

Lemma parent_setter_appends_child_witness :
  exists s1 s2 s3,
    set_parent 1 [initial; initial] 1 (Some 0) = Some s1 /\
    children s1 0 = Some [1] /\
    set_parent 1 s1 1 (Some 0) = Some s2 /\
    children s2 0 = Some [1; 1] /\
    dirty_set_true_calls 2 s2 0 = Some (s3, [0; 1; 1]) /\
    count_occ Nat.eq_dec [1; 1] 1 <= count_occ Nat.eq_dec [0; 1; 1] 1.
Proof.
  destruct parent_setter_appends_child_on_every_call as (A & B & C).
  exists [with_children [1] initial; with_parent (Some 0) initial],
         [with_children [1; 1] initial; with_parent (Some 0) initial],
         [with_children [1; 1] initial; with_parent (Some 0) initial].
  split; [reflexivity|].
  split; [exact (A checkAncestor 1 [initial; initial] 1 0 [] _ eq_refl eq_refl)|].
  split; [reflexivity|].
  split; [exact (B 1 1 [initial; initial] 1 0 [] _ _ eq_refl eq_refl eq_refl)|].
  split; [reflexivity|].
  refine (proj2 (C 2 [with_children [1; 1] initial;
                       with_parent (Some 0) initial] 0 [1; 1] 1
                   [with_children [1; 1] initial; with_parent (Some 0) initial]
                   [0; 1; 1] eq_refl _ eq_refl)).
  discriminate.
Defined.

(** *** Cycles *)

(** The store after [t.parent = t] on a fresh Transform [t]. *)
Lemma set_parent_self fuel :
  set_parent (S fuel) [initial] 0 (Some 0) =
  Some [with_dirty true (with_parent (Some 0) (with_children [0] initial))].
Proof. reflexivity. Qed.

(** A dirty node that is its own parent: the walk up the parent chain
    never ends. *)
Lemma getConcatenatedMatrix_self_parent fuel :
  forall s r T,
    s !! r = Some T -> _dirty T = true -> _parent T = Some r ->
    getConcatenatedMatrix fuel s r = None.
Proof.
  induction fuel as [|f IHf]; intros s r T HT Hd Hp; [reflexivity|].
  rewrite getConcatenatedMatrix_unfold, HT, Hd. cbv zeta. rewrite Hp.
  rewrite (IHf _ r (with_cachedConcatenatedMatrix (localMatrix T)
                      (with_matrix (localMatrix T) T)));
    [reflexivity|eapply insert_eq; eauto|exact Hd|exact Hp].
Qed.

(** Two nodes in each other's children array: the cascade never ends. *)
Lemma dirty_set_true_two_cycle fuel :
  forall s a b A B,
    s !! a = Some A -> s !! b = Some B -> a <> b ->
    b ∈ _children A -> a ∈ _children B ->
    dirty_set_true fuel s a = None.
Proof.
  induction fuel as [|f IHf]; intros s a b A B HA HB Hne Hb Ha; [reflexivity|].
  rewrite dirty_set_true_fold_unfold, (upd_ok _ _ _ _ HA).
  erewrite insert_eq by eassumption.
  change (_children (with_dirty true A)) with (_children A).
  assert (G : geom_store s (<[a := with_dirty true A]> s))
    by (eapply geom_store_insert; eauto using same_geom_with_dirty).
  assert (Hfold : forall l acc,
    b ∈ l -> geom_store s acc ->
    fold_left
      (fun acc0 e =>
         match acc0 with
         | None => None
         | Some s' => if Nat.eqb e a then Some s' else dirty_set_true f s' e
         end) l (Some acc) = None).
  { induction l as [|e l IHl]; intros acc Hin Ga; [inversion Hin|].
    simpl. apply elem_of_cons in Hin as [<-|Hin].
    - destruct (Nat.eqb_spec b a) as [->|_]; [congruence|].
      destruct (geom_store_lookup _ _ _ _ Ga HA) as (A' & HA' & GA).
      destruct (geom_store_lookup _ _ _ _ Ga HB) as (B' & HB' & GB).
      rewrite (IHf acc b a B' A' HB' HA'); [|congruence| |].
      + clear. induction l; simpl; auto.
      + destruct GB as (_ & _ & _ & _ & _ & <- & _); assumption.
      + destruct GA as (_ & _ & _ & _ & _ & <- & _); assumption.
    - destruct (Nat.eqb e a); [now apply IHl|].
      destruct (dirty_set_true f acc e) as [s2|] eqn:E2.
      + apply IHl; [assumption|].
        eapply geom_store_trans; [eassumption|].
        eapply dirty_set_true_geom; eauto.
      + clear. induction l; simpl; auto. }
  now apply Hfold.
Qed.

(** C2. [checkAncestor] answers [false] for every argument, so the
    parent setter installs whatever it is given.  For a fresh Transform
    [t], [t.parent = t] returns with [t] as its own parent and its own
    child, and the next [getConcatenatedMatrix] on [t] recurses until
    the stack overflows.  In the chain [t0 <- t1], the assignment
    [t0.parent = t1] is not refused either: the dirty cascade it starts
    never ends. *)
Theorem self_parent_assignment_is_installed :
  (forall s this value, checkAncestor s this value = false) /\
  new [] = Some (0, [initial]) /\
  parent [initial] 0 = Some None /\
  (forall fuel,
      exists s1,
        set_parent (S fuel) [initial] 0 (Some 0) = Some s1 /\
        parent s1 0 = Some (Some 0) /\
        children s1 0 = Some [0] /\
        forall fuel', getConcatenatedMatrix fuel' s1 0 = None) /\
  (exists s,
      chain 1 = Some s /\ parent s 1 = Some (Some 0) /\
      forall fuel, set_parent fuel s 0 (Some 1) = None).
Proof.
  conjs; try reflexivity.
  - intros fuel. eexists. rewrite set_parent_self.
    conjs; try reflexivity.
    intros fuel'. eapply getConcatenatedMatrix_self_parent; reflexivity.
  - eexists. conjs; try reflexivity.
    intros fuel. unfold set_parent, set_parent_with, checkAncestor, upd.
    simpl. eapply dirty_set_true_two_cycle with (b := 1);
      try reflexivity; try discriminate; simpl; now left.
Qed.

(** *** What a setter leaves behind, on any store *)

Lemma flag_up_refl T : flag_up T T.
Proof. now left. Qed.

Lemma flag_up_trans T1 T2 T3 : flag_up T1 T2 -> flag_up T2 T3 -> flag_up T1 T3.
Proof.
  unfold flag_up. intros [H1|H1] [H2|H2]; subst; auto.
Qed.

Lemma flag_up_geom T T' : flag_up T T' -> same_geom T T'.
Proof. intros [->| ->]; [apply same_geom_refl|apply same_geom_with_dirty]. Qed.

Lemma dirty_set_true_flags fuel :
  forall s r s',
    dirty_set_true fuel s r = Some s' ->
    rel_store flag_up s s' /\ dirty_in s' r.
Proof.
  induction fuel as [|f IHf]; intros s r s' E; [discriminate|].
  rewrite dirty_set_true_fold_unfold in E.
  destruct (upd s r (with_dirty true)) as [s1|] eqn:E1; [|discriminate].
  apply upd_Some in E1 as (T & HT & ->).
  erewrite insert_eq in E by eassumption.
  change (_children (with_dirty true T)) with (_children T) in E.
  assert (F1 : rel_store flag_up s (<[r := with_dirty true T]> s)).
  { eapply rel_store_insert; eauto using flag_up_refl. now right. }
  assert (D1 : dirty_in (<[r := with_dirty true T]> s) r).
  { exists (with_dirty true T). split; [eapply insert_eq; eauto|reflexivity]. }
  revert E F1 D1. generalize (<[r := with_dirty true T]> s) as acc.
  induction (_children T) as [|e l IHl]; intros acc E F D.
  - simpl in E. injection E as <-. auto.
  - simpl in E. destruct (Nat.eqb e r); [eauto|].
    destruct (dirty_set_true f acc e) as [s2|] eqn:E2.
    + destruct (IHf _ _ _ E2) as [F2 _]. apply (IHl s2 E).
      * eapply rel_store_trans; eauto using flag_up_trans.
      * destruct D as (U & HU & Hd).
        destruct (lookup_same_length acc s2 r U (proj1 F2) HU) as [U2 HU2].
        exists U2. split; [assumption|].
        destruct (proj2 F2 r U U2 HU HU2) as [->| ->]; auto.
    + exfalso. clear -E. induction l; simpl in E; [discriminate|auto].
Qed.

(** A field assignment followed by [this.dirty = true]. *)
Lemma assign_then_dirty fuel s r (g : t -> t) s' :
  match upd s r g with
  | Some s1 => set_dirty fuel s1 r true
  | None => None
  end = Some s' ->
  exists T, s !! r = Some T /\ s' !! r = Some (with_dirty true (g T)) /\
            rel_store flag_up (<[r := g T]> s) s'.
Proof.
  destruct (upd s r g) as [s1|] eqn:E1; [|discriminate].
  apply upd_Some in E1 as (T & HT & ->). unfold set_dirty. intros E.
  destruct (dirty_set_true_flags _ _ _ _ E) as [F (X & HX & Hd)].
  exists T. conjs; auto.
  rewrite HX. f_equal.
  destruct (proj2 F r (g T) X (insert_eq _ _ _ _ HT) HX) as [->| ->];
    [now rewrite with_dirty_true_id|reflexivity].
Qed.

End TransformFacts.

(** ** Facts about Camera *)
Module CameraFacts.
Import TransformSpec TransformFacts.
Local Open Scope R_scope.

(** Evaluate the program on concrete objects, leaving the arithmetic on
    numbers alone. *)
Ltac run :=
  cbv - [Rplus Rmult Rminus Ropp Rdiv Rinv IZR INR Rtrigo_def.cos
         Rtrigo_def.sin PI Rlt_dec Rle_dec Req_dec_T Rmin Rmax Zfloor Zceil].

(** Compare two objects field by field, down to the numbers. *)
Ltac fields :=
  repeat (match goal with
          | |- @eq R _ _ => fail 1
          | |- Some _ = Some _ => f_equal
          | |- (_, _) = (_, _) => f_equal
          | |- _ :: _ = _ :: _ => f_equal
          | |- Point.mk _ _ = Point.mk _ _ => f_equal
          | |- Matrix.mk _ _ _ _ _ _ = Matrix.mk _ _ _ _ _ _ => f_equal
          | |- Transform.mk _ _ _ _ _ _ _ _ _ _ =
               Transform.mk _ _ _ _ _ _ _ _ _ _ => f_equal
          | |- Camera.mk _ _ _ _ _ _ _ = Camera.mk _ _ _ _ _ _ _ => f_equal
          end).

(** The arithmetic that is left: all angles are zero. *)
Ltac numbers := rewrite ?cos_0, ?sin_0; try reflexivity; try lra; field; lra.

Ltac evaluate := run; fields; numbers.

(** C1. A camera whose transform is moved after a conversion keeps
    answering from its cached matrices.  An 800 x 600 camera at (0, 0)
    answers a first conversion, which clears its flag.  Then
    [camera.x = 10] sets the dirty flag of the Transform; the flag
    [transformStageToWorld] and [transformWorldToStage] test is the
    camera's own, which no setter writes, so [clean] does not run
    again: the stage point (0, 0) still maps to the world point
    (0, 0), and the camera and the store come back unchanged, while
    the camera's current concatenated matrix is the translation by
    (10, 0), whose inverse maps the point to (-10, 0). *)
Theorem camera_answers_from_stale_cache_after_move :
  Camera.transformStageToWorld 1 [CameraScenario.T0] CameraScenario.cam0
    (Point.mk 0 0) true =
  Some (Point.mk 0 0, CameraScenario.cam1, [CameraScenario.T1]) /\
  Camera.set_x 1 [CameraScenario.T1] CameraScenario.cam1 10 =
  Some [CameraScenario.T2] /\
  Camera.dirty CameraScenario.cam1 = false /\
  Transform.dirty [CameraScenario.T2] (Camera.transform CameraScenario.cam1) =
  Some true /\
  Camera.transformStageToWorld 1 [CameraScenario.T2] CameraScenario.cam1
    (Point.mk 0 0) true =
  Some (Point.mk 0 0, CameraScenario.cam1, [CameraScenario.T2]) /\
  Camera.transformWorldToStage 1 [CameraScenario.T2] CameraScenario.cam1
    (Point.mk 0 0) true =
  Some (Point.mk 0 0, CameraScenario.cam1, [CameraScenario.T2]) /\
  (exists s3,
      Transform.getConcatenatedMatrix 1 [CameraScenario.T2]
        (Camera.transform CameraScenario.cam1) =
      Some (Matrix.mk 1 0 0 1 10 0, s3)) /\
  Matrix.transformPoint (Matrix.invert (Matrix.mk 1 0 0 1 10 0)) (Point.mk 0 0) =
  Point.mk (-10) 0 /\
  Matrix.transformPoint (Matrix.mk 1 0 0 1 10 0) (Point.mk 0 0) = Point.mk 10 0.
Proof.
  conjs.
  - evaluate.
  - reflexivity.
  - reflexivity.
  - reflexivity.
  - evaluate.
  - evaluate.
  - eexists. run. fields; try reflexivity; numbers.
  - evaluate.
  - evaluate.
Qed.

(** A camera whose own flag is clear answers from its cached matrices,
    whatever the store holds. *)
Lemma clean_camera_ignores_store fuel s cam pt copy :
  Camera.dirty cam = false ->
  Camera.transformStageToWorld fuel s cam pt copy =
    Some (Matrix.transformPoint (Camera.inverted cam) pt, cam, s) /\
  Camera.transformWorldToStage fuel s cam pt copy =
    Some (Matrix.transformPoint (Camera.normal cam) pt, cam, s).
Proof.
  intros H. unfold Camera.transformStageToWorld, Camera.transformWorldToStage.
  rewrite H. now destruct copy.
Qed.

(** *** Resizing *)

(** [_updatedStageSize] never returns: when [setOrigin] has returned,
    the call of [setPivotPoint] throws. *)
Lemma updatedStageSize_eq fuel s cam w h :
  Camera._updatedStageSize fuel s cam w h =
  match Transform.setOrigin fuel s (Camera.transform cam) (- w / 2) (- h / 2) with
  | None => Camera.RangeError
  | Some s1 => Camera.TypeError (Camera.with_size w h cam) s1
  end.
Proof. reflexivity. Qed.

(** A setter on a node of a coherent store. *)
Lemma assign_coherent N fuel (s : Transform.store) k K
  (g : Transform.t -> Transform.t) :
  coherent N s -> s !! k = Some K -> (N <= fuel)%nat -> same_shape K (g K) ->
  exists s1,
    match Transform.upd s k g with
    | Some s1 => Transform.set_dirty fuel s1 k true
    | None => None
    end = Some s1 /\
    coherent N s1 /\ s1 !! k = Some (Transform.with_dirty true (g K)).
Proof.
  intros (rk & dp & B & Hc & Hr & Hk) HK Hf Hs.
  rewrite (upd_ok _ _ _ _ HK). unfold Transform.set_dirty.
  destruct (mutate_then_cascade_ok rk dp fuel s k K g Hc Hr Hk HK)
    as (s1 & E & Hc1 & Hr1 & Hk1 & _ & L & _);
    [destruct (B k); lia|exact Hs|].
  exists s1. conjs; auto. exists rk, dp. auto.
Qed.

(** On a coherent store the exception is the TypeError, and it leaves
    the camera with the new size and its Transform with the new origin,
    dirty, and with the pivot it had. *)
Lemma updatedStageSize_throws N fuel s cam w h T :
  coherent N s -> s !! Camera.transform cam = Some T -> (N <= fuel)%nat ->
  exists s',
    Camera._updatedStageSize fuel s cam w h =
      Camera.TypeError (Camera.with_size w h cam) s' /\
    coherent N s' /\
    s' !! Camera.transform cam =
      Some (Transform.with_dirty true
              (Transform.with_origin (Point.mk (- w / 2) (- h / 2)) T)).
Proof.
  intros C HT Hf. rewrite updatedStageSize_eq. unfold Transform.setOrigin.
  destruct (assign_coherent N fuel s _ T
              (Transform.with_origin (Point.mk (- w / 2) (- h / 2))) C HT Hf)
    as (s1 & -> & C1 & H1); [split; reflexivity|].
  exists s1. auto.
Qed.

Lemma core_updatedStageSize_result s cam w h cam' s' :
  CoreCamera._updatedStageSize s cam w h = Some (cam', s') ->
  CoreCamera.width cam' = w /\ CoreCamera.height cam' = h /\
  CoreCamera.transform cam' = CoreCamera.transform cam /\
  exists T T',
    s !! CoreCamera.transform cam = Some T /\
    s' !! CoreCamera.transform cam = Some T' /\
    Transform._origin T' = Point.mk (w / 2) (h / 2) /\
    Transform._pivotPoint T' = Point.mk (w / 2) (h / 2) /\
    Transform._dirty T' = Transform._dirty T.
Proof.
  unfold CoreCamera._updatedStageSize. simpl CoreCamera.transform.
  destruct (Transform.upd s (CoreCamera.transform cam) _) as [s1|] eqn:E1;
    [|discriminate].
  destruct (Transform.upd s1 (CoreCamera.transform cam) _) as [s2|] eqn:E2;
    [|discriminate].
  intros [= <- <-]. conjs; try reflexivity.
  apply upd_Some in E1 as (T & HT & ->).
  apply upd_Some in E2 as (T1 & HT1 & ->).
  erewrite insert_eq in HT1 by eassumption. injection HT1 as <-.
  exists T. eexists. split; [exact HT|].
  split; [eapply insert_eq; eapply insert_eq; eassumption|].
  conjs; reflexivity.
Qed.

Lemma core_updatedStageSize_returns s cam w h T :
  s !! CoreCamera.transform cam = Some T ->
  exists cam' s', CoreCamera._updatedStageSize s cam w h = Some (cam', s').
Proof.
  intros HT. unfold CoreCamera._updatedStageSize. simpl CoreCamera.transform.
  rewrite (upd_ok _ _ _ _ HT).
  erewrite upd_ok by (eapply insert_eq; eassumption).
  eauto.
Qed.

(** C8. What a resize does.  In the Camera that extends Transformable
    [_updatedStageSize] never returns: it assigns width and height,
    sets the origin of the Transform to [(-w/2, -h/2)] and then calls
    [transform.setPivotPoint], which Transform does not define.  For a
    camera that has answered a conversion and is resized to
    1024 x 768 the handler ends in that TypeError with the origin at
    (-512, -384), not (512, 384), the pivot where it was, and the
    camera's own dirty flag still [false].  In src/core/Camera.ts the
    handler returns with origin and pivot at (512, 384), written
    through the Points the getters return, so the dirty flag of the
    clean Transform is still [false]; that camera has no flag of its
    own. *)
Theorem resize_throws_before_the_pivot_is_set :
  (forall fuel s cam w h cam' s',
      Camera._updatedStageSize fuel s cam w h <> Camera.Returns cam' s') /\
  Camera._updatedStageSize 1 [CameraScenario.T1] CameraScenario.cam1 1024 768 =
    Camera.TypeError (Camera.with_size 1024 768 CameraScenario.cam1)
      [Transform.with_dirty true
         (Transform.with_origin (Point.mk (- 1024 / 2) (- 768 / 2))
            CameraScenario.T1)] /\
  Transform._origin
    (Transform.with_dirty true
       (Transform.with_origin (Point.mk (- 1024 / 2) (- 768 / 2))
          CameraScenario.T1)) <> Point.mk (1024 / 2) (768 / 2) /\
  Transform._pivotPoint
    (Transform.with_dirty true
       (Transform.with_origin (Point.mk (- 1024 / 2) (- 768 / 2))
          CameraScenario.T1)) = Transform._pivotPoint CameraScenario.T1 /\
  Transform._pivotPoint CameraScenario.T1 <> Point.mk (1024 / 2) (768 / 2) /\
  Camera.dirty (Camera.with_size 1024 768 CameraScenario.cam1) = false /\
  (exists cam' T',
      CoreCamera._updatedStageSize [CameraScenario.T1]
        (CoreCamera.mk 0%nat 800 600 None) 1024 768 = Some (cam', [T']) /\
      Transform._origin T' = Point.mk (1024 / 2) (768 / 2) /\
      Transform._pivotPoint T' = Point.mk (1024 / 2) (768 / 2) /\
      Transform._dirty CameraScenario.T1 = false /\
      Transform._dirty T' = false).
Proof.
  conjs.
  - intros fuel s cam w h cam' s'. rewrite updatedStageSize_eq.
    destruct (Transform.setOrigin fuel s _ _ _); discriminate.
  - reflexivity.
  - simpl. intros H. apply (f_equal Point.x) in H. simpl in H. lra.
  - reflexivity.
  - simpl. intros H. apply (f_equal Point.x) in H. simpl in H. lra.
  - reflexivity.
  - do 2 eexists. conjs; reflexivity.
Qed.

End CameraFacts.

(** ** Facts about Box2 *)
Module Box2Facts.
Import TransformSpec TransformFacts.
Local Open Scope R_scope.

Lemma Rltb_true u v : u < v -> JSMath.Rltb u v = true.
Proof. intros H. unfold JSMath.Rltb. now destruct (Rlt_dec u v). Qed.

Lemma Rltb_false u v : ~ u < v -> JSMath.Rltb u v = false.
Proof. intros H. unfold JSMath.Rltb. now destruct (Rlt_dec u v). Qed.

(** Decide every comparison of the goal by linear arithmetic. *)
Ltac compare :=
  repeat match goal with
         | |- context [JSMath.Rltb ?u ?v] =>
             first [rewrite (Rltb_true u v) by lra
                   |rewrite (Rltb_false u v) by lra]
         end.

Lemma Rltb_iff u v : JSMath.Rltb u v = true <-> u < v.
Proof.
  unfold JSMath.Rltb. destruct (Rlt_dec u v); split; auto; discriminate.
Qed.

(** The local matrix of a Transform without rotation and with scale
    (1, 1) is the translation to its position. *)
Lemma localMatrix_unrotated T :
  Transform._rotation T = 0 -> Transform._scale T = Point.mk 1 1 ->
  Transform.localMatrix T =
  Matrix.mk 1 0 0 1 (Point.x (Transform._xy T)) (Point.y (Transform._xy T)).
Proof.
  intros Hr Hs. unfold Transform.localMatrix, Matrix.setTo.
  rewrite Hr, Hs, cos_0, sin_0. simpl. apply MatrixFacts.mk_ext; ring.
Qed.

Lemma invertCopy_translation x y :
  Matrix.invertCopy (Matrix.mk 1 0 0 1 x y) = Matrix.mk 1 0 0 1 (- x) (- y).
Proof.
  unfold Matrix.invertCopy, Matrix.invert, Matrix.clone. simpl.
  apply MatrixFacts.mk_ext; field; lra.
Qed.

Lemma transformPoint_translation x y p :
  Matrix.transformPoint (Matrix.mk 1 0 0 1 x y) p =
  Point.mk (Point.x p + x) (Point.y p + y).
Proof. unfold Matrix.transformPoint. simpl. f_equal; ring. Qed.

(** The first read of a dirty Transform without parent. *)
Lemma getConcatenatedMatrix_root fuel (s : Transform.store) r T :
  s !! r = Some T -> Transform._dirty T = true -> Transform._parent T = None ->
  Transform.getConcatenatedMatrix (S fuel) s r =
  Some (Transform.localMatrix T,
        <[r := Transform.with_dirty false
                 (Transform.with_cachedConcatenatedMatrix
                    (Transform.localMatrix T)
                    (Transform.with_matrix (Transform.localMatrix T) T))]> s).
Proof.
  intros HT Hd Hp. rewrite getConcatenatedMatrix_unfold, HT, Hd. cbv zeta.
  rewrite Hp. erewrite upd_ok by (eapply insert_eq; eauto).
  rewrite list_insert_insert_eq. erewrite insert_eq by eassumption.
  reflexivity.
Qed.

Lemma Reqb_iff u v : Matrix.Reqb u v = true <-> u = v.
Proof.
  unfold Matrix.Reqb. destruct (Req_dec_T u v); split; auto; discriminate.
Qed.

Lemma Reqb_false u v : u <> v -> Matrix.Reqb u v = false.
Proof. intros H. unfold Matrix.Reqb. now destruct (Req_dec_T u v). Qed.

(** What [check] computes.  The box is dirty from its constructor on
    ([clean] does not clear the flag), so every call inverts the owner's
    concatenated matrix.  When that matrix has determinant 0 the answer
    is [false]; otherwise it compares the local point with the offset on
    the left and top and with the dimensions on the right and bottom. *)
Lemma check_computes fuel s box pt b box' s' :
  Box2._dirty box = true ->
  Box2.check fuel s box pt = Some (b, box', s') ->
  exists M,
    Transform.getConcatenatedMatrix fuel s (Box2.owner_transform box) =
      Some (M, s') /\
    Box2._dirty box' = true /\
    Box2._offset box' = Box2._offset box /\
    Box2._dimensions box' = Box2._dimensions box /\
    (Matrix.det M = 0 ->
     b = false /\ Box2._invertedTransformMatrix box' = Some Box2.NotFinite) /\
    (Matrix.det M <> 0 ->
     Box2._invertedTransformMatrix box' =
       Some (Box2.Finite (Matrix.invertCopy M)) /\
     let localPt := Matrix.transformPoint (Matrix.invertCopy M) pt in
     (b = true <->
      Point.x (Box2._offset box) < Point.x localPt < Point.x (Box2._dimensions box) /\
      Point.y (Box2._offset box) < Point.y localPt < Point.y (Box2._dimensions box))).
Proof.
  intros Hd. unfold Box2.check, Box2.clean. rewrite Hd.
  destruct (Transform.getConcatenatedMatrix fuel s (Box2.owner_transform box))
    as [[M s1]|]; [|discriminate].
  cbv iota beta. simpl Box2._invertedTransformMatrix.
  destruct (Matrix.Reqb (Matrix.det M) 0) eqn:Ed.
  - apply Reqb_iff in Ed. intros [= <- <- <-]. exists M.
    conjs; auto. intros Hn. contradiction.
  - assert (Hn : Matrix.det M <> 0).
    { intros H. apply Reqb_iff in H. congruence. }
    simpl. intros [= <- <- <-]. exists M. conjs; auto.
    + intros H. contradiction.
    + intros _. split; [reflexivity|].
      simpl. rewrite !andb_true_iff, !Rltb_iff. tauto.
Qed.

(** On a coherent store [check] returns. *)
Lemma check_returns N fuel s box pt :
  coherent N s -> is_Some (s !! Box2.owner_transform box) ->
  (N <= fuel)%nat -> Box2._dirty box = true ->
  exists b box' s' M,
    Box2.check fuel s box pt = Some (b, box', s') /\
    Transform.getConcatenatedMatrix fuel s (Box2.owner_transform box) =
      Some (M, s') /\
    World s (Box2.owner_transform box) M /\ coherent N s'.
Proof.
  intros C Hin Hf Hd.
  destruct (coherent_read N fuel s _ C Hin Hf) as (M & s' & E & W & C' & _).
  unfold Box2.check, Box2.clean. rewrite Hd, E.
  cbv iota beta. simpl Box2._invertedTransformMatrix.
  destruct (Matrix.Reqb (Matrix.det M) 0); do 4 eexists; conjs;
    try reflexivity; eauto.
Qed.

(** [check] on a box whose owner is an unrotated, unscaled Transform
    without parent. *)
Lemma check_unrotated_root fuel (s : Transform.store) box pt T :
  Box2._dirty box = true ->
  s !! Box2.owner_transform box = Some T ->
  Transform._dirty T = true -> Transform._parent T = None ->
  Transform._rotation T = 0 -> Transform._scale T = Point.mk 1 1 ->
  exists box' s',
    Box2.check (S fuel) s box pt =
    Some (JSMath.Rltb (Point.x (Box2._offset box))
            (Point.x pt + - Point.x (Transform._xy T))
          && JSMath.Rltb (Point.x pt + - Point.x (Transform._xy T))
               (Point.x (Box2._dimensions box))
          && JSMath.Rltb (Point.y (Box2._offset box))
               (Point.y pt + - Point.y (Transform._xy T))
          && JSMath.Rltb (Point.y pt + - Point.y (Transform._xy T))
               (Point.y (Box2._dimensions box)), box', s').
Proof.
  intros Hd HT HTd Hp Hr Hs. unfold Box2.check, Box2.clean. rewrite Hd.
  rewrite (getConcatenatedMatrix_root fuel s _ T HT HTd Hp).
  rewrite (localMatrix_unrotated T Hr Hs), invertCopy_translation.
  rewrite (Reqb_false (Matrix.det _) 0) by (unfold Matrix.det; simpl; lra).
  cbv iota beta. simpl Box2._invertedTransformMatrix. cbv iota beta zeta.
  rewrite transformPoint_translation. simpl. eauto.
Qed.

(** C4. In the scenario of the claim (offset (0, 0), dimensions
    (32, 32), owner at (100, 100)) [check] answers as the claim says.
    With offset (10, 10), dimensions (32, 32) and the owner at (0, 0),
    the point (35, 35) is mapped to the local point (35, 35), which is
    strictly inside (10, 42) x (10, 42), and [check] answers [false]:
    the right and bottom bounds it tests are the dimensions alone, not
    offset plus dimensions. *)
Theorem check_right_and_bottom_bounds_ignore_offset :
  Transform.setXY 1 [Transform.initial] 0 100 100 =
    Some [Transform.with_xy (Point.mk 100 100) Transform.initial] /\
  (exists box' s',
      Box2.check 1 [Transform.with_xy (Point.mk 100 100) Transform.initial]
        (Box2.new 0 0 0 32 32) (Point.mk 115 115) = Some (true, box', s')) /\
  (exists box' s',
      Box2.check 1 [Transform.with_xy (Point.mk 100 100) Transform.initial]
        (Box2.new 0 0 0 32 32) (Point.mk 99 99) = Some (false, box', s')) /\
  (exists box' s',
      Box2.check 1 [Transform.initial] (Box2.new 0 10 10 32 32)
        (Point.mk 35 35) = Some (false, box', s')) /\
  (exists s',
      Transform.getConcatenatedMatrix 1 [Transform.initial] 0 =
        Some (Matrix.mk 1 0 0 1 0 0, s')) /\
  Matrix.transformPoint (Matrix.invertCopy (Matrix.mk 1 0 0 1 0 0))
    (Point.mk 35 35) = Point.mk 35 35 /\
  10 < 35 < 10 + 32.
Proof.
  conjs.
  - reflexivity.
  - destruct (check_unrotated_root 0 [(Transform.with_xy (Point.mk 100 100) Transform.initial)]
                (Box2.new 0 0 0 32 32) (Point.mk 115 115)
                (Transform.with_xy (Point.mk 100 100) Transform.initial) eq_refl eq_refl eq_refl eq_refl eq_refl eq_refl)
      as (box' & s' & E).
    exists box', s'. rewrite E. simpl. compare. reflexivity.
  - destruct (check_unrotated_root 0 [(Transform.with_xy (Point.mk 100 100) Transform.initial)]
                (Box2.new 0 0 0 32 32) (Point.mk 99 99)
                (Transform.with_xy (Point.mk 100 100) Transform.initial) eq_refl eq_refl eq_refl eq_refl eq_refl eq_refl)
      as (box' & s' & E).
    exists box', s'. rewrite E. simpl. compare. reflexivity.
  - destruct (check_unrotated_root 0 [Transform.initial]
                (Box2.new 0 10 10 32 32) (Point.mk 35 35)
                Transform.initial eq_refl eq_refl eq_refl eq_refl eq_refl eq_refl)
      as (box' & s' & E).
    exists box', s'. rewrite E. simpl. compare. reflexivity.
  - eexists.
    rewrite (getConcatenatedMatrix_root 0 [Transform.initial] 0%nat
               Transform.initial eq_refl eq_refl eq_refl).
    rewrite (localMatrix_unrotated Transform.initial eq_refl eq_refl).
    reflexivity.
  - rewrite invertCopy_translation, transformPoint_translation. simpl.
    f_equal; lra.
  - lra.
  - lra.
Qed.

End Box2Facts.

(** ** Position writes that bypass the setters *)
Module PositionFacts.
Import Transform TransformSpec TransformFacts CameraFacts Box2Facts.
Local Open Scope R_scope.




End PositionFacts.

(** ** Facts about the tile layer *)
Module TileLayerFacts.
Import TransformSpec TransformFacts CameraFacts Box2Facts.
Import TileMapLayerDynamicOrthogonal.
Local Open Scope R_scope.

Lemma floor_eq (z : Z) v : IZR z <= v < IZR z + 1 -> JSMath.floor v = IZR z.
Proof. intros H. unfold JSMath.floor. now rewrite (Zfloor_eq z v H). Qed.

Lemma ceil_eq (z : Z) v : IZR z - 1 < v <= IZR z -> JSMath.ceil v = IZR z.
Proof. intros H. unfold JSMath.ceil. now rewrite (Zceil_eq z v H). Qed.

Lemma invert_clone_new : Matrix.invert (Matrix.clone Matrix.new) = CameraScenario.I.
Proof.
  unfold Matrix.invert, Matrix.clone, Matrix.new, CameraScenario.I. simpl.
  apply MatrixFacts.mk_ext; field; lra.
Qed.

Lemma transformPointInPlace_I p :
  Matrix.transformPointInPlace CameraScenario.I p = p.
Proof.
  destruct p. unfold Matrix.transformPointInPlace, CameraScenario.I. simpl.
  f_equal; lra.
Qed.

(** The first conversion of the scenario camera cleans it and maps
    every point to itself; so do the later ones. *)
Lemma scenario_first_conversion pt copy :
  Camera.transformStageToWorld 1 [CameraScenario.T0] CameraScenario.cam0
    pt copy = Some (pt, CameraScenario.cam1, [CameraScenario.T1]).
Proof. destruct pt, copy; evaluate. Qed.


(** [_calculateBoundaries] for a camera whose conversions map every
    point to itself, and a layer whose own matrix is the identity. *)
Lemma boundaries_identity fuel s cam s1 cam1 l W H :
  (forall pt, Camera.transformStageToWorld fuel s cam pt false =
              Some (pt, cam1, s1)) ->
  (forall pt, Camera.transformStageToWorld fuel s1 cam1 pt false =
              Some (pt, cam1, s1)) ->
  _calculateBoundaries fuel s l W H cam Matrix.new =
  Some (with_bounds
          (JSMath.clamp (JSMath.floor (JSMath.min4 0 W W 0 / tileWidth l))
             (width l + Point.x (offset l)) (Point.x (offset l)))
          (JSMath.clamp (JSMath.floor (JSMath.min4 0 0 H H / tileHeight l))
             (height l + Point.y (offset l)) (Point.y (offset l)))
          (JSMath.clamp (JSMath.ceil (JSMath.max4 0 W W 0 / tileWidth l))
             (width l + Point.x (offset l)) (Point.x (offset l)))
          (JSMath.clamp (JSMath.ceil (JSMath.max4 0 0 H H / tileHeight l))
             (height l + Point.y (offset l)) (Point.y (offset l)))
          (with_corners (Point.mk 0 0) (Point.mk W 0) (Point.mk W H)
             (Point.mk 0 H) l),
        cam1, s1).
Proof.
  intros H1 H2. unfold _calculateBoundaries.
  rewrite H1, !H2. rewrite invert_clone_new, !transformPointInPlace_I.
  reflexivity.
Qed.

Ltac minmax :=
  unfold JSMath.min4, JSMath.max4, JSMath.clamp, Rmin, Rmax;
  repeat destruct Rle_dec; lra.




End TileLayerFacts.

(** ** Facts about the vertex batch *)
Module RenderFacts.
Import TransformSpec TransformFacts CameraFacts Box2Facts TileLayerFacts.
Import BatchSpec.
Import TileMapLayerDynamicOrthogonal.
Local Open Scope R_scope.

Lemma at_index_elem_of {A : Type} (l : list A) (i : Z) (v : A) :
  Cell.at_index l i = Some v -> v ∈ l.
Proof.
  unfold Cell.at_index. destruct (i <? 0)%Z; [discriminate|].
  intros H. eapply list_elem_of_lookup_2; eauto.
Qed.

(** *** addToBatch *)

Lemma addToBatch_appends fuel s items entity items' s' :
  TextureAtlasRenderer.addToBatch fuel s items entity = Some (items', s') ->
  (Entity.alpha entity <= 0 /\ items' = items) \/
  (0 < Entity.alpha entity /\
   exists cells q,
     Entity.atlas entity = Some cells /\ items' = items ++ q /\
     full_quad cells q).
Proof.
  unfold TextureAtlasRenderer.addToBatch, JSMath.Rleb.
  destruct (Rle_dec (Entity.alpha entity) 0) as [Hle|Hgt].
  { intros [= <- <-]. now left. }
  destruct (Transform.getConcatenatedMatrix fuel s (Entity.transform entity))
    as [[m s1]|]; [|discriminate].
  destruct (Entity.atlas entity) as [cells|]; [|discriminate].
  destruct (Cell.at_index cells (Entity.cellIndex entity)) as [cell|] eqn:Ec;
    [|discriminate].
  intros [= <- <-]. right. split; [lra|].
  exists cells. eexists. conjs; [reflexivity|reflexivity|].
  exists cell. split; [eapply at_index_elem_of; eauto|].
  unfold quad_uv. do 9 eexists. reflexivity.
Qed.

(** *** renderGL *)

Lemma renderTile_appends this m x y v this' v' :
  renderTile this m x y v = Some (this', v') ->
  cells this' = cells this /\
  (v' = v \/ exists q, v' = v ++ q /\ inset_quad (cells this) q).
Proof.
  unfold renderTile. cbv zeta.
  destruct (getTileFromXY this x y) as [tt|]; [|discriminate]. simpl.
  destruct (TileType.cellIndex tt =? -1)%Z.
  { intros [= <- <-]. auto. }
  destruct (Cell.at_index (cells this) (TileType.cellIndex tt)) as [cell|] eqn:Ec;
    [|discriminate].
  intros [= <- <-]. split; [reflexivity|]. right.
  eexists. split; [reflexivity|].
  exists cell. split; [eapply at_index_elem_of; eauto|].
  unfold quad_uv, tileVertices. do 9 eexists. reflexivity.
Qed.

Lemma renderRow_appends fuel :
  forall this m x y v this' v',
    renderRow fuel this m x y v = Some (this', v') ->
    cells this' = cells this /\
    exists quads, v' = v ++ concat quads /\
                  Forall (inset_quad (cells this)) quads.
Proof.
  induction fuel as [|f IH]; intros this m x y v this' v' E; [discriminate|].
  simpl in E. destruct (JSMath.Rltb x (_maxX this)).
  - destruct (renderTile this m x y v) as [[this1 v1]|] eqn:E1; [|discriminate].
    apply renderTile_appends in E1 as [Hc H1].
    apply IH in E as [Hc' (quads & -> & HF)]. rewrite Hc in *.
    split; [assumption|].
    destruct H1 as [->|(q & -> & Hq)].
    + eauto.
    + exists (q :: quads). split; [simpl; now rewrite app_assoc|].
      now constructor.
  - injection E as <- <-. split; [reflexivity|].
    exists []. simpl. rewrite app_nil_r. auto.
Qed.

Lemma renderRows_unfold fuel this m y v :
  renderRows (S fuel) this m y v =
  if JSMath.Rltb y (_maxY this) then
    match renderRow (S fuel) this m (_startX this) y v with
    | None => None
    | Some (this1, v1) => renderRows fuel this1 m (y + 1) v1
    end
  else Some (this, v).
Proof. reflexivity. Qed.

Lemma renderRows_appends fuel :
  forall this m y v this' v',
    renderRows fuel this m y v = Some (this', v') ->
    cells this' = cells this /\
    exists quads, v' = v ++ concat quads /\
                  Forall (inset_quad (cells this)) quads.
Proof.
  induction fuel as [|f IH]; intros this m y v this' v' E; [discriminate|].
  rewrite renderRows_unfold in E. destruct (JSMath.Rltb y (_maxY this)).
  - destruct (renderRow (S f) this m (_startX this) y v)
      as [[this1 v1]|] eqn:E1; [|discriminate].
    apply renderRow_appends in E1 as [Hc (q1 & -> & HF1)].
    apply IH in E as [Hc' (q2 & -> & HF2)]. rewrite Hc in *.
    split; [assumption|].
    exists (q1 ++ q2). split; [now rewrite concat_app, app_assoc|].
    now apply Forall_app.
  - injection E as <- <-. split; [reflexivity|].
    exists []. simpl. rewrite app_nil_r. auto.
Qed.

Lemma calculateBoundaries_cells fuel s this sw sh cam m this' cam' s' :
  _calculateBoundaries fuel s this sw sh cam m = Some (this', cam', s') ->
  cells this' = cells this.
Proof.
  unfold _calculateBoundaries.
  repeat match goal with
         | |- context [Camera.transformStageToWorld ?f ?s ?c ?p ?b] =>
             destruct (Camera.transformStageToWorld f s c p b)
               as [[[? ?] ?]|]; [|discriminate]
         end.
  now intros [= <- <- <-].
Qed.

Lemma renderGL_appends fuel s this sw sh cam items items' this' cam' s' :
  renderGL fuel s this sw sh cam items = Some (items', this', cam', s') ->
  exists quads, items' = items ++ concat quads /\
                Forall (inset_quad (cells this)) quads.
Proof.
  unfold renderGL.
  destruct (Transform.getConcatenatedMatrix fuel s (transform this))
    as [[m s1]|]; [|discriminate].
  destruct (_calculateBoundaries fuel s1 this sw sh cam m)
    as [[[this1 cam1] s2]|] eqn:Eb; [|discriminate].
  destruct (renderRows fuel this1 m (_startY this1) [])
    as [[this2 v1]|] eqn:Er; [|discriminate].
  intros [= <- <- <- <-].
  apply calculateBoundaries_cells in Eb.
  apply renderRows_appends in Er as [_ (quads & -> & HF)].
  rewrite Eb in HF. exists quads. split; [reflexivity|assumption].
Qed.

(** *** The one-tile layer and the sprite, evaluated *)

Ltac run' :=
  cbv - [Rplus Rmult Rminus Ropp Rdiv Rinv IZR INR Rtrigo_def.cos
         Rtrigo_def.sin PI Rlt_dec Rle_dec Req_dec_T Rmin Rmax Zfloor Zceil
         Matrix.Reqb JSMath.Rltb JSMath.Rleb JSMath.floor JSMath.ceil
         JSMath.min4 JSMath.max4 JSMath.clamp].

Lemma Reqb_true u v : u = v -> Matrix.Reqb u v = true.
Proof. intros ->. unfold Matrix.Reqb. now destruct (Req_dec_T v v). Qed.

Lemma Rleb_false u v : v < u -> JSMath.Rleb u v = false.
Proof. intros H. unfold JSMath.Rleb. destruct (Rle_dec u v); [lra|reflexivity]. Qed.

Lemma renderRow_unfold fuel this m x y v :
  renderRow (S fuel) this m x y v =
  if JSMath.Rltb x (_maxX this) then
    match renderTile this m x y v with
    | None => None
    | Some (this1, v1) => renderRow fuel this1 m (x + 1) y v1
    end
  else Some (this, v).
Proof. reflexivity. Qed.

Example sprite_batch :
  exists s',
    TextureAtlasRenderer.addToBatch 1 [Transform.initial] [] sprite =
    Some ([ 0; 0; 0; 0; 1;
            32; 0; 0 + 32; 0; 1;
            32; 32; 0 + 32; 0 + 32; 1;
            0; 32; 0; 0 + 32; 1 ], s').
Proof.
  eexists. unfold TextureAtlasRenderer.addToBatch.
  cbv [sprite Entity.transform Entity.alpha Entity.atlas Entity.cellIndex
       Entity._alpha Entity._cellIndex].
  rewrite (Rleb_false 1 0) by lra.
  rewrite (getConcatenatedMatrix_root 0 [Transform.initial] 0%nat
             Transform.initial eq_refl eq_refl eq_refl).
  rewrite (localMatrix_unrotated Transform.initial eq_refl eq_refl).
  run'. fields; try reflexivity; lra.
Qed.

Lemma tiny_first_conversion pt copy :
  Camera.transformStageToWorld 2 tinyStore1 tinyCamera pt copy =
  Some (pt, tinyCamera1, tinyStore2).
Proof. destruct pt, copy; evaluate. Qed.

Lemma tiny_next_conversion pt copy :
  Camera.transformStageToWorld 2 tinyStore2 tinyCamera1 pt copy =
  Some (pt, tinyCamera1, tinyStore2).
Proof. destruct pt, copy; evaluate. Qed.

Lemma tiny_boundaries :
  _calculateBoundaries 2 tinyStore1 tinyLayer 32 32 tinyCamera Matrix.new =
  Some (with_bounds 0 0 1 1
          (with_corners (Point.mk 0 0) (Point.mk 32 0) (Point.mk 32 32)
             (Point.mk 0 32) tinyLayer),
        tinyCamera1, tinyStore2).
Proof.
  rewrite (boundaries_identity 2 _ _ tinyStore2 tinyCamera1)
    by (intros; first [apply tiny_first_conversion
                      |apply tiny_next_conversion]).
  simpl tileWidth. simpl tileHeight. simpl width. simpl height.
  simpl Point.x. simpl Point.y.
  replace (JSMath.min4 0 32 32 0) with 0 by minmax.
  replace (JSMath.min4 0 0 32 32) with 0 by minmax.
  replace (JSMath.max4 0 32 32 0) with 32 by minmax.
  replace (JSMath.max4 0 0 32 32) with 32 by minmax.
  rewrite (floor_eq 0 (0 / 32)) by lra.
  rewrite (ceil_eq 1 (32 / 32)) by lra.
  replace (JSMath.clamp 0 (1 + 0) 0) with 0 by minmax.
  replace (JSMath.clamp 1 (1 + 0) 0) with 1 by minmax.
  reflexivity.
Qed.

(** C7. The quads of [addToBatch] are not inset.  Every call either
    leaves the batch as it is or appends one quad whose far-edge
    texture coordinates are [cell.x + cell.w] and [cell.y + cell.h].
    For an entity showing the cell (0, 0, 32, 32) the right-edge [u]
    and the bottom-edge [v] are 32, where the inset of the claim gives
    31; the tile layer's [renderGL] computes
    [cell.x + cell.w - 1] and [cell.y + cell.h - 1] for the same
    cell. *)
Theorem addToBatch_far_edge_is_not_inset :
  (forall fuel s items entity,
      match TextureAtlasRenderer.addToBatch fuel s items entity with
      | Some (items', _) =>
          items' = items \/
          exists cells q,
            Entity.atlas entity = Some cells /\ items' = items ++ q /\
            full_quad cells q
      | None => True
      end) /\
  (exists s',
      TextureAtlasRenderer.addToBatch 1 [Transform.initial] [] sprite =
      Some ([ 0; 0; 0; 0; 1;
              32; 0; 0 + 32; 0; 1;
              32; 32; 0 + 32; 0 + 32; 1;
              0; 32; 0; 0 + 32; 1 ], s')) /\
  0 + 32 <> Cell.x cell0 + Cell.w cell0 - 1 /\
  0 + 32 <> Cell.y cell0 + Cell.h cell0 - 1 /\
  (forall c1 c2 c3 c4 alpha,
      quad_uv (tileVertices c1 c2 c3 c4 cell0 alpha)
        (Cell.x cell0) (Cell.y cell0)
        (Cell.x cell0 + Cell.w cell0 - 1) (Cell.y cell0 + Cell.h cell0 - 1)).
Proof.
  conjs.
  - intros fuel s items entity.
    destruct (TextureAtlasRenderer.addToBatch fuel s items entity)
      as [[items' s']|] eqn:E; [|exact Logic.I].
    destruct (addToBatch_appends _ _ _ _ _ _ E)
      as [[_ ->]|(_ & cells & q & Ha & -> & Hq)]; [now left|right].
    exists cells, q. auto.
  - eexists. unfold TextureAtlasRenderer.addToBatch.
    cbv [sprite Entity.transform Entity.alpha Entity.atlas Entity.cellIndex
         Entity._alpha Entity._cellIndex].
    rewrite (Rleb_false 1 0) by lra.
    rewrite (getConcatenatedMatrix_root 0 [Transform.initial] 0%nat
               Transform.initial eq_refl eq_refl eq_refl).
    rewrite (localMatrix_unrotated Transform.initial eq_refl eq_refl).
    run'. fields; try reflexivity; lra.
  - simpl. lra.
  - simpl. lra.
  - intros c1 c2 c3 c4 alpha. unfold quad_uv, tileVertices.
    do 9 eexists. reflexivity.
Qed.

End RenderFacts.

(** ** More about Matrix: composition and inversion *)
Module MatrixAlgebra.
Import Matrix MatrixFacts TransformFacts.
Local Open Scope R_scope.

(** X1. In exact arithmetic, [multiplyMatrix] is associative and the
    identity matrix (what [Matrix.identity()], [new Matrix()] and
    [setIdentity] give) is neutral on both sides.  (The fields are real
    numbers here; the rounding of the program's floating-point products
    and sums is not modelled.) *)
Theorem multiplyMatrix_associative_with_identity :
  (forall m1 m2 m3,
      multiplyMatrix (multiplyMatrix m1 m2) m3 =
      multiplyMatrix m1 (multiplyMatrix m2 m3)) /\
  (forall m, multiplyMatrix identity m = m /\ multiplyMatrix m identity = m) /\
  (forall m, setIdentity m = identity /\ identity = new).
Proof.
  conjs.
  - apply multiplyMatrix_assoc.
  - intros m. split; [apply multiplyMatrix_new_l|apply multiplyMatrix_new_r].
  - intros m. split; reflexivity.
Qed.

(** X2. In exact arithmetic, mapping a point through
    [a.multiplyMatrix(b)] is mapping it through [b] first and through
    [a] second; the in-place variant computes the same point as
    [transformPoint] (this last part by the same operations in the same
    order). *)
Theorem transformPoint_of_product m1 m2 p :
  transformPoint (multiplyMatrix m1 m2) p =
  transformPoint m1 (transformPoint m2 p) /\
  transformPointInPlace (multiplyMatrix m1 m2) p =
  transformPointInPlace m1 (transformPointInPlace m2 p) /\
  transformPointInPlace m1 p = transformPoint m1 p.
Proof.
  conjs.
  - apply transformPoint_multiplyMatrix.
  - rewrite !transformPointInPlace_eq. apply transformPoint_multiplyMatrix.
  - reflexivity.
Qed.

(** X3. For a matrix with non-zero determinant, in exact arithmetic,
    [invertCopy] undoes the point map in both directions, [invert] is
    an involution, and the inverse has the reciprocal determinant. *)
Theorem invert_undoes_transformPoint m p :
  det m <> 0 ->
  transformPoint (invertCopy m) (transformPoint m p) = p /\
  transformPoint m (transformPoint (invertCopy m) p) = p /\
  invert (invert m) = m /\
  det (invert m) = / det m.
Proof.
  intros Hd. conjs.
  - rewrite <- transformPoint_multiplyMatrix,
      invertCopy_multiplyMatrix_exact by assumption.
    apply transformPoint_new.
  - rewrite <- transformPoint_multiplyMatrix,
      multiplyMatrix_invertCopy_exact by assumption.
    apply transformPoint_new.
  - now apply invert_invert_exact.
  - destruct m as [a0 b0 c0 d0 x0 y0]. unfold det, invert in *. simpl in *.
    field. exact Hd.
Qed.

Lemma invert_undoes_transformPoint_witness :
  transformPoint (invertCopy (mk 2 0 0 4 1 1))
    (transformPoint (mk 2 0 0 4 1 1) (Point.mk 3 5)) = Point.mk 3 5.
Proof.
  refine (proj1 (invert_undoes_transformPoint (mk 2 0 0 4 1 1) (Point.mk 3 5) _)).
  unfold det. simpl. lra.
Defined.

(** X4. In exact arithmetic, the determinant of a product is the
    product of the determinants, so a product of matrices with non-zero
    determinant has a non-zero determinant, and its inverse is the
    product of the inverses in the opposite order. *)
Theorem invert_of_product m1 m2 :
  det m1 <> 0 -> det m2 <> 0 ->
  det (multiplyMatrix m1 m2) = det m1 * det m2 /\
  det (multiplyMatrix m1 m2) <> 0 /\
  invertCopy (multiplyMatrix m1 m2) =
  multiplyMatrix (invertCopy m2) (invertCopy m1).
Proof.
  intros H1 H2.
  assert (Hd : det (multiplyMatrix m1 m2) = det m1 * det m2).
  { destruct m1, m2. unfold det, multiplyMatrix. simpl. ring. }
  conjs; [assumption| |].
  - rewrite Hd. now apply Rmult_integral_contrapositive_currified.
  - destruct m1 as [a1 b1 c1 d1 x1 y1], m2 as [a2 b2 c2 d2 x2 y2].
    unfold det, invertCopy, invert, clone, multiplyMatrix in *. simpl in *.
    apply mk_ext; field; repeat split; try assumption;
      (replace ((a1 * a2 + c1 * b2) * (b1 * c2 + d1 * d2) -
                (b1 * a2 + d1 * b2) * (a1 * c2 + c1 * d2))
         with ((a1 * d1 - b1 * c1) * (a2 * d2 - b2 * c2)) by ring;
       now apply Rmult_integral_contrapositive_currified).
Qed.

Lemma invert_of_product_witness :
  invertCopy (multiplyMatrix (mk 2 0 0 4 1 1) (mk 1 1 0 1 0 3)) =
  multiplyMatrix (invertCopy (mk 1 1 0 1 0 3)) (invertCopy (mk 2 0 0 4 1 1)).
Proof.
  refine (proj2 (proj2 (invert_of_product (mk 2 0 0 4 1 1) (mk 1 1 0 1 0 3) _ _)));
    unfold det; simpl; lra.
Defined.

(** X5. [equals] answers [true] exactly for two matrices with the same
    six fields; in particular a matrix equals its clone, and a matrix
    set from another with [setTo] or [setToMatrix] equals it. *)
Theorem equals_iff_same_fields m1 m2 :
  (equals m1 m2 = true <-> m1 = m2) /\
  equals m1 (clone m1) = true /\
  equals (setToMatrix m2 m1) m1 = true /\
  equals (setTo m2 (a m1) (b m1) (c m1) (d m1) (tx m1) (ty m1)) m1 = true.
Proof.
  assert (Hr : forall u v, Reqb u v = true <-> u = v).
  { intros u v. unfold Reqb. destruct (Req_dec_T u v); split; auto; discriminate. }
  assert (Hiff : forall x y, equals x y = true <-> x = y).
  { intros x y. unfold equals. rewrite !andb_true_iff, !Hr. split.
    - intros (((((H1 & H2) & H3) & H4) & H5) & H6).
      destruct x, y; simpl in *. now subst.
    - intros ->. auto 10. }
  conjs.
  - apply Hiff.
  - apply Hiff. now rewrite clone_id.
  - apply Hiff. apply setToMatrix_eq.
  - apply Hiff. now destruct m1.
Qed.

End MatrixAlgebra.

(** ** More about Transform *)
Module TransformMore.
Import Transform TransformSpec TransformFacts GeometrySpec.
Local Open Scope R_scope.

(** X6. The local matrix maps a point by rotating it about the pivot,
    then scaling the result about the origin, then translating it by
    the position; neither the dirty flag nor the matrices held by the
    node enter into it. *)
Theorem localMatrix_rotates_scales_translates T p :
  Matrix.transformPoint (localMatrix T) p =
  translateBy (_xy T)
    (scaleAbout (_origin T) (_scale T)
       (rotateAbout (_pivotPoint T) (_rotation T) p)) /\
  (forall b m1 m2,
      localMatrix (with_dirty b (with_matrix m1
                     (with_cachedConcatenatedMatrix m2 T))) = localMatrix T).
Proof.
  split.
  - unfold localMatrix, Matrix.setTo, Matrix.transformPoint, translateBy,
      scaleAbout, rotateAbout. simpl. f_equal; ring.
  - intros b m1 m2. reflexivity.
Qed.

(** X7. In exact arithmetic, the determinant of the local matrix is
    the product of the two scale factors, whatever the rotation,
    origin, pivot and position; and with rotation 0 and scale (1, 1)
    the local matrix is the translation to the position: origin and
    pivot play no part. *)
Theorem localMatrix_determinant_and_unrotated T :
  Matrix.det (localMatrix T) = Point.x (_scale T) * Point.y (_scale T) /\
  (Matrix.det (localMatrix T) <> 0 <->
   Point.x (_scale T) <> 0 /\ Point.y (_scale T) <> 0) /\
  (forall o pv xy m1 m2 d cs par,
      localMatrix (mk d o pv (Point.mk 1 1) xy 0 m1 m2 cs par) =
      Matrix.mk 1 0 0 1 (Point.x xy) (Point.y xy)).
Proof.
  assert (Hd : Matrix.det (localMatrix T) =
               Point.x (_scale T) * Point.y (_scale T)).
  { unfold localMatrix, Matrix.setTo, Matrix.det. simpl.
    pose proof (sin2_cos2 (_rotation T)) as H. unfold Rsqr in H.
    set (c := Rtrigo_def.cos (_rotation T)) in *.
    set (sn := Rtrigo_def.sin (_rotation T)) in *.
    replace (c * Point.x (_scale T) * (c * Point.y (_scale T)) -
             - sn * Point.y (_scale T) * (sn * Point.x (_scale T)))
      with ((sn * sn + c * c) * (Point.x (_scale T) * Point.y (_scale T)))
      by ring.
    rewrite H. ring. }
  conjs.
  - exact Hd.
  - rewrite Hd. split.
    + intros H. split; intros E; apply H; rewrite E; ring.
    + intros [H1 H2]. now apply Rmult_integral_contrapositive_currified.
  - intros. unfold localMatrix, Matrix.setTo. simpl.
    rewrite cos_0, sin_0. apply MatrixFacts.mk_ext; ring.
Qed.

(** *** Reads *)

Lemma getConcatenatedMatrix_leaves_clean fuel s r M s' :
  getConcatenatedMatrix fuel s r = Some (M, s') ->
  exists T', s' !! r = Some T' /\ _dirty T' = false /\
             _cachedConcatenatedMatrix T' = M.
Proof.
  destruct fuel as [|f]; [discriminate|].
  rewrite getConcatenatedMatrix_unfold.
  destruct (s !! r) as [T|] eqn:HT; [|discriminate].
  destruct (_dirty T) eqn:Hd.
  2:{ intros [= <- <-]. eauto. }
  cbv zeta.
  destruct (match _parent T with Some _ => _ | None => _ end) as [s3|];
    [|discriminate].
  destruct (upd s3 r (with_dirty false)) as [s4|] eqn:E4; [|discriminate].
  apply upd_Some in E4 as (T3 & HT3 & ->).
  erewrite insert_eq by eassumption.
  intros [= <- <-]. eexists. split; [eapply insert_eq; eassumption|].
  split; reflexivity.
Qed.

(** X8. A second [getConcatenatedMatrix] on the same node, with nothing
    done in between, returns the same matrix and leaves the store as it
    is: the node is clean after the first call and answers from its
    cache. *)
Theorem getConcatenatedMatrix_twice fuel fuel' s r M s' :
  getConcatenatedMatrix fuel s r = Some (M, s') ->
  getConcatenatedMatrix (S fuel') s' r = Some (M, s') /\
  dirty s' r = Some false.
Proof.
  intros E.
  destruct (getConcatenatedMatrix_leaves_clean _ _ _ _ _ E) as (T' & HT' & Hd & Hc).
  split.
  - rewrite getConcatenatedMatrix_unfold, HT', Hd. now rewrite Hc.
  - unfold dirty. now rewrite HT', Hd.
Qed.

Lemma getConcatenatedMatrix_twice_witness :
  exists M s',
    getConcatenatedMatrix 3 chain3 2 = Some (M, s') /\
    getConcatenatedMatrix 1 s' 2 = Some (M, s').
Proof.
  destruct (coherent_read 3 3 chain3 2 chain3_coherent) as (M & s' & E & _);
    [apply chain3_lookup; lia|lia|].
  exists M, s'. split; [exact E|].
  exact (proj1 (getConcatenatedMatrix_twice 3 0 chain3 2 M s' E)).
Defined.

Lemma read_change_refl T : read_change T T.
Proof. split; [apply same_geom_refl|auto]. Qed.

Lemma read_change_trans T1 T2 T3 :
  read_change T1 T2 -> read_change T2 T3 -> read_change T1 T3.
Proof.
  intros [G1 D1] [G2 D2]. split; [eapply same_geom_trans; eauto|auto].
Qed.

Lemma getConcatenatedMatrix_read_change fuel :
  forall s r M s',
    getConcatenatedMatrix fuel s r = Some (M, s') ->
    rel_store read_change s s'.
Proof.
  induction fuel as [|f IHf]; intros s r M s' E; [discriminate|].
  rewrite getConcatenatedMatrix_unfold in E.
  destruct (s !! r) as [T|] eqn:HT; [|discriminate].
  destruct (_dirty T) eqn:Hd.
  2:{ injection E as <- <-. apply rel_store_refl, read_change_refl. }
  cbv zeta in E.
  set (T2 := with_cachedConcatenatedMatrix (localMatrix T)
               (with_matrix (localMatrix T) T)) in *.
  assert (R2 : rel_store read_change s (<[r := T2]> s)).
  { eapply rel_store_insert; eauto using read_change_refl.
    split; [repeat split|auto]. }
  assert (Hfin : forall s3,
             rel_store read_change s s3 ->
             match upd s3 r (with_dirty false) with
             | Some s4 =>
                 match s4 !! r with
                 | Some T4 => Some (_cachedConcatenatedMatrix T4, s4)
                 | None => None
                 end
             | None => None
             end = Some (M, s') -> rel_store read_change s s').
  { intros s3 R3 E3.
    destruct (upd s3 r (with_dirty false)) as [s4|] eqn:E4; [|discriminate].
    apply upd_Some in E4 as (T3 & HT3 & ->).
    erewrite insert_eq in E3 by eassumption. injection E3 as _ <-.
    eapply rel_store_trans; [apply read_change_trans|exact R3|].
    eapply rel_store_insert; eauto using read_change_refl.
    split; [apply same_geom_with_dirty|discriminate]. }
  destruct (_parent T) as [p|].
  - destruct (getConcatenatedMatrix f (<[r := T2]> s) p) as [[pm s1]|] eqn:Ep;
      [|discriminate].
    apply IHf in Ep.
    destruct (upd s1 r _) as [s3|] eqn:E3 in E; [|discriminate].
    apply upd_Some in E3 as (T1 & HT1 & ->).
    eapply Hfin; [|exact E].
    eapply rel_store_trans; [apply read_change_trans|exact R2|].
    eapply rel_store_trans; [apply read_change_trans|exact Ep|].
    eapply rel_store_insert; eauto using read_change_refl.
    split; [repeat split|auto].
  - eapply Hfin; [exact R2|exact E].
Qed.

(** X9. [getConcatenatedMatrix] writes to nothing but dirty flags and
    the two matrices held by nodes: position, scale, rotation, origin,
    pivot, children and parent of every node are as before, no node is
    added or removed, and no dirty flag is raised. *)
Theorem getConcatenatedMatrix_keeps_geometry fuel s r M s' :
  getConcatenatedMatrix fuel s r = Some (M, s') ->
  length s' = length s /\
  forall u U,
    s !! u = Some U ->
    exists U',
      s' !! u = Some U' /\
      _xy U' = _xy U /\ _scale U' = _scale U /\ _rotation U' = _rotation U /\
      _origin U' = _origin U /\ _pivotPoint U' = _pivotPoint U /\
      _children U' = _children U /\ _parent U' = _parent U /\
      (_dirty U' = true -> _dirty U = true).
Proof.
  intros E. destruct (getConcatenatedMatrix_read_change _ _ _ _ _ E) as [L H].
  split; [now symmetry|]. intros u U HU.
  destruct (lookup_same_length s s' u U L HU) as [U' HU'].
  destruct (H u U U' HU HU') as [(G1 & G2 & G3 & G4 & G5 & G6 & G7) D].
  exists U'. conjs; auto.
Qed.

Lemma getConcatenatedMatrix_keeps_geometry_witness :
  length chain3_read = length chain3.
Proof.
  destruct (coherent_read 3 3 chain3 2 chain3_coherent) as (M & s' & E & _);
    [apply chain3_lookup; lia|lia|].
  unfold chain3_read. rewrite E.
  exact (proj1 (getConcatenatedMatrix_keeps_geometry 3 chain3 2 M s' E)).
Defined.

(** *** The dirty setter *)

(** X10. [dirty = true] changes nothing but dirty flags, clears none of
    them, adds and removes no node, and leaves the receiver dirty;
    [dirty = false] clears the flag of the receiver and touches no other
    node. *)
Theorem dirty_setter_writes_flags_only fuel s r s' :
  (set_dirty fuel s r true = Some s' ->
   length s' = length s /\ dirty s' r = Some true /\
   forall u U, s !! u = Some U ->
               s' !! u = Some U \/ s' !! u = Some (with_dirty true U)) /\
  (set_dirty fuel s r false = Some s' ->
   exists T, s !! r = Some T /\ s' !! r = Some (with_dirty false T) /\
             length s' = length s /\
             forall u, u <> r -> s' !! u = s !! u).
Proof.
  split.
  - unfold set_dirty. intros E.
    destruct (dirty_set_true_flags _ _ _ _ E) as [[L H] (X & HX & Hd)].
    conjs; [now symmetry| |].
    + unfold dirty. now rewrite HX, Hd.
    + intros u U HU. destruct (lookup_same_length s s' u U L HU) as [U' HU'].
      destruct (H u U U' HU HU') as [->| ->]; auto.
  - unfold set_dirty. intros E. apply upd_Some in E as (T & HT & ->).
    exists T. conjs; auto.
    + eapply insert_eq; eauto.
    + apply length_insert.
    + intros u Hu. now apply insert_ne.
Qed.

Lemma dirty_setter_writes_flags_only_witness :
  exists s', set_dirty 3 chain3_read 0 true = Some s' /\
             length s' = length chain3_read /\ dirty s' 0 = Some true.
Proof.
  destruct chain3_read_coherent as [(rk & dp & B & Hc & Hr & Hk) G].
  destruct (chain3_read_lookup 0%nat) as [K HK]; [lia|].
  destruct (dirty_set_true_ok rk dp 3 chain3_read 0%nat Hc Hr (ex_intro _ K HK))
    as (s' & E' & _); [destruct (B 0%nat); lia|].
  exists s'. split; [exact E'|].
  destruct (dirty_setter_writes_flags_only 3 chain3_read 0 s') as [A _].
  destruct (A E') as (L & D & _). auto.
Defined.

(** *** Cached matrices *)

(** X11. On a coherent store (forest-shaped links, every clean cache
    up to date), with fuel for the depth of the forest,
    [getConcatenatedMatrix] returns, its result is the product of the
    local matrices from the root-most ancestor down to the node, and
    the store it leaves is coherent again: every node that is clean
    afterwards caches exactly that product for itself. *)
Theorem getConcatenatedMatrix_is_product_along_chain N fuel s r :
  coherent N s -> is_Some (s !! r) -> (N <= fuel)%nat ->
  exists M s',
    getConcatenatedMatrix fuel s r = Some (M, s') /\
    World s r M /\ World s' r M /\ coherent N s' /\
    forall u U', s' !! u = Some U' -> _dirty U' = false ->
                 World s' u (_cachedConcatenatedMatrix U').
Proof.
  intros C Hin Hf.
  destruct (coherent_read N fuel s r C Hin Hf) as (M & s' & E & W & C' & G).
  exists M, s'. conjs; auto.
  - eapply World_geom; eauto.
  - destruct C' as (rk & dp & _ & _ & _ & Hk). intros u U' HU' Hd.
    apply (Hk u U' HU' Hd).
Qed.

Lemma getConcatenatedMatrix_is_product_witness :
  exists M s',
    getConcatenatedMatrix 3 chain3 2 = Some (M, s') /\ World chain3 2 M.
Proof.
  destruct (getConcatenatedMatrix_is_product_along_chain 3 3 chain3 2
              chain3_coherent) as (M & s' & E & W & _);
    [apply chain3_lookup; lia|lia|].
  eauto.
Defined.

(** *** The other geometry setters *)




(** *** The parent setter *)

Lemma dirty_geom s s' r : geom_store s s' -> dirty_in s' r -> dirty s' r = Some true.
Proof. intros _ (X & HX & Hd). unfold dirty. now rewrite HX, Hd. Qed.

Lemma set_parent_effect fuel s this value s' :
  set_parent fuel s this value = Some s' ->
  parent s' this = Some value /\ dirty s' this = Some true /\
  (forall u, u <> this -> parent s' u = parent s u) /\
  (forall u cs, children s u = Some cs ->
     (value = Some u /\ children s' u = Some (cs ++ [this])) \/
     (value <> Some u /\ children s' u = Some cs)).
Proof.
  unfold set_parent, set_parent_with, checkAncestor. simpl negb. cbv iota.
  destruct (match value with Some p => _ | None => Some s end) as [s1|] eqn:E1;
    [|discriminate].
  destruct (upd s1 this (with_parent value)) as [s2|] eqn:E2; [|discriminate].
  apply upd_Some in E2 as (T1 & HT1 & ->). unfold set_dirty. intros E.
  destruct (dirty_set_true_flags _ _ _ _ E) as [_ D].
  apply dirty_set_true_geom in E.
  assert (P1 : forall u, u <> this ->
                 parent (<[this := with_parent value T1]> s1) u = parent s1 u).
  { intros u Hu. unfold parent. now rewrite insert_ne. }
  assert (C1 : forall u, children (<[this := with_parent value T1]> s1) u =
                         children s1 u).
  { intros u. unfold children. destruct (decide (u = this)) as [->|Hu].
    - erewrite insert_eq by eassumption. now rewrite HT1.
    - now rewrite insert_ne. }
  conjs.
  - rewrite (parent_geom _ _ _ E). unfold parent.
    now erewrite insert_eq by eassumption.
  - eapply dirty_geom; eauto.
  - intros u Hu. rewrite (parent_geom _ _ _ E), P1 by assumption.
    destruct value as [p|]; [|now injection E1 as <-].
    apply upd_Some in E1 as (P & HP & ->). unfold parent.
    destruct (decide (u = p)) as [->|Hup].
    + erewrite insert_eq by eassumption. now rewrite HP.
    + now rewrite insert_ne.
  - intros u cs Hcs. rewrite (children_geom _ _ _ E), C1.
    destruct value as [p|].
    + apply upd_Some in E1 as (P & HP & ->).
      destruct (decide (p = u)) as [->|Hup].
      * left. split; [reflexivity|]. unfold children in *.
        erewrite insert_eq by eassumption. rewrite HP in Hcs.
        now injection Hcs as <-.
      * right. split; [congruence|]. unfold children in *.
        now rewrite insert_ne by congruence.
    + injection E1 as <-. right. split; [discriminate|assumption].
Qed.

(** X13. The parent setter installs its argument as parent and leaves
    the receiver dirty; the only children array it writes to is the one
    of a non-null argument, which gets the receiver appended.  No entry
    is ever taken out: after a second assignment, of another parent or
    of null, the receiver is still in the children array of the first
    parent. *)
Theorem parent_setter_never_removes_a_child
  f1 f2 s this p value s1 s2 cs :
  children s p = Some cs ->
  set_parent f1 s this (Some p) = Some s1 ->
  value <> Some p ->
  set_parent f2 s1 this value = Some s2 ->
  parent s1 this = Some (Some p) /\ children s1 p = Some (cs ++ [this]) /\
  parent s2 this = Some value /\ children s2 p = Some (cs ++ [this]) /\
  dirty s2 this = Some true.
Proof.
  intros Hcs E1 Hv E2.
  destruct (set_parent_effect _ _ _ _ _ E1) as (P1 & _ & _ & C1).
  destruct (set_parent_effect _ _ _ _ _ E2) as (P2 & D2 & _ & C2).
  destruct (C1 p cs Hcs) as [[_ H1]|[H1 _]]; [|congruence].
  destruct (C2 p _ H1) as [[H2 _]|[_ H2]]; [congruence|].
  auto.
Qed.

Lemma parent_setter_never_removes_witness :
  exists s1 s2,
    set_parent 1 [initial; initial] 1 (Some 0%nat) = Some s1 /\
    set_parent 1 s1 1 None = Some s2 /\
    parent s2 1 = Some None /\ children s2 0 = Some [1%nat].
Proof.
  exists [with_children [1%nat] initial; with_parent (Some 0%nat) initial],
         [with_children [1%nat] initial; initial].
  split; [reflexivity|]. split; [reflexivity|].
  destruct (parent_setter_never_removes_a_child 1 1 [initial; initial] 1 0 None
              [with_children [1%nat] initial; with_parent (Some 0%nat) initial]
              [with_children [1%nat] initial; initial] []
              eq_refl eq_refl ltac:(discriminate) eq_refl)
    as (_ & _ & H1 & H2 & _).
  split; assumption.
Defined.

(** X14. Two different nodes that are in each other's children array:
    a dirty cascade started at either of them does not return, whatever
    the depth of stack it is given.  (The parent setter produces such
    arrays: [a.parent = b; a.parent = null; b.parent = a].) *)
Theorem dirty_cascade_over_a_cycle_overflows fuel s a b A B :
  s !! a = Some A -> s !! b = Some B -> a <> b ->
  b ∈ _children A -> a ∈ _children B ->
  set_dirty fuel s a true = None /\ set_x fuel s a 0 = None.
Proof.
  intros HA HB Hne Hb Ha. split.
  - unfold set_dirty. eapply dirty_set_true_two_cycle; eauto.
  - unfold set_x, set_dirty. rewrite (upd_ok _ _ _ _ HA).
    apply (dirty_set_true_two_cycle fuel _ a b
             (with_xy (Point.mk 0 (Point.y (_xy A))) A) B);
      [eapply insert_eq; eauto|now rewrite insert_ne|assumption
      |exact Hb|exact Ha].
Qed.

Lemma dirty_cascade_over_a_cycle_witness :
  set_parent 3 [initial; initial] 0 (Some 1%nat) =
    Some [with_parent (Some 1%nat) initial; with_children [0%nat] initial] /\
  set_parent 3 [with_parent (Some 1%nat) initial; with_children [0%nat] initial]
    0 None = Some [initial; with_children [0%nat] initial] /\
  set_parent 3 [initial; with_children [0%nat] initial] 1 (Some 0%nat) = None /\
  set_dirty 100 twoCycle 0 true = None.
Proof.
  split; [reflexivity|]. split; [reflexivity|]. split.
  - change (set_dirty 3 [with_children [1%nat] initial;
                         with_parent (Some 0%nat) (with_children [0%nat] initial)]
              1 true = None).
    refine (proj1 (dirty_cascade_over_a_cycle_overflows 3
                     [with_children [1%nat] initial;
                      with_parent (Some 0%nat) (with_children [0%nat] initial)]
                     1%nat 0%nat
                     (with_parent (Some 0%nat) (with_children [0%nat] initial))
                     (with_children [1%nat] initial)
                     eq_refl eq_refl _ _ _));
      [discriminate|now left|now left].
  - refine (proj1 (dirty_cascade_over_a_cycle_overflows 100 twoCycle 0%nat 1%nat
                     (with_children [1%nat] initial)
                     (with_children [0%nat] initial)
                     eq_refl eq_refl _ _ _));
      [discriminate|now left|now left].
Defined.

(** *** Construction *)

(** X15. [new Transform()] always returns: the new object gets a
    reference no object of the store has, the objects of the store are
    untouched, and the new object is the one the field initialisers
    describe (dirty, no parent, no children, position (0, 0), scale
    (1, 1), rotation 0); its first [getConcatenatedMatrix] returns the
    identity matrix. *)
Theorem new_is_fresh_and_identity s :
  exists s',
    new s = Some (length s, s') /\
    s !! length s = None /\
    (forall u U, s !! u = Some U -> s' !! u = Some U) /\
    length s' = S (length s) /\
    s' !! length s = Some initial /\
    exists s'',
      getConcatenatedMatrix 1 s' (length s) = Some (Matrix.identity, s'').
Proof.
  exists (s ++ [initial]). conjs.
  - apply new_eq.
  - now apply lookup_ge_None_2.
  - intros u U HU. now apply lookup_app_l_Some.
  - rewrite length_app. simpl. lia.
  - apply snoc_lookup_last.
  - eexists.
    rewrite (Box2Facts.getConcatenatedMatrix_root 0 _ _ initial
               (snoc_lookup_last s initial) eq_refl eq_refl).
    rewrite (Box2Facts.localMatrix_unrotated initial eq_refl eq_refl).
    reflexivity.
Qed.

(** X16. Constructing a Transform and assigning it a node of a coherent
    store as parent returns and gives a coherent store again, one level
    deeper at most, in which the new node has that parent: hierarchies
    built this way, of any depth, are ones the cache is right for. *)
Theorem attaching_a_new_leaf_keeps_coherence N fuel s p :
  coherent N s -> is_Some (s !! p) ->
  exists r s1 s2,
    new s = Some (r, s1) /\
    set_parent (S fuel) s1 r (Some p) = Some s2 /\
    coherent (S N) s2 /\
    parent s2 r = Some (Some p) /\ dirty s2 r = Some true /\
    length s2 = S (length s).
Proof.
  intros C Hp.
  assert (Hc : closed s) by (destruct C as (? & ? & ? & ? & _); assumption).
  assert (Hlt : (p < length s)%nat) by now apply lookup_lt_is_Some.
  destruct (coherent_set_parent_leaf N fuel (s ++ [initial]) (length s) p)
    as (s2 & E & C2 & L2).
  - now apply coherent_new.
  - now apply detached_new.
  - apply lookup_lt_is_Some. rewrite length_app. simpl. lia.
  - lia.
  - exists (length s), (s ++ [initial]), s2.
    destruct (set_parent_effect _ _ _ _ _ E) as (P & D & _).
    conjs; auto.
    + apply new_eq.
    + rewrite L2, length_app. simpl. lia.
Qed.

Lemma attaching_a_new_leaf_witness :
  exists r s1 s2,
    new [initial] = Some (r, s1) /\
    set_parent 1 s1 r (Some 0%nat) = Some s2 /\ coherent 2 s2.
Proof.
  destruct (attaching_a_new_leaf_keeps_coherence 1 0 [initial] 0
              (coherent_new 1 [] coherent_nil) (ex_intro _ initial eq_refl))
    as (r & s1 & s2 & E1 & E2 & C & _).
  exists r, s1, s2. auto.
Defined.

End TransformMore.

(** ** More about Camera and Box2 *)
Module CameraBoxMore.
Import TransformSpec TransformFacts CameraFacts Box2Facts.
Local Open Scope R_scope.

Lemma clean_result fuel s cam cam1 s1 :
  Camera.clean fuel s cam = Some (cam1, s1) ->
  Transform.getConcatenatedMatrix fuel s (Camera.transform cam) =
    Some (Camera.normal cam1, s1) /\
  Camera.inverted cam1 = Matrix.invert (Camera.normal cam1) /\
  Camera.dirty cam1 = false /\
  Camera.transform cam1 = Camera.transform cam /\
  Camera.width cam1 = Camera.width cam /\ Camera.height cam1 = Camera.height cam.
Proof.
  unfold Camera.clean.
  destruct (Transform.getConcatenatedMatrix fuel s (Camera.transform cam))
    as [[m s0]|]; [|discriminate].
  intros [= <- <-]. simpl. rewrite !MatrixFacts.setToMatrix_eq. auto 10.
Qed.

(** X17. A conversion on a dirty camera reads the concatenated matrix
    of the camera's Transform, keeps it as the world-to-stage matrix
    and clears the camera's flag.  When that matrix has a non-zero
    determinant, then, in exact arithmetic, the stage-to-world matrix
    kept is its inverse, converting the returned world point back gives
    the stage point the conversion started from, and the second call
    does not touch the store. *)
Theorem stage_world_round_trip fuel fuel' s cam p copy copy' q cam1 s1 :
  Camera.dirty cam = true ->
  Camera.transformStageToWorld fuel s cam p copy = Some (q, cam1, s1) ->
  Transform.getConcatenatedMatrix fuel s (Camera.transform cam) =
    Some (Camera.normal cam1, s1) /\
  Camera.dirty cam1 = false /\
  (Matrix.det (Camera.normal cam1) <> 0 ->
   Camera.inverted cam1 = Matrix.invert (Camera.normal cam1) /\
   Camera.transformWorldToStage fuel' s1 cam1 q copy' = Some (p, cam1, s1)).
Proof.
  intros Hd. unfold Camera.transformStageToWorld. rewrite Hd.
  destruct (Camera.clean fuel s cam) as [[c1 s0]|] eqn:Ec; [|discriminate].
  apply clean_result in Ec as (Eg & Ei & Edc & _).
  assert (Hq : forall q0,
             Some (q0, c1, s0) = Some (q, cam1, s1) ->
             q0 = q /\ c1 = cam1 /\ s0 = s1) by (now intros q0 [= -> -> ->]).
  intros E.
  assert (Matrix.transformPoint (Camera.inverted c1) p = q /\ c1 = cam1 /\
          s0 = s1) as (<- & <- & <-).
  { destruct copy; apply Hq in E; exact E. }
  conjs; auto.
  intros Hdet. split; [exact Ei|].
  rewrite (proj2 (clean_camera_ignores_store fuel' s0 c1 _ copy' Edc)).
  rewrite Ei. do 3 f_equal.
  pose proof (MatrixFacts.multiplyMatrix_invertCopy_exact _ Hdet) as Hm.
  unfold Matrix.invertCopy in Hm. rewrite MatrixFacts.clone_id in Hm.
  rewrite <- MatrixFacts.transformPoint_multiplyMatrix, Hm.
  apply MatrixFacts.transformPoint_new.
Qed.

Lemma stage_world_round_trip_witness :
  Camera.transformWorldToStage 1 [CameraScenario.T1] CameraScenario.cam1
    (Point.mk 3 4) true =
  Some (Point.mk 3 4, CameraScenario.cam1, [CameraScenario.T1]).
Proof.
  refine (proj2 (proj2 (proj2
            (stage_world_round_trip 1 1 [CameraScenario.T0] CameraScenario.cam0
               (Point.mk 3 4) true true (Point.mk 3 4) CameraScenario.cam1
               [CameraScenario.T1] eq_refl
               (TileLayerFacts.scenario_first_conversion (Point.mk 3 4) true)))
            _)).
  unfold Matrix.det. simpl. lra.
Defined.

(** X18. What [check] answers: it reads the owner's concatenated
    matrix on every call (the box is dirty from its constructor on and
    [clean] does not clear the flag).  When that matrix has determinant
    0 the answer is [false].  Otherwise, in exact arithmetic, the point
    is mapped through the inverse and the answer is [true] exactly when
    the local point is strictly between the offset and the dimensions
    on both axes: the rectangle tested is
    [(offset.x, dimensions.x) x (offset.y, dimensions.y)]. *)
Theorem check_tests_offset_against_dimensions fuel s box pt b box' s' :
  Box2._dirty box = true ->
  Box2.check fuel s box pt = Some (b, box', s') ->
  exists M,
    Transform.getConcatenatedMatrix fuel s (Box2.owner_transform box) =
      Some (M, s') /\
    Box2._dirty box' = true /\
    Box2._offset box' = Box2._offset box /\
    Box2._dimensions box' = Box2._dimensions box /\
    (Matrix.det M = 0 -> b = false) /\
    (Matrix.det M <> 0 ->
     Box2._invertedTransformMatrix box' =
       Some (Box2.Finite (Matrix.invertCopy M)) /\
     let localPt := Matrix.transformPoint (Matrix.invertCopy M) pt in
     (b = true <->
      Point.x (Box2._offset box) < Point.x localPt < Point.x (Box2._dimensions box) /\
      Point.y (Box2._offset box) < Point.y localPt < Point.y (Box2._dimensions box))).
Proof.
  intros Hd E.
  destruct (check_computes _ _ _ _ _ _ _ Hd E)
    as (M & EM & Hd' & Ho & Hdim & H0 & H1).
  exists M. conjs; auto.
  intros Hz. apply (H0 Hz).
Qed.

Lemma check_tests_offset_against_dimensions_witness :
  exists box' s',
    Box2.check 1 [Transform.initial] (Box2.new 0 10 10 32 32) (Point.mk 20 20) =
      Some (true, box', s') /\ Box2._dirty box' = true.
Proof.
  destruct (check_unrotated_root 0 [Transform.initial]
              (Box2.new 0 10 10 32 32) (Point.mk 20 20)
              Transform.initial eq_refl eq_refl eq_refl eq_refl eq_refl eq_refl)
    as (box' & s' & E).
  simpl in E.
  rewrite (Rltb_true 10 (20 + - 0)), (Rltb_true (20 + - 0) 32) in E by lra.
  simpl in E. exists box', s'. split; [exact E|].
  destruct (check_tests_offset_against_dimensions 1 [Transform.initial]
              (Box2.new 0 10 10 32 32) (Point.mk 20 20) true box' s' eq_refl E)
    as (M & _ & H & _).
  exact H.
Defined.

(** X19. A Box2 never answers from a stale matrix: on a coherent store
    [check] returns, and the matrix it reads is the product of the
    local matrices along the owner's parent chain as the fields stand
    at the time of the call, whatever was changed since the call
    before.  When that product has determinant 0 the answer is
    [false]; otherwise, in exact arithmetic, the answer is the test of
    the point mapped through its inverse. *)
Theorem check_uses_the_current_matrix N fuel s box pt :
  coherent N s -> is_Some (s !! Box2.owner_transform box) ->
  (N <= fuel)%nat -> Box2._dirty box = true ->
  exists b box' s' M,
    Box2.check fuel s box pt = Some (b, box', s') /\
    World s (Box2.owner_transform box) M /\
    coherent N s' /\ Box2._dirty box' = true /\
    (Matrix.det M = 0 -> b = false) /\
    (Matrix.det M <> 0 ->
     let localPt := Matrix.transformPoint (Matrix.invertCopy M) pt in
     (b = true <->
      Point.x (Box2._offset box) < Point.x localPt < Point.x (Box2._dimensions box) /\
      Point.y (Box2._offset box) < Point.y localPt < Point.y (Box2._dimensions box))).
Proof.
  intros C Hin Hf Hd.
  destruct (check_returns N fuel s box pt C Hin Hf Hd)
    as (b & box' & s' & M & Ec & EM & W & C').
  destruct (check_computes _ _ _ _ _ _ _ Hd Ec)
    as (M' & EM' & Hd' & _ & _ & H0 & H1).
  rewrite EM in EM'. injection EM' as <-.
  exists b, box', s', M. conjs; auto.
  - intros Hz. apply (H0 Hz).
  - intros Hn. apply (H1 Hn).
Qed.

Lemma check_uses_the_current_matrix_witness :
  exists b box' s' M,
    Box2.check 3 chain3_read (Box2.new 2 0 0 32 32) (Point.mk 5 5) =
      Some (b, box', s') /\
    World chain3_read 2%nat M.
Proof.
  destruct chain3_read_coherent as [C _].
  destruct (chain3_read_lookup 2%nat) as [K HK]; [lia|].
  destruct (check_uses_the_current_matrix 3 3 chain3_read (Box2.new 2 0 0 32 32)
              (Point.mk 5 5) C (ex_intro _ K HK) (le_n 3%nat) eq_refl)
    as (b & box' & s' & M & E & W & _).
  exists b, box', s', M. auto.
Defined.

End CameraBoxMore.

(** ** Entities: alpha, cell index and tags *)
Module EntityMore.
Import EntityObject ObjectSpec TransformSpec TransformFacts.

(** *** [indexOf], [splice] and the loop of [hasTag] *)

Lemma indexOf_cases l x :
  (indexOf l x = (-1)%Z /\ x ∉ l) \/
  (exists k, indexOf l x = Z.of_nat k /\ l !! k = Some x /\ x ∉ take k l).
Proof.
  induction l as [|y l IH]; simpl.
  - left. split; [reflexivity|apply not_elem_of_nil].
  - destruct (String.eqb_spec y x) as [->|Hne].
    + right. exists 0%nat. conjs; [reflexivity|reflexivity|apply not_elem_of_nil].
    + destruct IH as [[E Hn]|(k & E & Hk & Ht)].
      * left. rewrite E. split; [reflexivity|].
        apply not_elem_of_cons. split; [congruence|exact Hn].
      * right. exists (S k). rewrite E.
        destruct (Z.of_nat k =? -1)%Z eqn:Eq; [lia|].
        conjs; [lia|exact Hk|].
        simpl. apply not_elem_of_cons. split; [congruence|exact Ht].
Qed.

Lemma splice1_eq l : forall k, splice1 l k = take k l ++ drop (S k) l.
Proof.
  induction l as [|y l IH]; intros [|k]; simpl; try reflexivity.
  now rewrite IH.
Qed.

Lemma hasTag_loop_iff tags tag : forall len,
  hasTag_loop tags len tag = true <->
  exists k, (k < len)%nat /\ tags !! k = Some tag.
Proof.
  induction len as [|len IH]; simpl.
  - split; [discriminate|]. intros (k & Hk & _). lia.
  - destruct (tags !! len) as [y|] eqn:Hy.
    + destruct (String.eqb_spec y tag) as [->|Hne].
      * split; [|reflexivity]. intros _. exists len. split; [lia|exact Hy].
      * rewrite IH. split; intros (k & Hk & Ht).
        -- exists k. split; [lia|exact Ht].
        -- exists k. split; [|exact Ht].
           destruct (Nat.eq_dec k len) as [->|]; [congruence|lia].
    + rewrite IH. split; intros (k & Hk & Ht).
      * exists k. split; [lia|exact Ht].
      * exists k. split; [|exact Ht].
        destruct (Nat.eq_dec k len) as [->|]; [congruence|lia].
Qed.

Lemma hasTag_iff this tag : hasTag this tag = true <-> tag ∈ _tags this.
Proof.
  unfold hasTag. rewrite hasTag_loop_iff, list_elem_of_lookup.
  split.
  - intros (k & _ & Hk). now exists k.
  - intros (k & Hk). exists k. split; [|exact Hk].
    apply lookup_lt_is_Some. now exists tag.
Qed.

Lemma hasTag_false_iff this tag : hasTag this tag = false <-> tag ∉ _tags this.
Proof.
  rewrite <- hasTag_iff. destruct (hasTag this tag); split; congruence.
Qed.

(** *** One step of the loops of [addTag] and [removeTag] *)

Lemma addTag_step tags a :
  let tags' := if (indexOf tags a =? -1)%Z then tags ++ [a] else tags in
  (exists more, tags' = tags ++ more) /\
  (forall t, t ∈ tags' <-> t ∈ tags \/ t = a) /\
  (NoDup tags -> NoDup tags').
Proof.
  destruct (indexOf_cases tags a) as [[E Hn]|(k & E & Hk & _)]; rewrite E.
  - simpl. conjs.
    + now exists [a].
    + intros t. now rewrite elem_of_app, list_elem_of_singleton.
    + intros Hd. apply NoDup_app. conjs; [exact Hd| |apply NoDup_singleton].
      intros t Ht Ha. apply list_elem_of_singleton in Ha. congruence.
  - replace (Z.of_nat k =? -1)%Z with false by (symmetry; apply Z.eqb_neq; lia).
    simpl. conjs.
    + exists []. now rewrite app_nil_r.
    + intros t. split; [now left|]. intros [Ht| ->]; [exact Ht|].
      eapply list_elem_of_lookup_2; eauto.
    + auto.
Qed.

Lemma removeTag_step tags a :
  NoDup tags ->
  let tags' :=
    if negb (indexOf tags a =? -1)%Z
    then splice1 tags (Z.to_nat (indexOf tags a)) else tags in
  NoDup tags' /\ forall t, t ∈ tags' <-> t ∈ tags /\ t <> a.
Proof.
  intros Hd.
  destruct (indexOf_cases tags a) as [[E Hn]|(k & E & Hk & _)]; rewrite E.
  - simpl. split; [exact Hd|]. intros t. split.
    + intros Ht. split; [exact Ht|congruence].
    + now intros [Ht _].
  - replace (Z.of_nat k =? -1)%Z with false by (symmetry; apply Z.eqb_neq; lia).
    simpl. rewrite Nat2Z.id, splice1_eq.
    rewrite <- (take_drop_middle tags k a Hk) in Hd.
    apply NoDup_app in Hd as (D1 & D2 & D3).
    apply NoDup_cons in D3 as (D3 & D4).
    split.
    + apply NoDup_app. conjs; [exact D1| |exact D4].
      intros t Ht1 Ht2. apply (D2 t Ht1). now right.
    + intros t. rewrite <- (take_drop_middle tags k a Hk) at 3.
      rewrite !elem_of_app, elem_of_cons. split.
      * intros [Ht|Ht].
        -- split; [now left|]. intros ->. apply (D2 a Ht). now left.
        -- split; [now right; right|]. now intros ->.
      * intros [[Ht|[Ht|Ht]] Hne]; [now left|contradiction|now right].
Qed.

Lemma addTag_tags_spec args : forall tags,
  (exists more, addTag_tags tags args = tags ++ more) /\
  (forall t, t ∈ addTag_tags tags args <-> t ∈ tags \/ t ∈ args) /\
  (NoDup tags -> NoDup (addTag_tags tags args)).
Proof.
  induction args as [|a args IH]; intros tags; simpl.
  - conjs.
    + exists []. now rewrite app_nil_r.
    + intros t. rewrite elem_of_nil. tauto.
    + auto.
  - destruct (addTag_step tags a) as ([m1 P1] & M1 & N1).
    match goal with
    | |- context [addTag_tags ?X args] =>
        destruct (IH X) as ([m2 P2] & M2 & N2)
    end.
    cbv zeta in P1, M1, N1. conjs.
    + exists (m1 ++ m2). now rewrite P2, P1, app_assoc.
    + intros t. rewrite M2, M1, elem_of_cons. tauto.
    + intros Hd. apply N2, N1, Hd.
Qed.

Lemma removeTag_tags_spec args : forall tags,
  NoDup tags ->
  NoDup (removeTag_tags tags args) /\
  forall t, t ∈ removeTag_tags tags args <-> t ∈ tags /\ t ∉ args.
Proof.
  induction args as [|a args IH]; intros tags Hd; simpl.
  - split; [exact Hd|]. intros t. rewrite elem_of_nil. tauto.
  - destruct (removeTag_step tags a Hd) as (N1 & M1).
    match goal with
    | |- context [removeTag_tags ?X args] =>
        destruct (IH X N1) as (N2 & M2)
    end.
    split; [exact N2|].
    intros t. rewrite M2, M1, not_elem_of_cons. tauto.
Qed.

(** X20. [hasTag] answers [true] exactly for the strings in the tag
    array.  [addTag] keeps the tags there are, in their places, adds
    every argument that is missing, and never makes a duplicate: a tag
    array without duplicates stays without. *)
Theorem addTag_adds_each_tag_once this args :
  (forall tag, hasTag this tag = true <-> tag ∈ _tags this) /\
  (exists more, _tags (addTag this args) = _tags this ++ more) /\
  (forall tag, hasTag (addTag this args) tag = true <->
               hasTag this tag = true \/ tag ∈ args) /\
  (NoDup (_tags this) -> NoDup (_tags (addTag this args))) /\
  base (addTag this args) = base this.
Proof.
  destruct (addTag_tags_spec args (_tags this)) as (P & M & N).
  conjs.
  - intros tag. apply hasTag_iff.
  - exact P.
  - intros tag. rewrite !hasTag_iff. apply M.
  - exact N.
  - reflexivity.
Qed.

Lemma addTag_adds_each_tag_once_witness :
  NoDup (_tags plainEntity) /\
  NoDup (_tags (addTag plainEntity ["a"; "b"; "a"]%string)).
Proof.
  assert (H : NoDup (_tags plainEntity)) by apply NoDup_nil_2.
  split; [exact H|].
  destruct (addTag_adds_each_tag_once plainEntity ["a"; "b"; "a"]%string)
    as (_ & _ & _ & N & _).
  exact (N H).
Defined.

(** X21. On a tag array without duplicates (what [addTag] builds from
    the empty array of the constructor) [removeTag] removes exactly its
    arguments: afterwards [hasTag] is [true] for the tags that were
    there and are not among the arguments, and the array is still
    without duplicates.  Removing a tag right after adding it, when it
    was not there before, gives the entity back. *)
Theorem removeTag_removes_its_arguments this args :
  NoDup (_tags this) ->
  NoDup (_tags (removeTag this args)) /\
  (forall tag, hasTag (removeTag this args) tag = true <->
               hasTag this tag = true /\ tag ∉ args) /\
  (forall tag, hasTag this tag = false ->
               removeTag (addTag this [tag]) [tag] = this).
Proof.
  intros Hd. destruct (removeTag_tags_spec args (_tags this) Hd) as (N & M).
  conjs.
  - exact N.
  - intros tag. rewrite !hasTag_iff. apply M.
  - intros tag Hf. apply hasTag_false_iff in Hf.
    destruct this as [b w h tags]. unfold removeTag, addTag. simpl in *.
    f_equal.
    destruct (indexOf_cases tags tag) as [[E _]|(k & _ & Hk & _)].
    2:{ exfalso. apply Hf. eapply list_elem_of_lookup_2; eauto. }
    rewrite E. simpl.
    destruct (indexOf_cases (tags ++ [tag]) tag) as [[_ Hn]|(k & E' & Hk & Ht)].
    { exfalso. apply Hn, elem_of_app. right. now apply list_elem_of_singleton. }
    rewrite E'.
    replace (Z.of_nat k =? -1)%Z with false by (symmetry; apply Z.eqb_neq; lia).
    simpl. rewrite Nat2Z.id, splice1_eq.
    assert (k = length tags) as ->.
    { destruct (Nat.lt_trichotomy k (length tags)) as [Hlt|[->|Hgt]];
        [|reflexivity|].
      - exfalso. apply Hf. rewrite lookup_app_l in Hk by exact Hlt.
        eapply list_elem_of_lookup_2; eauto.
      - apply lookup_lt_Some in Hk. rewrite length_app in Hk. simpl in Hk. lia. }
    rewrite take_app_length.
    rewrite drop_ge by (rewrite length_app; simpl; lia).
    apply app_nil_r.
Qed.

Lemma removeTag_removes_its_arguments_witness :
  NoDup (_tags (addTag plainEntity ["a"; "b"]%string)) /\
  hasTag (removeTag (addTag plainEntity ["a"; "b"]%string) ["a"]%string)
    "a"%string = false.
Proof.
  assert (H : NoDup (_tags (addTag plainEntity ["a"; "b"]%string))).
  { apply addTag_tags_spec, NoDup_nil_2. }
  split; [exact H|].
  destruct (removeTag_removes_its_arguments
              (addTag plainEntity ["a"; "b"]%string) ["a"]%string H)
    as (_ & M & _).
  destruct (hasTag _ "a"%string) eqn:E; [|reflexivity].
  apply M in E as [_ E]. exfalso. apply E. now left.
Defined.

(** *** The [alpha] and [cellIndex] setters *)

Local Open Scope R_scope.

Ltac clamp_cases v :=
  unfold Rmin; destruct (Rle_dec 1 v); unfold Rmax;
  repeat match goal with
         | |- context [Rle_dec ?a ?b] => destruct (Rle_dec a b)
         end; lra.

Lemma Rleb_iff u v : JSMath.Rleb u v = true <-> u <= v.
Proof.
  unfold JSMath.Rleb. destruct (Rle_dec u v); split; auto; discriminate.
Qed.

(** X22. The [alpha] setter stores its argument clamped to [0, 1]:
    the stored value is always in that range, is the argument when the
    argument is in the range, and the setter touches no other field.
    An entity whose alpha was set to zero or less adds nothing to the
    batch, and its Transform is not even read. *)
Theorem alpha_setter_clamps e v :
  0 <= Entity.alpha (set_alpha e v) <= 1 /\
  Entity.alpha (set_alpha e v) = Rmax 0 (Rmin 1 v) /\
  (0 <= v <= 1 -> Entity.alpha (set_alpha e v) = v) /\
  Entity.transform (set_alpha e v) = Entity.transform e /\
  Entity.atlas (set_alpha e v) = Entity.atlas e /\
  Entity.cellIndex (set_alpha e v) = Entity.cellIndex e /\
  (v <= 0 ->
   forall fuel s items,
     TextureAtlasRenderer.addToBatch fuel s items (set_alpha e v) =
     Some (items, s)).
Proof.
  assert (A : Entity.alpha (set_alpha e v) = Rmax 0 (Rmin 1 v)).
  { unfold set_alpha, Entity.alpha, JSMath.Rleb, JSMath.Rltb, Rmax, Rmin. simpl.
    destruct (Rle_dec v 0), (Rle_dec 1 v);
      repeat match goal with
             | |- context [Rlt_dec ?a ?b] => destruct (Rlt_dec a b)
             | |- context [Rle_dec ?a ?b] => destruct (Rle_dec a b)
             end; lra. }
  conjs; try reflexivity.
  - rewrite A. clamp_cases v.
  - rewrite A. clamp_cases v.
  - exact A.
  - intros [Hv0 Hv1]. rewrite A. clamp_cases v.
  - intros Hv fuel s items. unfold TextureAtlasRenderer.addToBatch.
    replace (JSMath.Rleb (Entity.alpha (set_alpha e v)) 0) with true;
      [reflexivity|].
    symmetry. apply Rleb_iff. rewrite A. clamp_cases v.
Qed.

Lemma alpha_setter_clamps_witness :
  Entity.alpha (set_alpha (base plainEntity) (1 / 2)) = 1 / 2 /\
  TextureAtlasRenderer.addToBatch 0 [] [] (set_alpha (base plainEntity) (- 1))
  = Some ([], []).
Proof.
  split.
  - destruct (alpha_setter_clamps (base plainEntity) (1 / 2))
      as (_ & _ & H & _).
    apply H. lra.
  - destruct (alpha_setter_clamps (base plainEntity) (- 1))
      as (_ & _ & _ & _ & _ & _ & H).
    apply H. lra.
Defined.

(** X23. The [cellIndex] setter either takes the index, when the atlas
    has a cell there, and gives the entity the width and height of that
    cell, or logs an error and leaves the entity as it is; without an
    atlas it does nothing.  So an entity whose cell index names a cell of
    its atlas keeps such an index whatever is assigned, and alpha,
    Transform, atlas and tags are never touched. *)
Theorem cellIndex_setter_keeps_a_cell_of_the_atlas this val :
  (sized_by_cell this -> sized_by_cell (fst (set_cellIndex this val))) /\
  (snd (set_cellIndex this val) = true ->
   fst (set_cellIndex this val) = this /\
   exists cells, Entity.atlas (base this) = Some cells /\
                 Cell.at_index cells val = None) /\
  (snd (set_cellIndex this val) = false ->
   Entity.atlas (base this) <> None ->
   sized_by_cell (fst (set_cellIndex this val)) /\
   Entity.cellIndex (base (fst (set_cellIndex this val))) = val) /\
  (Entity.atlas (base this) = None -> set_cellIndex this val = (this, false)) /\
  Entity.alpha (base (fst (set_cellIndex this val))) = Entity.alpha (base this) /\
  Entity.transform (base (fst (set_cellIndex this val))) =
    Entity.transform (base this) /\
  Entity.atlas (base (fst (set_cellIndex this val))) = Entity.atlas (base this) /\
  _tags (fst (set_cellIndex this val)) = _tags this.
Proof.
  unfold set_cellIndex.
  destruct (Entity.atlas (base this)) as [cells|] eqn:Ha.
  - destruct (Cell.at_index cells val) as [cell|] eqn:Hc; simpl.
    + conjs; try reflexivity; try discriminate; auto.
      * intros _. exists cells, cell. simpl. auto.
      * intros _ _. split; [|reflexivity]. exists cells, cell. simpl. auto.
    + conjs; try reflexivity; try discriminate; auto.
      intros _. split; [reflexivity|]. now exists cells.
  - simpl. conjs; try reflexivity; try discriminate; auto.
    intros _ H. now contradiction H.
Qed.

Lemma cellIndex_setter_witness :
  sized_by_cell plainEntity /\
  sized_by_cell (fst (set_cellIndex plainEntity 7)) /\
  width (fst (set_cellIndex plainEntity 1)) = 16.
Proof.
  assert (H : sized_by_cell plainEntity).
  { exists twoCells, (Cell.mk 0 0 32 32). conjs; reflexivity. }
  conjs; [exact H| |reflexivity].
  exact (proj1 (cellIndex_setter_keeps_a_cell_of_the_atlas plainEntity 7) H).
Defined.

End EntityMore.

(** ** The batch renderer: index buffer and element count *)
Module BatchMore.
Import TextureAtlasRendererBuffers ObjectSpec TransformSpec TransformFacts.

Lemma generateIndices_S n :
  _generateIndices (S n) = _generateIndices n ++ quadIndices n.
Proof.
  unfold _generateIndices. rewrite seq_S, fold_left_app. simpl.
  f_equal. unfold quadIndices. repeat (f_equal; try lia).
Qed.

Lemma generateIndices_length n : length (_generateIndices n) = (6 * n)%nat.
Proof.
  induction n as [|n IH]; [reflexivity|].
  rewrite generateIndices_S, length_app, IH. simpl. lia.
Qed.

Lemma generateIndices_bound n :
  Forall (fun i => i < 4 * n)%nat (_generateIndices n).
Proof.
  induction n as [|n IH]; [constructor|].
  rewrite generateIndices_S. apply Forall_app. split.
  - eapply Forall_impl; [exact IH|]. simpl. intros; lia.
  - unfold quadIndices. repeat (constructor; [lia|]). constructor.
Qed.

Lemma generateIndices_take numQuads : forall n,
  (n <= numQuads)%nat ->
  take (6 * n) (_generateIndices numQuads) = _generateIndices n.
Proof.
  induction numQuads as [|m IH]; intros n Hn.
  - replace n with 0%nat by lia. reflexivity.
  - destruct (Nat.eq_dec n (S m)) as [->|Hne].
    + apply take_ge. rewrite generateIndices_length. lia.
    + rewrite generateIndices_S, take_app_le
        by (rewrite generateIndices_length; lia).
      apply IH. lia.
Qed.

(** X24. [_generateIndices(numQuads)] returns six indices per quad; the
    six of quad [k] are [4k, 4k+1, 4k+2, 4k, 4k+2, 4k+3].  The first
    [6n] of them are the indices of the first [n] quads and name none
    but the first [4n] vertices, so a draw of [n] quads reads no vertex
    past those the batch holds.  The index buffer the constructor
    fills has the indices of [6 * _maxItems] quads. *)
Theorem generateIndices_addresses_whole_quads numQuads :
  length (_generateIndices numQuads) = (6 * numQuads)%nat /\
  (forall k, (k < numQuads)%nat ->
     take 6 (drop (6 * k) (_generateIndices numQuads)) = quadIndices k) /\
  (forall n, (n <= numQuads)%nat ->
     take (6 * n) (_generateIndices numQuads) = _generateIndices n /\
     Forall (fun i => i < 4 * n)%nat (take (6 * n) (_generateIndices numQuads))) /\
  (forall n, (n <= 6 * _maxItems)%nat ->
     take (6 * n) constructorIndices = _generateIndices n).
Proof.
  conjs.
  - apply generateIndices_length.
  - intros k Hk.
    rewrite take_drop_commute.
    replace (6 * k + 6)%nat with (6 * S k)%nat by lia.
    rewrite generateIndices_take by lia.
    rewrite generateIndices_S.
    apply drop_app_length'. rewrite generateIndices_length. reflexivity.
  - intros n Hn. rewrite generateIndices_take by exact Hn.
    split; [reflexivity|apply generateIndices_bound].
  - intros n Hn. unfold constructorIndices. apply generateIndices_take. lia.
Qed.

Lemma generateIndices_witness :
  take 6 (drop (6 * 1) (_generateIndices 3)) = [4; 5; 6; 4; 6; 7]%nat.
Proof.
  destruct (generateIndices_addresses_whole_quads 3) as (_ & H & _).
  exact (H 1%nat ltac:(lia)).
Defined.

Local Open Scope R_scope.

(** X25. [addToBatch] on an entity of a coherent store whose cell index
    names a cell of its atlas returns: with alpha zero or less the batch
    and the store are as before; otherwise twenty numbers are appended,
    and the element count [draw] passes to [drawElements] grows by
    six. *)
Theorem addToBatch_adds_one_quad N fuel s items e :
  coherent N s -> is_Some (s !! Entity.transform (EntityObject.base e)) ->
  (N <= fuel)%nat -> sized_by_cell e ->
  exists items' s',
    TextureAtlasRenderer.addToBatch fuel s items (EntityObject.base e) =
      Some (items', s') /\
    ((Entity.alpha (EntityObject.base e) <= 0 /\ items' = items /\ s' = s) \/
     (0 < Entity.alpha (EntityObject.base e) /\
      (exists q, items' = items ++ q /\ length q = 20%nat) /\
      coherent N s' /\
      drawElementCount items' = drawElementCount items + 6)).
Proof.
  intros C Hin Hf (cells & cell & Ha & Hc & _).
  unfold TextureAtlasRenderer.addToBatch.
  destruct (JSMath.Rleb (Entity.alpha (EntityObject.base e)) 0) eqn:El.
  - exists items, s. split; [reflexivity|]. left.
    apply EntityMore.Rleb_iff in El. auto.
  - destruct (coherent_read N fuel s _ C Hin Hf) as (M & s' & E & _ & C' & _).
    rewrite E, Ha. unfold Entity.cellIndex. rewrite Hc.
    eexists _, s'. split; [reflexivity|]. right.
    assert (Hpos : 0 < Entity.alpha (EntityObject.base e)).
    { destruct (Rlt_dec 0 (Entity.alpha (EntityObject.base e))) as [H|H];
        [exact H|].
      assert (X : JSMath.Rleb (Entity.alpha (EntityObject.base e)) 0 = true)
        by (apply EntityMore.Rleb_iff; lra).
      congruence. }
    conjs; [exact Hpos| |exact C'|].
    + eexists. split; reflexivity.
    + unfold drawElementCount. rewrite length_app, plus_INR.
      simpl. lra.
Qed.

Lemma addToBatch_adds_one_quad_witness :
  exists items' s',
    TextureAtlasRenderer.addToBatch 1 [Transform.initial] []
      (EntityObject.base plainEntity) = Some (items', s').
Proof.
  destruct (addToBatch_adds_one_quad 1 1 [Transform.initial] [] plainEntity
              (coherent_new 1 [] coherent_nil)
              (ex_intro _ Transform.initial eq_refl) (le_n 1%nat))
    as (items' & s' & E & _).
  - exists twoCells, (Cell.mk 0 0 32 32). conjs; reflexivity.
  - now exists items', s'.
Defined.

End BatchMore.

(** ** TileMapObjectLayerOrthogonal: counting and finding tiles *)
Module ObjectLayerMore.
Import TileMapObjectLayerOrthogonal TransformFacts.

Lemma countTiles_loop_acc data type : forall cnt,
  countTiles_loop data type cnt = (cnt + countTiles_loop data type 0)%nat.
Proof.
  induction data as [|o rest IH]; intros cnt; simpl; [lia|].
  rewrite IH. symmetry. rewrite IH.
  destruct type as [ty|].
  - destruct (ty =? TileObject.tileType o)%Z; lia.
  - destruct (negb (TileObject.tileType o =? 0)%Z); lia.
Qed.

Lemma countTiles_loop_split data : forall cnt,
  (countTiles_loop data None cnt + countTiles_loop data (Some 0%Z) 0
   = cnt + length data)%nat.
Proof.
  induction data as [|o rest IH]; intros cnt; simpl; [lia|].
  rewrite (countTiles_loop_acc rest (Some 0%Z)).
  destruct (TileObject.tileType o); simpl;
    match goal with
    | |- context [countTiles_loop rest None ?c] => specialize (IH c)
    end; lia.
Qed.

Lemma getIndexesByType_loop_spec data type : forall i tiles,
  exists more,
    getIndexesByType_loop data type i tiles = tiles ++ more /\
    length more = countTiles_loop data (Some type) 0 /\
    (forall j, j ∈ more <->
               exists o, (i <= j)%nat /\ data !! (j - i)%nat = Some o /\
                         TileObject.tileType o = type) /\
    StronglySorted lt more.
Proof.
  induction data as [|o rest IH]; intros i tiles; simpl.
  - exists []. rewrite app_nil_r. conjs; [reflexivity|reflexivity| |constructor].
    intros j. rewrite elem_of_nil. split; [tauto|].
    intros (o & _ & H & _). discriminate.
  - rewrite (Z.eqb_sym type).
    destruct (TileObject.tileType o =? type)%Z eqn:Et.
    + destruct (IH (S i) (tiles ++ [i])) as (more & E & L & M & Hs).
      exists (i :: more). conjs.
      * rewrite E, <- app_assoc. reflexivity.
      * rewrite countTiles_loop_acc. simpl. now rewrite L.
      * intros j. rewrite elem_of_cons, M. split.
        -- intros [->|(o' & Hj & Ho & Ht)].
           ++ exists o. rewrite Nat.sub_diag. conjs; [lia|reflexivity|].
              now apply Z.eqb_eq.
           ++ exists o'. conjs; [lia| |exact Ht].
              replace (j - i)%nat with (S (j - S i)) by lia. exact Ho.
        -- intros (o' & Hj & Ho & Ht).
           destruct (Nat.eq_dec j i) as [->|Hne]; [now left|right].
           exists o'. conjs; [lia| |exact Ht].
           replace (j - i)%nat with (S (j - S i)) in Ho by lia. exact Ho.
      * constructor; [exact Hs|]. apply Forall_forall. intros j Hj.
        apply M in Hj as (_ & Hj & _). lia.
    + destruct (IH (S i) tiles) as (more & E & L & M & Hs).
      exists more. conjs; [exact E|exact L| |exact Hs].
      intros j. rewrite M. split.
      * intros (o' & Hj & Ho & Ht). exists o'. conjs; [lia| |exact Ht].
        replace (j - i)%nat with (S (j - S i)) by lia. exact Ho.
      * intros (o' & Hj & Ho & Ht).
        destruct (Nat.eq_dec j i) as [->|Hne].
        -- rewrite Nat.sub_diag in Ho. simpl in Ho. injection Ho as <-.
           apply Z.eqb_neq in Et. contradiction.
        -- exists o'. conjs; [lia| |exact Ht].
           replace (j - i)%nat with (S (j - S i)) in Ho by lia. exact Ho.
Qed.

(** X26. [getIndexesByType(type)] returns, in increasing order and
    each once, exactly the indexes of the tiles of that type;
    [countTiles(type)] is the length of that array, and [countTiles()]
    counts the tiles whose type is not 0, so it and [countTiles(0)] add
    up to the number of tiles. *)
Theorem getIndexesByType_lists_what_countTiles_counts this type :
  (forall i, i ∈ getIndexesByType this type <->
             exists o, _data this !! i = Some o /\
                       TileObject.tileType o = type) /\
  StronglySorted lt (getIndexesByType this type) /\
  countTiles this (Some type) = length (getIndexesByType this type) /\
  (countTiles this None + countTiles this (Some 0%Z) = length (_data this))%nat.
Proof.
  unfold getIndexesByType, countTiles.
  destruct (getIndexesByType_loop_spec (_data this) type 0 [])
    as (more & E & L & M & Hs).
  rewrite E. simpl. conjs.
  - intros i. rewrite M. rewrite Nat.sub_0_r. split.
    + intros (o & _ & H). now exists o.
    + intros (o & H). exists o. split; [lia|exact H].
  - exact Hs.
  - now symmetry.
  - apply (countTiles_loop_split (_data this) 0).
Qed.

(** X27. [getTileFromIndex] answers [null] for the index -1 and, for
    every index that [getIndexesByType(type)] returns, the entry of
    [tilemap.tileTypes] for that type; for any other index outside the
    layer's data it throws (it reads [tileType] of [undefined]). *)
Theorem getTileFromIndex_on_found_indexes this type :
  getTileFromIndex this (-1) = Some None /\
  (forall i, i ∈ getIndexesByType this type ->
             getTileFromIndex this (Z.of_nat i) =
             Some (Cell.at_index (tileTypes this) type)) /\
  (forall index, index <> (-1)%Z ->
                 (index < 0 \/ Z.of_nat (length (_data this)) <= index)%Z ->
                 getTileFromIndex this index = None).
Proof.
  conjs.
  - reflexivity.
  - intros i Hi. unfold getIndexesByType in Hi.
    destruct (getIndexesByType_loop_spec (_data this) type 0 [])
      as (more & E & _ & M & _).
    rewrite E in Hi. simpl in Hi. apply M in Hi as (o & _ & Ho & Ht).
    rewrite Nat.sub_0_r in Ho.
    unfold getTileFromIndex, Cell.at_index.
    replace (Z.of_nat i =? -1)%Z with false by (symmetry; apply Z.eqb_neq; lia).
    replace (Z.of_nat i <? 0)%Z with false by (symmetry; apply Z.ltb_ge; lia).
    simpl. rewrite Nat2Z.id, Ho. now rewrite Ht.
  - intros index Hne Hr. unfold getTileFromIndex, Cell.at_index.
    replace (index =? -1)%Z with false by (symmetry; now apply Z.eqb_neq).
    simpl. destruct (index <? 0)%Z eqn:El; [reflexivity|].
    apply Z.ltb_ge in El.
    rewrite (lookup_ge_None_2 (_data this) (Z.to_nat index)) by lia.
    reflexivity.
Qed.

Lemma getTileFromIndex_witness :
  getTileFromIndex
    (mk [TileObject.mk 0; TileObject.mk 2]
        [TileType.mk (-1) (Point.mk 0 0); TileType.mk 0 (Point.mk 0 0);
         TileType.mk 1 (Point.mk 0 0)])
    5 = None.
Proof.
  destruct (getTileFromIndex_on_found_indexes
              (mk [TileObject.mk 0; TileObject.mk 2]
                  [TileType.mk (-1) (Point.mk 0 0); TileType.mk 0 (Point.mk 0 0);
                   TileType.mk 1 (Point.mk 0 0)]) 0%Z) as (_ & _ & H).
  apply H; [discriminate|simpl; lia].
Defined.

End ObjectLayerMore.

(** ** TileMapLayerDynamicOrthogonal: the tile table of the constructor *)
Module DynamicLayerMore.
Import TileMapLayerDynamicOrthogonal ObjectSpec TransformFacts.
Local Open Scope R_scope.

Lemma fold_left_cons_rev {A B : Type} (f : A -> B) (l : list A) :
  forall acc, fold_left (fun acc a => f a :: acc) l acc = rev (map f l) ++ acc.
Proof.
  induction l as [|a l IH]; intros acc; simpl; [reflexivity|].
  rewrite IH, <- app_assoc. reflexivity.
Qed.

Lemma data2_of_eq data w x y :
  w <> 0 ->
  data2_of data w x y =
  rev (map (fun ie : nat * Z =>
              (Num (keyX w x (fst ie)), Num (keyY w y (fst ie)), snd ie))
           (combine (seq 0 (length data)) data)).
Proof.
  intros Hw. unfold data2_of. rewrite (Box2Facts.Reqb_false w 0 Hw).
  etransitivity; [|apply app_nil_r].
  exact (fold_left_cons_rev
           (fun ie : nat * Z =>
              (Num (keyX w x (fst ie)), Num (keyY w y (fst ie)), snd ie))
           _ []).
Qed.

Lemma data2_of_zero data x y :
  data2_of data 0 x y =
  rev (map (fun ie : nat * Z =>
              (NaN, if Nat.eqb (fst ie) 0 then NaN else Infinity, snd ie))
           (combine (seq 0 (length data)) data)).
Proof.
  unfold data2_of. rewrite (proj2 (Box2Facts.Reqb_iff 0 0) eq_refl).
  etransitivity; [|apply app_nil_r].
  exact (fold_left_cons_rev
           (fun ie : nat * Z =>
              (NaN, if Nat.eqb (fst ie) 0 then NaN else Infinity, snd ie))
           _ []).
Qed.

Lemma elem_of_rev {A : Type} (l : list A) (a : A) : a ∈ rev l <-> a ∈ l.
Proof. rewrite !list_elem_of_In. symmetry. apply in_rev. Qed.

Lemma elem_of_map {A B : Type} (f : A -> B) (l : list A) (b : B) :
  b ∈ map f l <-> exists a, f a = b /\ a ∈ l.
Proof.
  rewrite list_elem_of_In, in_map_iff.
  split; intros (a & H1 & H2); exists a; split; auto;
    now apply list_elem_of_In.
Qed.

Lemma combine_seq_elem (data : list Z) : forall k j e,
  (j, e) ∈ combine (seq k (length data)) data <->
  (k <= j)%nat /\ data !! (j - k)%nat = Some e.
Proof.
  induction data as [|d data IH]; intros k j e; simpl.
  - rewrite elem_of_nil. split; [tauto|]. intros [_ H]. discriminate.
  - rewrite elem_of_cons, IH. split.
    + intros [H|[Hj He]].
      * injection H as -> ->. rewrite Nat.sub_diag. split; [lia|reflexivity].
      * split; [lia|]. replace (j - k)%nat with (S (j - S k)) by lia. exact He.
    + intros [Hj He]. destruct (Nat.eq_dec j k) as [->|Hne].
      * left. rewrite Nat.sub_diag in He. simpl in He. congruence.
      * right. split; [lia|].
        replace (j - k)%nat with (S (j - S k)) in He by lia. exact He.
Qed.

Lemma key_injective w x y i j :
  keyX w x i = keyX w x j -> keyY w y i = keyY w y j -> i = j.
Proof.
  unfold keyX, keyY. intros Hx Hy.
  assert (F : JSMath.floor (INR i / w) = JSMath.floor (INR j / w)) by lra.
  rewrite F in Hx. apply INR_eq. lra.
Qed.

Lemma find_unique {A : Type} (p : A -> bool) (l : list A) (e : A) :
  e ∈ l -> p e = true ->
  (forall e', e' ∈ l -> p e' = true -> e' = e) ->
  find p l = Some e.
Proof.
  induction l as [|a l IH]; intros He Hp Hu; [now apply elem_of_nil in He|].
  simpl. destruct (p a) eqn:Ea.
  - f_equal. apply Hu; [now left|exact Ea].
  - apply elem_of_cons in He as [->|He]; [congruence|].
    apply IH; auto. intros e' He' Hp'. apply Hu; [now right|exact Hp'].
Qed.

Lemma find_none {A : Type} (p : A -> bool) (l : list A) :
  (forall e, e ∈ l -> p e = false) -> find p l = None.
Proof.
  induction l as [|a l IH]; intros H; [reflexivity|].
  simpl. rewrite (H a) by now left.
  apply IH. intros e He. apply H. now right.
Qed.

Lemma data2_get_of data w x y i e :
  w <> 0 -> data !! i = Some e ->
  data2_get (data2_of data w x y) (keyX w x i) (keyY w y i) = Some e.
Proof.
  intros Hw He. unfold data2_get.
  rewrite (find_unique _ _ (Num (keyX w x i), Num (keyY w y i), e));
    [reflexivity| | |].
  - rewrite (data2_of_eq _ _ _ _ Hw), elem_of_rev, elem_of_map.
    exists (i, e). split; [reflexivity|].
    apply combine_seq_elem. rewrite Nat.sub_0_r. split; [lia|exact He].
  - simpl.
    rewrite (proj2 (Box2Facts.Reqb_iff (keyX w x i) _) eq_refl).
    rewrite (proj2 (Box2Facts.Reqb_iff (keyY w y i) _) eq_refl). reflexivity.
  - intros e'. rewrite (data2_of_eq _ _ _ _ Hw), elem_of_rev, elem_of_map.
    intros ([j d] & <- & Hj) Hp. simpl in Hp.
    apply andb_true_iff in Hp as [Hx Hy].
    apply Box2Facts.Reqb_iff in Hx. apply Box2Facts.Reqb_iff in Hy.
    apply combine_seq_elem in Hj as [_ Hj]. rewrite Nat.sub_0_r in Hj.
    pose proof (key_injective w x y j i Hx Hy) as ->.
    simpl. rewrite Hj in He. injection He as ->. reflexivity.
Qed.

(** With the width 0 no key is made of numbers. *)
Lemma data2_get_zero data x y x' y' :
  data2_get (data2_of data 0 x y) x' y' = None.
Proof.
  unfold data2_get. rewrite find_none; [reflexivity|].
  intros e. rewrite data2_of_zero, elem_of_rev, elem_of_map.
  intros (ie & <- & _). reflexivity.
Qed.

Lemma floor_div_nat (i w : nat) :
  (0 < w)%nat -> JSMath.floor (INR i / INR w) = INR (i / w).
Proof.
  intros Hw. rewrite (INR_IZR_INZ (i / w)).
  apply TileLayerFacts.floor_eq. rewrite <- INR_IZR_INZ.
  assert (HW : 0 < INR w) by (apply lt_0_INR; exact Hw).
  assert (Hi : INR i = INR w * INR (i / w) + INR (i mod w)).
  { rewrite <- mult_INR, <- plus_INR. f_equal. apply Nat.div_mod_eq. }
  assert (Hr : INR (i mod w) < INR w).
  { apply lt_INR, Nat.mod_upper_bound. lia. }
  assert (Hr0 : 0 <= INR (i mod w)) by apply pos_INR.
  replace (INR i / INR w) with (INR (i / w) + INR (i mod w) / INR w)
    by (rewrite Hi; field; lra).
  assert (H1 : 0 <= INR (i mod w) / INR w).
  { unfold Rdiv. apply Rmult_le_pos; [exact Hr0|].
    left. now apply Rinv_0_lt_compat. }
  assert (H2 : INR (i mod w) / INR w < 1).
  { apply (Rmult_lt_reg_r (INR w)); [exact HW|].
    unfold Rdiv. rewrite Rmult_assoc, Rinv_l by lra. lra. }
  lra.
Qed.

(** X28. For a layer width [w] other than 0, in exact arithmetic, the
    constructor files entry [i] of its [data] argument under the
    coordinates it computes for [i], and [getTileFromXY] at those
    coordinates finds the tile type of that entry: no entry is lost or
    overwritten by another.  For a layer [n > 0] tiles wide at tile
    offset [(x, y)], entry [i] is at column [x + i mod n], row
    [y + i / n].  With the width 0, the default of the constructor, no
    key is made of numbers, and [getTileFromXY] finds no tile at any
    coordinates. *)
Theorem getTileFromXY_finds_constructor_data this data w x y :
  _data2 this = data2_of data w x y ->
  (w <> 0 ->
   forall i e, data !! i = Some e ->
     getTileFromXY this (keyX w x i) (keyY w y i) =
       Cell.at_index (tileTypes this) e) /\
  (forall n : nat, (0 < n)%nat -> w = INR n ->
   forall i e, data !! i = Some e ->
     keyX w x i = x + INR (i mod n) /\ keyY w y i = y + INR (i / n) /\
     getTileFromXY this (x + INR (i mod n)) (y + INR (i / n)) =
       Cell.at_index (tileTypes this) e) /\
  (w = 0 -> forall x' y', getTileFromXY this x' y' = None).
Proof.
  intros Hd.
  assert (G : w <> 0 -> forall i e, data !! i = Some e ->
              getTileFromXY this (keyX w x i) (keyY w y i) =
              Cell.at_index (tileTypes this) e).
  { intros Hw i e He. unfold getTileFromXY.
    rewrite Hd, (data2_get_of data w x y i e Hw He). reflexivity. }
  conjs.
  - exact G.
  - intros n Hn Hwn i e He.
    assert (Hw : w <> 0).
    { rewrite Hwn. apply not_0_INR. lia. }
    specialize (G Hw i e He). subst w.
    assert (KX : keyX (INR n) x i = x + INR (i mod n)).
    { unfold keyX. rewrite (floor_div_nat i n Hn).
      assert (Hi : INR i = INR n * INR (i / n) + INR (i mod n)).
      { rewrite <- mult_INR, <- plus_INR. f_equal. apply Nat.div_mod_eq. }
      rewrite Hi at 1. lra. }
    assert (KY : keyY (INR n) y i = y + INR (i / n)).
    { unfold keyY. rewrite (floor_div_nat i n Hn). lra. }
    conjs; [exact KX|exact KY|].
    rewrite <- KX, <- KY. exact G.
  - intros Hw x' y'. subst w. unfold getTileFromXY.
    now rewrite Hd, data2_get_zero.
Qed.

Lemma getTileFromXY_witness :
  getTileFromXY gridLayer (0 + INR (3 mod 2)) (0 + INR (3 / 2)) =
  Cell.at_index (tileTypes gridLayer) 0%Z.
Proof.
  destruct (getTileFromXY_finds_constructor_data gridLayer [0; 1; 1; 0]%Z
              2 0 0 eq_refl) as (_ & H & _).
  destruct (H 2%nat) with (i := 3%nat) (e := 0%Z) as (_ & _ & G);
    [lia|simpl; lra|reflexivity|exact G].
Defined.

End DynamicLayerMore.

(** ** More about Camera: construction and reset *)
Module CameraMore.
Import Transform TransformSpec TransformFacts CameraFacts.
Local Open Scope R_scope.

(** A setter on a node without children: the cascade stops at once. *)
Lemma leaf_assign fuel (s : store) r T (g : t -> t) :
  s !! r = Some T -> _children (g T) = [] ->
  match upd s r g with
  | Some s1 => set_dirty (S fuel) s1 r true
  | None => None
  end = Some (<[r := with_dirty true (g T)]> s).
Proof.
  intros HT Hch. rewrite (upd_ok _ _ _ _ HT). set (s1 := <[r := _]> s).
  assert (H1 : s1 !! r = Some (g T)) by (eapply insert_eq; eauto).
  unfold set_dirty. rewrite dirty_set_true_fold_unfold.
  rewrite (upd_ok _ _ _ _ H1).
  erewrite insert_eq by eassumption. simpl. rewrite Hch. simpl.
  unfold s1. now rewrite list_insert_insert_eq.
Qed.

Lemma last_assign fuel (s : store) T (g : t -> t) :
  _children (g T) = [] ->
  match upd (s ++ [T]) (length s) g with
  | Some s1 => set_dirty (S fuel) s1 (length s) true
  | None => None
  end = Some (s ++ [with_dirty true (g T)]).
Proof.
  intros H. rewrite (leaf_assign fuel _ _ T g (snoc_lookup_last s T) H).
  now rewrite snoc_insert_last.
Qed.

Local Tactic Notation "assign" constr(N) constr(fuel) constr(C) constr(H)
  constr(Hf) ident(s') ident(C') ident(H') :=
  match goal with
  | |- context [upd ?s ?k ?g] =>
      destruct (assign_coherent N fuel s k _ g C H Hf) as (s' & -> & C' & H');
      [split; reflexivity|]
  end.

(** X29. The Camera constructor never returns.  It creates the
    Transform, moves it to the position given and sets its origin to
    minus half the size; the next statement calls
    [transform.setPivotPoint], which Transform does not define, and
    the constructor ends in that TypeError: the pivot is untouched, the
    resize handler is not registered, and the caller gets no camera.
    The objects that were in the store are as before. *)
Theorem new_camera_throws fuel s x y w h :
  (forall fuel' cam s', Camera.new fuel' s x y w h <> Camera.Returns cam s') /\
  exists cam T,
    Camera.new (S fuel) s x y w h = Camera.TypeError cam (s ++ [T]) /\
    Camera.transform cam = length s /\
    Camera.width cam = w /\ Camera.height cam = h /\
    _xy T = Point.mk x y /\
    _origin T = Point.mk (- w / 2) (- h / 2) /\
    _pivotPoint T = Point.mk 0 0 /\
    _scale T = Point.mk 1 1 /\ _rotation T = 0 /\
    _parent T = None /\ _children T = [] /\ _dirty T = true.
Proof.
  split.
  - intros fuel' cam s'. unfold Camera.new.
    destruct (new s) as [[tr s1]|]; [|discriminate].
    destruct (setXY fuel' s1 tr x y) as [s2|]; [|discriminate].
    rewrite updatedStageSize_eq.
    destruct (setOrigin fuel' s2 _ _ _); discriminate.
  - unfold Camera.new. rewrite new_eq.
    unfold setXY. erewrite last_assign by reflexivity.
    rewrite updatedStageSize_eq. simpl Camera.transform.
    unfold setOrigin. erewrite last_assign by reflexivity.
    do 2 eexists. conjs; reflexivity.
Qed.

(** X30. [zero()] never returns either.  On a camera whose Transform is
    in a coherent store it resets the position to (0, 0) and the
    rotation to 0, and the call of [transform.setScale], which
    Transform does not define, ends it in a TypeError: scale, origin
    and pivot are as they were, the Transform is dirty, the store is
    coherent, and the camera object is unchanged. *)
Theorem zero_throws_at_setScale N fuel s cam T :
  coherent N s -> s !! Camera.transform cam = Some T -> (N <= fuel)%nat ->
  (forall fuel' s0 cam' s', Camera.zero fuel' s0 cam <> Camera.Returns cam' s') /\
  exists s' T',
    Camera.zero fuel s cam = Camera.TypeError cam s' /\
    coherent N s' /\
    s' !! Camera.transform cam = Some T' /\
    _xy T' = Point.mk 0 0 /\ _rotation T' = 0 /\
    _scale T' = _scale T /\ _origin T' = _origin T /\
    _pivotPoint T' = _pivotPoint T /\
    _dirty T' = true /\
    _parent T' = _parent T /\ _children T' = _children T.
Proof.
  intros C HT Hf. split.
  - intros fuel' s0 cam' s'. unfold Camera.zero.
    destruct (set_x fuel' s0 _ 0) as [s1|]; [|discriminate].
    destruct (set_y fuel' s1 _ 0) as [s2|]; [|discriminate].
    destruct (set_rotation fuel' s2 _ 0) as [s3|]; discriminate.
  - unfold Camera.zero.
    unfold set_x. assign N fuel C HT Hf s1 C1 H1.
    unfold set_y. assign N fuel C1 H1 Hf s2 C2 H2.
    unfold set_rotation. assign N fuel C2 H2 Hf s3 C3 H3.
    unfold setScale.
    do 2 eexists. split; [reflexivity|]. split; [exact C3|].
    split; [exact H3|]. conjs; try reflexivity.
    simpl. unfold degreesToRadians. lra.
Qed.

Lemma zero_throws_at_setScale_witness :
  exists s',
    Camera.zero 1 [CameraScenario.T2] CameraScenario.cam1 =
    Camera.TypeError CameraScenario.cam1 s'.
Proof.
  assert (C : coherent 1 [CameraScenario.T2]).
  { exists (fun _ => 0%nat), (fun _ => 0%nat). conjs.
    - intros r. lia.
    - intros r T HT. destruct r as [|r]; [|destruct r; discriminate].
      injection HT as <-. split.
      + intros p Hp. discriminate.
      + intros e He. inversion He.
    - split.
      + intros r T e HT He. destruct r as [|r]; [|destruct r; discriminate].
        injection HT as <-. inversion He.
      + intros r T p HT Hp. destruct r as [|r]; [|destruct r; discriminate].
        injection HT as <-. discriminate.
    - intros r T HT Hd. destruct r as [|r]; [|destruct r; discriminate].
      injection HT as <-. discriminate. }
  destruct (zero_throws_at_setScale 1 1 [CameraScenario.T2] CameraScenario.cam1
              CameraScenario.T2 C eq_refl (le_n 1%nat))
    as (_ & s' & T' & E & _).
  now exists s'.
Defined.

End CameraMore.
